(** * Retrieval and ranking engine: a shallow embedding and its properties

    The development follows two modules of the repository:

    - [backend/app/ranking.py] and [backend/app/tools/hf_tool.py]: the three
      ranking functions and the model-search orchestrator;
    - [scripts/build_hf_rag_index.py]: exclusion rules, canonical mapping,
      section extraction and chunking of the index builder.

    Conventions of the embedding.

    - A Python [int] is a [Z]; a [Decimal] column is a [Q].
    - A Python [str] is a [string] whose characters are code points below 256;
      [isspace] and [lower] are the Unicode ones restricted to that range.
    - An [option] field of a row is the result of [d.get(k)]: [None] stands
      for an absent key or a null value, unless the record says otherwise.
    - A call that may raise, or a loop that may not end, returns an [outcome].
    - Libraries the code calls but does not define (the tokenizer, SHA-256,
      [math.log], the database) are Section variables. *)

From Stdlib Require Import ZArith QArith List String Ascii Bool Lia.
From Stdlib Require Import Permutation Sorted.
From Stdlib Require Import Floats.
Import ListNotations.

Set Warnings "-inexact-float,-register-all".

Local Open Scope string_scope.
Local Open Scope list_scope.
Local Open Scope Z_scope.

(** ** Python built-ins used by the sources *)

Module Py.

(** [str.isspace] on one character: TAB..CR, FS..US, SPACE, NEL, NBSP. *)
Definition isspace (c : ascii) : bool :=
  let n := N_of_ascii c in
  ((9 <=? n) && (n <=? 13) || (28 <=? n) && (n <=? 32)
   || (n =? 133) || (n =? 160))%N.

(** [str.lower] on one character: A-Z, and the Latin-1 capitals. *)
Definition lower_char (c : ascii) : ascii :=
  let n := N_of_ascii c in
  if ((65 <=? n) && (n <=? 90) || (192 <=? n) && (n <=? 214)
      || (216 <=? n) && (n <=? 222))%N
  then ascii_of_N (n + 32) else c.

Fixpoint lower (s : string) : string :=
  match s with
  | EmptyString => EmptyString
  | String c s' => String (lower_char c) (lower s')
  end.

Fixpoint lstrip (s : string) : string :=
  match s with
  | EmptyString => EmptyString
  | String c s' => if isspace c then lstrip s' else s
  end.

(** [s.rstrip()]: drop the trailing run of whitespace. *)
Fixpoint rstrip (s : string) : string :=
  match s with
  | EmptyString => EmptyString
  | String c s' =>
      match rstrip s' with
      | EmptyString => if isspace c then EmptyString else String c EmptyString
      | r => String c r
      end
  end.

Definition strip (s : string) : string := rstrip (lstrip s).

(** [s.startswith(p)] *)
Definition startswith (s p : string) : bool := String.prefix p s.

(** [sub in s] *)
Fixpoint contains (sub s : string) : bool :=
  String.prefix sub s
  || match s with
     | EmptyString => false
     | String _ s' => contains sub s'
     end.

(** [s.split(sep)] for a one-character separator; never the empty list. *)
Fixpoint split_on (sep : ascii) (s : string) : list string :=
  match s with
  | EmptyString => [EmptyString]
  | String c s' =>
      if Ascii.eqb c sep then EmptyString :: split_on sep s'
      else match split_on sep s' with
           | [] => [String c EmptyString]
           | w :: ws => String c w :: ws
           end
  end.

(** [sep.join(parts)] *)
Definition join (sep : string) (parts : list string) : string :=
  String.concat sep parts.

(** [s.split()]: the maximal runs of non-whitespace characters. *)
Fixpoint split_ws_aux (cur : option string) (s : string) : list string :=
  match s with
  | EmptyString => match cur with Some w => [w] | None => [] end
  | String c s' =>
      if isspace c
      then match cur with
           | Some w => w :: split_ws_aux None s'
           | None => split_ws_aux None s'
           end
      else match cur with
           | Some w => split_ws_aux (Some (w ++ String c EmptyString)%string) s'
           | None => split_ws_aux (Some (String c EmptyString)) s'
           end
  end.

Definition split_ws (s : string) : list string := split_ws_aux None s.

(** [s.replace('\r\n', '\n')] and [s.replace(a, b)] for one character. *)
Definition CR : ascii := ascii_of_N 13.
Definition LF : ascii := ascii_of_N 10.

Fixpoint replace_crlf (s : string) : string :=
  match s with
  | EmptyString => EmptyString
  | String c s' =>
      match s' with
      | String c' s'' =>
          if Ascii.eqb c CR && Ascii.eqb c' LF
          then String LF (replace_crlf s'')
          else String c (replace_crlf s')
      | EmptyString => String c EmptyString
      end
  end.

Fixpoint replace_char (a b : ascii) (s : string) : string :=
  match s with
  | EmptyString => EmptyString
  | String c s' => String (if Ascii.eqb c a then b else c) (replace_char a b s')
  end.

(** [l[i:j]] with Python's treatment of negative and out-of-range bounds. *)
Definition clamp_index (len i : Z) : Z :=
  let i' := if i <? 0 then i + len else i in
  Z.max 0 (Z.min len i').

Definition slice {A} (l : list A) (i j : Z) : list A :=
  let len := Z.of_nat (List.length l) in
  let lo := clamp_index len i in
  let hi := clamp_index len j in
  firstn (Z.to_nat (hi - lo)) (skipn (Z.to_nat lo) l).

(** [l[:j]] *)
Definition slice_to {A} (l : list A) (j : Z) : list A := slice l 0 j.

(** [len(l)] *)
Definition len {A} (l : list A) : Z := Z.of_nat (List.length l).

(** Ordering of the values that occur in sort keys.  [cmp] is the
    three-way result of Python's [==] and [<]. *)
Class Ord (A : Type) := { cmp : A -> A -> comparison }.

#[export] Instance Ord_Z : Ord Z := {| cmp := Z.compare |}.
#[export] Instance Ord_Q : Ord Q := {| cmp := Qcompare |}.
#[export] Instance Ord_string : Ord string := {| cmp := String.compare |}.

(** Tuples compare lexicographically: the first differing component
    decides. *)
#[export] Instance Ord_pair {A B} `{Ord A} `{Ord B} : Ord (A * B) :=
  {| cmp := fun x y =>
       match cmp (fst x) (fst y) with
       | Eq => cmp (snd x) (snd y)
       | r => r
       end |}.

Definition lt {A} `{Ord A} (a b : A) : bool :=
  match cmp a b with Lt => true | _ => false end.

(** [sorted(l, key=key)].  Python's sort is stable and only uses [<] on
    the keys; for keys that are totally pre-ordered the result of a stable
    sort is unique, and is computed here by insertion from the right. *)
Section Sorted.
Context {A K : Type} `{Ord K} (key : A -> K).

Fixpoint insert (x : A) (l : list A) : list A :=
  match l with
  | [] => [x]
  | y :: l' => if lt (key y) (key x) then y :: insert x l' else x :: l
  end.

Definition sorted (l : list A) : list A := fold_right insert [] l.
End Sorted.

(** The laws that make [cmp] a total pre-order; every key type of the
    ranking functions has them. *)
Class OrdLaws (A : Type) `{Ord A} := {
  cmp_refl : forall a, cmp a a = Eq;
  cmp_antisym : forall a b, cmp b a = CompOpp (cmp a b);
  cmp_lt_trans : forall a b c, cmp a b = Lt -> cmp b c = Lt -> cmp a c = Lt;
  cmp_eq_compat : forall a b c, cmp a b = Eq -> cmp a c = cmp b c
}.

(** [a] may stand before [b] in a list sorted by [key]. *)
Definition key_le {A K} `{Ord K} (key : A -> K) (a b : A) : Prop :=
  cmp (key a) (key b) <> Gt.

(** [a] and [b] have equal keys. *)
Definition key_eqb {A K} `{Ord K} (key : A -> K) (a b : A) : bool :=
  match cmp (key a) (key b) with Eq => true | _ => false end.

(** Floats compare by IEEE [==] and [<]; an unordered pair (a NaN) is
    neither equal nor less. *)
#[export] Instance Ord_float : Ord float :=
  {| cmp := fun x y =>
       match PrimFloat.compare x y with
       | FEq => Eq
       | FLt => Lt
       | _ => Gt
       end |}.

(** The result of a call: a value, an exception, or no result within the
    given number of loop iterations. *)
Inductive exn := ValueError (msg : string) | Exception (msg : string).

Inductive outcome (A : Type) :=
| Ok (a : A)
| Raise (e : exn)
| OutOfFuel.
Arguments Ok {A}.
Arguments Raise {A}.
Arguments OutOfFuel {A}.

Definition bind {A B} (m : outcome A) (k : A -> outcome B) : outcome B :=
  match m with
  | Ok a => k a
  | Raise e => Raise e
  | OutOfFuel => OutOfFuel
  end.

Notation "x <- m ;; k" := (bind m (fun x => k))
  (at level 61, m at next level, right associativity).

(** A run whose result, once reached, does not change with more fuel. *)
Definition fuel_stable {A} (run : nat -> outcome A) : Prop :=
  forall fuel fuel', run fuel <> OutOfFuel -> (fuel <= fuel')%nat ->
    run fuel' = run fuel.

(** A [dict] with string keys, in insertion order. *)
Definition dict (V : Type) := list (string * V).

Fixpoint dict_get {V} (d : dict V) (k : string) : option V :=
  match d with
  | [] => None
  | (k', v) :: d' => if String.eqb k k' then Some v else dict_get d' k
  end.

Fixpoint dict_set {V} (d : dict V) (k : string) (v : V) : dict V :=
  match d with
  | [] => [(k, v)]
  | (k', v') :: d' =>
      if String.eqb k k' then (k, v) :: d' else (k', v') :: dict_set d' k v
  end.

(** [enumerate(l)] with the index shifted by [start]. *)
Fixpoint enumerate_from {A} (start : Z) (l : list A) : list (Z * A) :=
  match l with
  | [] => []
  | x :: l' => (start, x) :: enumerate_from (start + 1) l'
  end.

End Py.

(** ** backend/app/ranking.py *)

Module Ranking.
Import Py.

(** A ranked row: the input row with the key ['rank'] set. *)
Record ranked (A : Type) := mk_ranked { rank : Z; row : A }.
Arguments mk_ranked {A}.
Arguments rank {A}.
Arguments row {A}.

Definition add_ranks {A} (l : list A) : list (ranked A) :=
  map (fun p => mk_ranked (fst p + 1) (snd p)) (enumerate_from 0 l).

(** *** rank_compute_instances *)

(** A candidate as the ranking reads it: the values under the five keys of
    the sort key.  For [provider] and [name], [None] is an absent key (a null
    text, on which Python's comparison raises, is left out).  [vram_gb] is
    the key under which the compute tool selects the GPU memory; the ranking
    does not read it. *)
Record instance := mk_instance {
  inst_id : string;
  price_monthly : option Q;
  gpu_memory_gb : option Z;
  gpu_count : option Z;
  provider : option string;
  name : option string;
  vram_gb : option Z
}.

(** The row [search_compute_instances] selects for a catalog entry:
    [COALESCE(gpu_memory_gb, 0) as vram_gb], [COALESCE(price_monthly, 0) as
    price_monthly], and no column named [gpu_memory_gb]. *)
Definition selected_instance (id provider name : string)
    (gpu_count gpu_memory : option Z) (price : option Q) : instance :=
  mk_instance id
    (Some (match price with Some p => p | None => 0 # 1 end))
    None
    (Some (match gpu_count with Some z => z | None => 0 end))
    (Some provider) (Some name)
    (Some (match gpu_memory with Some z => z | None => 0 end)).

(** [x or d] for a numeric [x]: [d] when [x] is absent, null or zero. *)
Definition or_Q (x : option Q) (d : Q) : Q :=
  match x with
  | Some q => if Qeq_bool q 0 then d else q
  | None => d
  end.

Definition or_Z (x : option Z) (d : Z) : Z :=
  match x with
  | Some z => if z =? 0 then d else z
  | None => d
  end.

(** [d.get(k, '')] for a text column. *)
Definition get_str (x : option string) : string :=
  match x with Some s => s | None => EmptyString end.

Definition compute_sort_key (inst : instance)
  : Q * (Z * (Z * (string * string))) :=
  (or_Q (price_monthly inst) (999999 # 1),
   (- or_Z (gpu_memory_gb inst) 0,
    (- or_Z (gpu_count inst) 0,
     (get_str (provider inst),
      get_str (name inst))))).

Definition rank_compute_instances (instances : list instance)
  : list (ranked instance) :=
  let sorted_instances := sorted compute_sort_key instances in
  add_ranks sorted_instances.

(** The order the ranking is meant to produce, written on the fields.
    [price] says how the price column is read. *)
Definition vram_of (i : instance) : Z :=
  match gpu_memory_gb i with Some z => z | None => 0 end.
Definition gpus_of (i : instance) : Z :=
  match gpu_count i with Some z => z | None => 0 end.
Definition provider_of (i : instance) : string := get_str (provider i).
Definition name_of (i : instance) : string := get_str (name i).

Definition precedes_with (price : instance -> Q) (a b : instance) : Prop :=
  (price a < price b)%Q \/
  ((price a == price b)%Q /\
   (vram_of a > vram_of b \/
    (vram_of a = vram_of b /\
     (gpus_of a > gpus_of b \/
      (gpus_of a = gpus_of b /\
       (String.ltb (provider_of a) (provider_of b) = true \/
        (provider_of a = provider_of b /\
         String.leb (name_of a) (name_of b) = true))))))).

(** The price with only an absent or null value replaced by the sentinel. *)
Definition price_or_sentinel (i : instance) : Q :=
  match price_monthly i with Some p => p | None => 999999 # 1 end.

(** The price as the code reads it: absent, null and zero give the
    sentinel. *)
Definition effective_price (i : instance) : Q :=
  match price_monthly i with
  | Some p => if Qeq_bool p 0 then 999999 # 1 else p
  | None => 999999 # 1
  end.

(** Two candidates that do not differ in GPU memory, neither under the
    key the ranking reads nor under the key the compute tool selects. *)
Definition same_gpu_memory (a b : instance) : Prop :=
  gpu_memory_gb a = gpu_memory_gb b /\ vram_gb a = vram_gb b.

(** The order by price, and below it by GPU count, provider and name for
    candidates that do not differ in GPU memory; how candidates of equal
    price and different GPU memory stand is left open. *)
Definition precedes_by_price (a b : instance) : Prop :=
  (effective_price a < effective_price b)%Q \/
  ((effective_price a == effective_price b)%Q /\
   (same_gpu_memory a b ->
    gpus_of a > gpus_of b \/
    (gpus_of a = gpus_of b /\
     (String.ltb (provider_of a) (provider_of b) = true \/
      (provider_of a = provider_of b /\
       String.leb (name_of a) (name_of b) = true))))).

(** An instance priced at zero and one priced at 100. *)
Definition free_instance : instance :=
  mk_instance "i-free" (Some (0 # 1)) (Some 16) (Some 1) (Some "aws")
    (Some "free") None.
Definition paid_instance : instance :=
  mk_instance "i-paid" (Some (100 # 1)) (Some 16) (Some 1) (Some "aws")
    (Some "paid") None.

(** [ranks] are 1, 2, ..., n in list order. *)
Definition dense_ranks {A} (l : list (ranked A)) : Prop :=
  forall i r, nth_error l i = Some r -> rank r = Z.of_nat i + 1.

(** *** rank_k8s_packages *)

(** A row of [cloud.bitnami_packages] as the ranking reads it. *)
Record package := mk_package {
  package_id : string;
  pkg_name : option string;
  description : option string;
  stars : option Z;
  official : option bool
}.

(** [(x or '')] for a text column. *)
Definition or_empty (x : option string) : string :=
  match x with Some s => s | None => EmptyString end.

(** Truth value of [pkg.get('official')]. *)
Definition truthy (x : option bool) : bool :=
  match x with Some b => b | None => false end.

Definition query_lower (query : string) : string := strip (lower query).
Definition name_lower (pkg : package) : string := lower (or_empty (pkg_name pkg)).
Definition desc_lower (pkg : package) : string := lower (or_empty (description pkg)).

Definition match_score (q : string) (pkg : package) : Z :=
  if String.eqb (name_lower pkg) q then 1000
  else if startswith (name_lower pkg) q then 900
  else if contains q (name_lower pkg) then 800
  else if contains q (desc_lower pkg) then 700
  else 0.

Definition k8s_sort_key (q : string) (pkg : package)
  : Z * (Z * (Z * string)) :=
  (- match_score q pkg,
   (- or_Z (stars pkg) 0,
    ((if truthy (official pkg) then 0 else 1),
     name_lower pkg))).

Definition rank_k8s_packages (packages : list package) (query : string)
  : list (ranked package) :=
  let q := query_lower query in
  let sorted_packages := sorted (k8s_sort_key q) packages in
  add_ranks sorted_packages.

(** The five match tiers, best first, and the order of the ranking written
    on the fields.  [q] is the query lower-cased and stripped; names and
    descriptions are compared lower-cased. *)
Inductive tier := Exact | StartsWith | InName | InDescription | NoMatch.

Definition is_prefix (p s : string) : Prop := exists t, s = (p ++ t)%string.
Definition is_substring (p s : string) : Prop :=
  exists a b, s = (a ++ p ++ b)%string.

Definition tier_of (q : string) (pkg : package) (t : tier) : Prop :=
  match t with
  | Exact => name_lower pkg = q
  | StartsWith => name_lower pkg <> q /\ is_prefix q (name_lower pkg)
  | InName => ~ is_prefix q (name_lower pkg) /\ is_substring q (name_lower pkg)
  | InDescription =>
      ~ is_substring q (name_lower pkg) /\ is_substring q (desc_lower pkg)
  | NoMatch =>
      ~ is_substring q (name_lower pkg) /\ ~ is_substring q (desc_lower pkg)
  end.

(** Position of a tier, best tier lowest. *)
Definition tier_pos (t : tier) : Z :=
  match t with
  | Exact => 0 | StartsWith => 1 | InName => 2 | InDescription => 3
  | NoMatch => 4
  end.

(** The score the code gives to a tier. *)
Definition score_of_tier (t : tier) : Z :=
  match t with
  | Exact => 1000 | StartsWith => 900 | InName => 800 | InDescription => 700
  | NoMatch => 0
  end.

Definition stars_of (pkg : package) : Z :=
  match stars pkg with Some z => z | None => 0 end.

Definition pkg_precedes (q : string) (a b : package) : Prop :=
  exists ta tb, tier_of q a ta /\ tier_of q b tb /\
  (tier_pos ta < tier_pos tb \/
   (ta = tb /\
    (stars_of a > stars_of b \/
     (stars_of a = stars_of b /\
      ((truthy (official a) = true /\ truthy (official b) = false) \/
       (truthy (official a) = truthy (official b) /\
        String.leb (name_lower a) (name_lower b) = true)))))).

(** The ranking as the claim words it, written on the columns of a
    package.  Names and descriptions are compared lower-cased; [q] is the
    query as it is compared, [name_key] the name as it is ordered. *)
Definition folded (x : option string) : string :=
  lower (match x with Some s => s | None => EmptyString end).

Definition tier_on_fields (q : string) (pkg : package) (t : tier) : Prop :=
  match t with
  | Exact => folded (pkg_name pkg) = q
  | StartsWith =>
      folded (pkg_name pkg) <> q /\ is_prefix q (folded (pkg_name pkg))
  | InName =>
      ~ is_prefix q (folded (pkg_name pkg)) /\
      is_substring q (folded (pkg_name pkg))
  | InDescription =>
      ~ is_substring q (folded (pkg_name pkg)) /\
      is_substring q (folded (description pkg))
  | NoMatch =>
      ~ is_substring q (folded (pkg_name pkg)) /\
      ~ is_substring q (folded (description pkg))
  end.

Definition is_official (pkg : package) : bool :=
  match official pkg with Some b => b | None => false end.

Definition raw_name (pkg : package) : string :=
  match pkg_name pkg with Some s => s | None => EmptyString end.

Definition lowered_name (pkg : package) : string := folded (pkg_name pkg).

Definition ordered_by_tier (q : string) (name_key : package -> string)
    (a b : package) : Prop :=
  exists ta tb, tier_on_fields q a ta /\ tier_on_fields q b tb /\
  (tier_pos ta < tier_pos tb \/
   (ta = tb /\
    (stars_of a > stars_of b \/
     (stars_of a = stars_of b /\
      ((is_official a = true /\ is_official b = false) \/
       (is_official a = is_official b /\
        String.leb (name_key a) (name_key b) = true)))))).

(** A package that mentions the query in its description only, and two
    packages whose names differ in case. *)
Definition described_pkg : package :=
  mk_package "p-3" (Some "tracker") (Some "mlflow server") (Some 10)
    (Some true).
Definition pkg_a : package := mk_package "p-4" (Some "a") None None None.
Definition pkg_B : package := mk_package "p-5" (Some "B") None None None.
Definition shouting_pkg : package :=
  mk_package "p-6" (Some "MLFLOW") None None None.

(** The package "mlflow" with 10 stars and "mlflow-operator" with 500. *)
Definition mlflow_pkg : package :=
  mk_package "p-1" (Some "mlflow") (Some "ML lifecycle") (Some 10) (Some true).
Definition mlflow_operator_pkg : package :=
  mk_package "p-2" (Some "mlflow-operator") (Some "Operator") (Some 500)
    (Some false).

(** *** rank_hf_models *)

(** A row of the model query as the ranking reads it. *)
Record hf_model := mk_hf_model {
  model_id : option string;
  downloads : option Z;
  likes : option Z;
  license : option string;
  pipeline_tag : option string;
  model_card_hash : string
}.

(** A ranked model: the row with ['relevance_score'], ['combined_score'] and
    ['rank'] set. *)
Record ranked_model := mk_ranked_model {
  rm_rank : Z;
  rm_model : hf_model;
  relevance_score : float;
  combined_score : float
}.

Section RankHfModels.

(** [math.log] on a positive [int] and [round(x, ndigits)] on a float. *)
Variable math_log : Z -> float.
Variable round : float -> Z -> float.

Definition log (x : Z) : outcome float :=
  if x <=? 0 then Raise (ValueError "math domain error") else Ok (math_log x).

(** [max(a, b)] *)
Definition max_float (a b : float) : float := if (a <? b)%float then b else a.

Definition popularity (model : hf_model) : outcome float :=
  let downloads := or_Z (downloads model) 0 in
  let likes := or_Z (likes model) 0 in
  ld <- log (downloads + 1) ;;
  ll <- log (likes + 1) ;;
  Ok (ld + ll)%float.

(** First loop: the popularity of every model and the running maximum. *)
Fixpoint popularities (models : list hf_model) (max_popularity : float)
  : outcome (list (hf_model * float) * float) :=
  match models with
  | [] => Ok ([], max_popularity)
  | model :: rest =>
      p <- popularity model ;;
      r <- popularities rest (max_float max_popularity p) ;;
      Ok ((model, p) :: fst r, snd r)
  end.

Definition get_model_id (model : hf_model) : string := get_str (model_id model).

Definition norm_popularity (p max_popularity : float) : float :=
  if (0 <? max_popularity)%float then (p / max_popularity)%float else 0%float.

Definition combine (relevance norm : float) : float :=
  (0.6 * relevance + 0.4 * norm)%float.

(** Second loop: the scores of one model, with its sort key. *)
Definition score_model (relevance_scores : dict float) (max_popularity : float)
    (mp : hf_model * float) : ranked_model * (float * string) :=
  let model := fst mp in
  let model_id := get_model_id model in
  let relevance :=
    match dict_get relevance_scores model_id with
    | Some r => r
    | None => 0.5%float
    end in
  let norm := norm_popularity (snd mp) max_popularity in
  let combined := combine relevance norm in
  (mk_ranked_model 0 model (round relevance 4) (round combined 4),
   ((- combined)%float, model_id)).

Definition rank_hf_models (models : list hf_model)
    (relevance_scores : option (dict float)) : outcome (list ranked_model) :=
  let relevance_scores :=
    match relevance_scores with Some d => d | None => [] end in
  r <- popularities models 0%float ;;
  let scored := map (score_model relevance_scores (snd r)) (fst r) in
  let sorted_models := sorted snd scored in
  Ok (map (fun p =>
             let m := fst (snd p) in
             mk_ranked_model (fst p + 1) (rm_model m)
               (relevance_score m) (combined_score m))
          (enumerate_from 0 sorted_models)).

End RankHfModels.

(** The models whose counts [math.log] accepts, and the relevance the
    ranking reads for a model. *)
Definition countable (model : hf_model) : Prop :=
  0 < or_Z (downloads model) 0 + 1 /\ 0 < or_Z (likes model) 0 + 1.

Definition relevance_of (relevance_scores : option (dict float))
    (model : hf_model) : float :=
  match dict_get (match relevance_scores with Some d => d | None => [] end)
          (get_model_id model) with
  | Some r => r
  | None => 0.5%float
  end.

End Ranking.

(** ** backend/app/tools/hf_tool.py *)

Module HfTool.
Import Py Ranking.

(** The settings the tool reads. *)
Record Settings := mk_settings {
  openai_embed_model : string;
  hf_embedding_model_name : string;
  hf_chunker_version : string;
  hf_top_k : Z;
  hf_chunk_top_k : Z
}.

(** A row of the chunk similarity search. *)
Record card_score := mk_card_score {
  card_hash : string;
  max_similarity : float;
  avg_similarity : float;
  combined_similarity : float
}.

(** Values of the metadata dictionary. *)
Inductive value :=
| VNone
| VInt (z : Z)
| VStr (s : string)
| VStrs (l : list string)
| VDict (d : list (string * value)).

Record response := mk_response {
  results : list ranked_model;
  metadata : dict value
}.

Definition opt_str (x : option string) : value :=
  match x with Some s => VStr s | None => VNone end.

Definition opt_strs (x : option (list string)) : value :=
  match x with Some l => VStrs l | None => VNone end.

Section SearchHfModels.

Variable settings : Settings.
Variable math_log : Z -> float.
Variable round : float -> Z -> float.

(** [str] of a float. *)
Variable str_float : float -> string.

(** The embedding service: model name and input text to a vector. *)
Variable embeddings_create : string -> string -> outcome (list float).

(** The database running the chunk search with its five parameters, and
    the model query with the card hashes, the licenses and the pipeline
    tags bound. *)
Variable run_chunk_search :
  string -> string -> string -> string -> Z -> outcome (list card_score).
Variable run_model_query :
  list string -> list string -> list string -> outcome (list hf_model).

Definition get_query_embedding (text : string) : outcome (list float) :=
  embeddings_create (openai_embed_model settings) text.

(** Fourth step: the relevance of a card goes to each of its models. *)
Fixpoint propagate (relevance_by_card : dict float) (models : list hf_model)
    (relevance_scores : dict float) : dict float :=
  match models with
  | [] => relevance_scores
  | model :: rest =>
      let relevance :=
        match dict_get relevance_by_card (model_card_hash model) with
        | Some r => r
        | None => 0%float
        end in
      propagate relevance_by_card rest
        (dict_set relevance_scores (get_model_id model) relevance)
  end.

(** The vector written as a [pgvector] literal. *)
Definition vector_literal (query_embedding : list float) : string :=
  ("[" ++ join "," (map str_float query_embedding) ++ "]")%string.

Definition search_hf_models (query : string) (pipeline_tag : option string)
    (license_filter : option (list string)) (top_k : option Z)
  : outcome response :=
  let top_k := or_Z top_k (hf_top_k settings) in
  let chunk_top_k := hf_chunk_top_k settings in
  query_embedding <- get_query_embedding query ;;
  let embedding_str := vector_literal query_embedding in
  card_scores <-
    run_chunk_search embedding_str (hf_embedding_model_name settings)
      (hf_chunker_version settings) embedding_str chunk_top_k ;;
  match card_scores with
  | [] =>
      Ok (mk_response []
            [("total_found", VInt 0);
             ("top_k", VInt top_k);
             ("query", VStr query);
             ("embedding_model", VStr (hf_embedding_model_name settings))])
  | _ =>
      let card_hashes := map card_hash card_scores in
      let relevance_by_card :=
        fold_left (fun d cs => dict_set d (card_hash cs) (combined_similarity cs))
          card_scores [] in
      let license_params :=
        match license_filter with
        | Some (l :: ls) => l :: ls
        | _ => []
        end in
      let pipeline_params :=
        match pipeline_tag with
        | Some EmptyString | None => []
        | Some t => [t]
        end in
      models <- run_model_query card_hashes license_params pipeline_params ;;
      let relevance_scores := propagate relevance_by_card models [] in
      ranked_models <- rank_hf_models math_log round models (Some relevance_scores) ;;
      Ok (mk_response (slice_to ranked_models top_k)
            [("total_found", VInt (len ranked_models));
             ("top_k", VInt top_k);
             ("query", VStr query);
             ("embedding_model", VStr (hf_embedding_model_name settings));
             ("chunker_version", VStr (hf_chunker_version settings));
             ("filters", VDict [("pipeline_tag", opt_str pipeline_tag);
                                ("license_filter", opt_strs license_filter)])])
  end.

End SearchHfModels.

(** A deployment with the default settings whose index holds no chunk. *)
Definition default_settings : Settings :=
  mk_settings "text-embedding-3-small" "text-embedding-3-small"
    "hf_chunker_v1" 5 20.

Definition empty_index_search
  : string -> string -> string -> string -> Z -> outcome (list card_score) :=
  fun _ _ _ _ _ => Ok [].

Definition no_models
  : list string -> list string -> list string -> outcome (list hf_model) :=
  fun _ _ _ => Ok [].

Definition unit_embedding : string -> string -> outcome (list float) :=
  fun _ _ => Ok [1%float].

(** The relevance of each card, as the third step collects it, and the
    relevance the fourth step gives to a model. *)
Definition relevance_by_card (card_scores : list card_score) : dict float :=
  fold_left (fun d cs => dict_set d (card_hash cs) (combined_similarity cs))
    card_scores [].

Definition card_relevance (relevance_by_card : dict float) (model : hf_model)
  : float :=
  match dict_get relevance_by_card (model_card_hash model) with
  | Some r => r
  | None => 0%float
  end.

(** An index in which two cards match, and the two models that carry
    them. *)
Definition two_cards_search
  : string -> string -> string -> string -> Z -> outcome (list card_score) :=
  fun _ _ _ _ _ =>
    Ok [mk_card_score "h1" 0.9 0.8 0.87; mk_card_score "h2" 0.5 0.5 0.5].

Definition two_models
  : list string -> list string -> list string -> outcome (list hf_model) :=
  fun _ _ _ =>
    Ok [mk_hf_model (Some "org/a") (Some 10) (Some 1) None None "h1";
        mk_hf_model (Some "org/b") (Some 5) (Some 0) None None "h2"].

End HfTool.

(** ** scripts/build_hf_rag_index.py *)

Module IndexBuilder.
Import Py.

(** The configuration [main] builds, with its defaults. *)
Record Config := mk_config {
  embed_model : string;
  chunker_version : string;
  chunk_target : Z;
  chunk_overlap : Z;
  max_canon_models : Z;
  batch_size : Z
}.

Definition default_config : Config :=
  mk_config "text-embedding-3-small" "hf_chunker_v1" 900 120 0 100.

(** The tables the builder reads and writes. *)
Record model_card := mk_model_card {
  mc_model_id : string;
  card_text : string;
  mc_card_hash : string;
  token_count : Z;
  excluded_from_rag : bool;
  exclusion_reason : option string
}.

Record model_row := mk_model_row {
  m_model_id : string;
  m_downloads : option Z;
  m_likes : option Z
}.

(** [hf.card_canon] is keyed by card hash, [hf.model_to_card] by model id. *)
Record database := mk_database {
  model_cards : list model_card;
  models : list model_row;
  card_canon : dict (string * Z);
  model_to_card : dict string
}.

Record failure := mk_failure {
  f_card_hash : string;
  f_model_id : string;
  f_error : string;
  f_step : string
}.

Record RAGIndexBuilder := mk_builder {
  config : Config;
  conn : database;
  stats : dict Z;
  failures : list failure
}.

Definition set_conn (self : RAGIndexBuilder) (db : database) : RAGIndexBuilder :=
  mk_builder (config self) db (stats self) (failures self).

Definition set_stat (self : RAGIndexBuilder) (k : string) (v : Z)
  : RAGIndexBuilder :=
  mk_builder (config self) (conn self) (dict_set (stats self) k v)
    (failures self).

Definition set_model_cards (db : database) (cards : list model_card) : database :=
  mk_database cards (models db) (card_canon db) (model_to_card db).

(** *** Step A: exclusion rules *)

Definition exclude (reason : string) (c : model_card) : model_card :=
  mk_model_card (mc_model_id c) (card_text c) (mc_card_hash c) (token_count c)
    true (Some reason).

(** [UPDATE hf.model_cards SET excluded_from_rag = TRUE, exclusion_reason =
    reason WHERE cond AND excluded_from_rag = FALSE]: the table after the
    statement, and its row count. *)
Definition update_excluded (cond : model_card -> bool) (reason : string)
    (cards : list model_card) : list model_card * Z :=
  let hit c := cond c && negb (excluded_from_rag c) in
  (map (fun c => if hit c then exclude reason c else c) cards,
   len (filter hit cards)).

Definition rule1 (cards : list model_card) : list model_card * Z :=
  update_excluded (fun c => String.eqb (card_text c) "No model card found.")
    "No content" cards.

Definition rule2 (cards : list model_card) : list model_card * Z :=
  update_excluded (fun c => token_count c <? 50) "Too short (<50 tokens)" cards.

Definition rule3 (cards : list model_card) : list model_card * Z :=
  update_excluded (fun c => token_count c >? 100000)
    "Too long (>100k tokens, likely non-textual)" cards.

Definition apply_exclusion_rules (self : RAGIndexBuilder) : RAGIndexBuilder :=
  let '(cards1, rule1_count) := rule1 (model_cards (conn self)) in
  let '(cards2, rule2_count) := rule2 cards1 in
  let '(cards3, rule3_count) := rule3 cards2 in
  let self := set_conn self (set_model_cards (conn self) cards3) in
  let self := set_stat self "excluded_no_content" rule1_count in
  let self := set_stat self "excluded_too_short" rule2_count in
  let self := set_stat self "excluded_too_long" rule3_count in
  set_stat self "total_excluded" (rule1_count + rule2_count + rule3_count).

(** What marking "exactly the not-yet-excluded cards whose text is
    [sentinel], with [reason]" means for a table before and after. *)
Definition marks_exactly (sentinel reason : string)
    (before after : list model_card) : Prop :=
  Forall2 (fun c c' =>
             (excluded_from_rag c = false /\ card_text c = sentinel ->
              c' = exclude reason c) /\
             (~ (excluded_from_rag c = false /\ card_text c = sentinel) ->
              c' = c))
    before after.

(** A card whose text is the words of the specification, and one whose
    text is what the fetcher stores for a missing card. *)
Definition card_no_content_found : model_card :=
  mk_model_card "org/a" "no content found" "h-a" 3 false None.
Definition card_no_model_card : model_card :=
  mk_model_card "org/b" "No model card found." "h-b" 5 false None.

(** *** Step B: canonical mapping *)

(** A row of the query: card hash, model id, downloads and likes with
    [COALESCE(.., 0)]. *)
Record card_row := mk_card_row {
  r_card_hash : string;
  r_model_id : string;
  r_downloads : Z;
  r_likes : Z
}.

Definition coalesce (x : option Z) (d : Z) : Z :=
  match x with Some z => z | None => d end.

(** [hf.model_cards mc LEFT JOIN hf.models m ON mc.model_id = m.model_id] *)
Definition left_join (models : list model_row) (mc : model_card) : list card_row :=
  match filter (fun m => String.eqb (mc_model_id mc) (m_model_id m)) models with
  | [] => [mk_card_row (mc_card_hash mc) (mc_model_id mc) 0 0]
  | ms =>
      map (fun m => mk_card_row (mc_card_hash mc) (mc_model_id mc)
                      (coalesce (m_downloads m) 0) (coalesce (m_likes m) 0)) ms
  end.

(** [ORDER BY card_hash, downloads DESC, likes DESC, model_id ASC]; text
    is ordered by code point. *)
Definition order_key (r : card_row) : string * (Z * (Z * string)) :=
  (r_card_hash r, (- r_downloads r, (- r_likes r, r_model_id r))).

(** The non-excluded cards with their popularity, in no particular order. *)
Definition records (db : database) : list card_row :=
  flat_map (left_join (models db))
    (filter (fun mc => negb (excluded_from_rag mc)) (model_cards db)).

Definition select_cards (db : database) : list card_row :=
  sorted order_key (records db).

(** [hash_groups[card['card_hash']].append(card)] *)
Fixpoint group_append (groups : dict (list card_row)) (card : card_row)
  : dict (list card_row) :=
  match groups with
  | [] => [(r_card_hash card, [card])]
  | (h, g) :: rest =>
      if String.eqb (r_card_hash card) h then (h, g ++ [card]) :: rest
      else (h, g) :: group_append rest card
  end.

Definition hash_groups (cards : list card_row) : dict (list card_row) :=
  fold_left group_append cards [].

(** The rows for [hf.card_canon] and [hf.model_to_card]. *)
Definition canon_data (groups : dict (list card_row))
  : list (string * (string * Z)) :=
  flat_map (fun hg =>
              match snd hg with
              | canonical :: _ =>
                  [(fst hg, (r_model_id canonical, len (snd hg)))]
              | [] => []
              end) groups.

Definition model_to_card_data (groups : dict (list card_row))
  : list (string * string) :=
  flat_map (fun hg => map (fun card => (r_model_id card, fst hg)) (snd hg))
    groups.

(** [INSERT ... ON CONFLICT (key) DO UPDATE], row after row. *)
Definition upsert_all {V} (table : dict V) (rows : list (string * V)) : dict V :=
  fold_left (fun t kv => dict_set t (fst kv) (snd kv)) rows table.

Definition build_canonical_mapping (self : RAGIndexBuilder) : RAGIndexBuilder :=
  let db := conn self in
  let cards := select_cards db in
  let groups := hash_groups cards in
  let canon := canon_data groups in
  let mapping := model_to_card_data groups in
  let db :=
    mk_database (model_cards db) (models db)
      (upsert_all (card_canon db) canon)
      (upsert_all (model_to_card db) mapping) in
  let self := set_conn self db in
  let self := set_stat self "unique_card_hashes" (len groups) in
  let self := set_stat self "total_model_mappings" (len mapping) in
  set_stat self "total_duplicates" (len mapping - len groups).

(** The records that share a content hash, and the order in which the
    canonical one comes first. *)
Definition group_of (rows : list card_row) (h : string) : list card_row :=
  filter (fun r => String.eqb (r_card_hash r) h) rows.

Definition row_precedes (a b : card_row) : Prop :=
  r_downloads a > r_downloads b \/
  (r_downloads a = r_downloads b /\
   (r_likes a > r_likes b \/
    (r_likes a = r_likes b /\
     String.leb (r_model_id a) (r_model_id b) = true))).

(** Three models with the same card: A has fewer likes than B and C. *)
Definition example_db : database :=
  mk_database
    [mk_model_card "A" "card" "h" 60 false None;
     mk_model_card "C" "card" "h" 60 false None;
     mk_model_card "B" "card" "h" 60 false None]
    [mk_model_row "A" (Some 100) (Some 5);
     mk_model_row "B" (Some 100) (Some 10);
     mk_model_row "C" (Some 100) (Some 10)]
    [] [].

(** *** Step C: chunking *)

Definition NL : string := String LF EmptyString.

(** [#] counted at the start of a line, and the rest of the line. *)
Fixpoint count_hashes (s : string) : nat * string :=
  match s with
  | EmptyString => (O, EmptyString)
  | String c s' =>
      if Ascii.eqb c "#"
      then let '(k, r) := count_hashes s' in (S k, r)
      else (O, s)
  end.

(** The leading whitespace of a string, and the rest. *)
Fixpoint span_space (s : string) : string * string :=
  match s with
  | EmptyString => (EmptyString, EmptyString)
  | String c s' =>
      if isspace c
      then let '(w, r) := span_space s' in (String c w, r)
      else (EmptyString, s)
  end.

Fixpoint last_char (s : string) : string :=
  match s with
  | EmptyString => EmptyString
  | String c EmptyString => s
  | String _ s' => last_char s'
  end.

(** [re.match(r'^(#{1,4})\s+(.+)$', line)] on a line without line feed:
    the text of group 2, if the line matches.  When only whitespace follows
    the marks, the last whitespace character is left to group 2. *)
Definition heading_match (line : string) : option string :=
  let '(k, rest) := count_hashes line in
  if ((1 <=? k) && (k <=? 4))%nat then
    let '(ws, rest2) := span_space rest in
    match ws, rest2 with
    | EmptyString, _ => None
    | _, String _ _ => Some rest2
    | String _ (String _ _), EmptyString => Some (last_char ws)
    | String _ EmptyString, EmptyString => None
    end
  else None.

(** [re.match(r'^#{2,3}\s+', line)] *)
Definition h2_h3_match (line : string) : bool :=
  let '(k, rest) := count_hashes line in
  ((k =? 2) || (k =? 3))%nat
  && match rest with
     | String c _ => isspace c
     | EmptyString => false
     end.

Definition keywords : list string :=
  ["description"; "overview"; "intended use"; "how to use";
   "usage"; "limitations"; "license"].

Record section := mk_section {
  heading : option string;
  content : string;
  is_key : bool
}.

(** [any(kw in (current_heading or '').lower() for kw in keywords)] *)
Definition has_keyword (current_heading : option string) : bool :=
  let h := lower (match current_heading with Some s => s | None => EmptyString end) in
  existsb (fun kw => contains kw h) keywords.

Definition is_empty {A} (l : list A) : bool :=
  match l with [] => true | _ => false end.

Definition str_empty (s : string) : bool :=
  match s with EmptyString => true | _ => false end.

(** The loop over the lines of [extract_key_sections]. *)
Fixpoint split_sections (lines : list string) (sections : list section)
    (current_section : list string) (current_heading : option string)
  : list section * list string * option string :=
  match lines with
  | [] => (sections, current_section, current_heading)
  | line :: rest =>
      match heading_match line with
      | Some h =>
          let sections :=
            if is_empty current_section then sections
            else sections ++ [mk_section current_heading
                                (join NL current_section)
                                (has_keyword current_heading)] in
          split_sections rest sections [line] (Some h)
      | None =>
          split_sections rest sections (current_section ++ [line])
            current_heading
      end
  end.

Definition all_sections (text : string) : list section :=
  let '(sections, current_section, current_heading) :=
    split_sections (split_on LF text) [] [] None in
  if is_empty current_section then sections
  else sections ++ [mk_section current_heading (join NL current_section)
                      (match current_heading with
                       | Some (String _ _) => has_keyword current_heading
                       | _ => false
                       end)].

(** [text[:n]] *)
Definition str_slice_to (text : string) (n : Z) : string :=
  String.substring 0 (Z.to_nat n) text.

Section Chunking.

(** The tokenizer ([None]: [encode] raises) and SHA-256 in hexadecimal. *)
Variable encode : string -> option (list Z).
Variable decode : list Z -> string.
Variable sha256_hexdigest : string -> string.

Variable self : RAGIndexBuilder.

Definition count_tokens (text : string) : Z :=
  match encode text with
  | Some tokens => len tokens
  | None => len (split_ws text)
  end.

Definition compute_hash (text : string) : string := sha256_hexdigest text.

(** [normalize_text]: the loop that keeps at most two blank lines in a row. *)
Fixpoint collapse_blank (lines : list string) (blank_count : Z) : list string :=
  match lines with
  | [] => []
  | line :: rest =>
      if str_empty line
      then if blank_count + 1 <=? 2
           then line :: collapse_blank rest (blank_count + 1)
           else collapse_blank rest (blank_count + 1)
      else line :: collapse_blank rest 0
  end.

Definition normalize_text (text : string) : string :=
  let text := replace_char CR LF (replace_crlf text) in
  let lines := map rstrip (split_on LF text) in
  join NL (collapse_blank lines 0).

(** One greedy pass of [extract_key_sections]: sections are added whole
    while they fit; the first one that does not fit ends the pass. *)
Fixpoint add_sections (sections : list section) (max_tokens : Z)
    (extracted : list string) (total_tokens : Z) : list string * Z :=
  match sections with
  | [] => (extracted, total_tokens)
  | section :: rest =>
      let section_content := content section in
      let section_tokens := count_tokens section_content in
      if total_tokens + section_tokens <=? max_tokens
      then add_sections rest max_tokens (extracted ++ [section_content])
             (total_tokens + section_tokens)
      else (extracted, total_tokens)
  end.

(** The pass as the specification words it: a section that does not fit
    is skipped and the pass goes on with the next one. *)
Fixpoint add_sections_skipping (sections : list section) (max_tokens : Z)
    (extracted : list string) (total_tokens : Z) : list string * Z :=
  match sections with
  | [] => (extracted, total_tokens)
  | section :: rest =>
      let section_content := content section in
      let section_tokens := count_tokens section_content in
      if total_tokens + section_tokens <=? max_tokens
      then add_sections_skipping rest max_tokens
             (extracted ++ [section_content]) (total_tokens + section_tokens)
      else add_sections_skipping rest max_tokens extracted total_tokens
  end.

(** The tokens of a list of sections. *)
Fixpoint tokens_of (sections : list section) : Z :=
  match sections with
  | [] => 0
  | section :: rest => count_tokens (content section) + tokens_of rest
  end.

(** Truncation to [max_tokens] tokens; when the tokenizer raises, the
    first 50000 characters. *)
Definition truncate (text : string) (max_tokens : Z) : string :=
  match encode text with
  | Some tokens =>
      decode (if len tokens >? max_tokens then slice_to tokens max_tokens
              else tokens)
  | None => str_slice_to text 50000
  end.

(** The sections the greedy passes keep, key sections first. *)
Definition extracted_sections (text : string) (max_tokens : Z) : list string :=
  let sections := all_sections text in
  let key_sections := filter is_key sections in
  let other_sections := filter (fun s => negb (is_key s)) sections in
  let '(extracted, total_tokens) := add_sections key_sections max_tokens [] 0 in
  fst (add_sections other_sections max_tokens extracted total_tokens).

Definition extracted_sections_skipping (text : string) (max_tokens : Z)
  : list string :=
  let sections := all_sections text in
  let key_sections := filter is_key sections in
  let other_sections := filter (fun s => negb (is_key s)) sections in
  let '(extracted, total_tokens) :=
    add_sections_skipping key_sections max_tokens [] 0 in
  fst (add_sections_skipping other_sections max_tokens extracted total_tokens).

Definition extract_key_sections (text : string) (max_tokens : Z) : string :=
  if str_empty text then EmptyString
  else
    let result := join (NL ++ NL)%string (extracted_sections text max_tokens) in
    if str_empty result || str_empty (strip result)
    then truncate text max_tokens
    else result.

(** The loop of [_sliding_window_split]; [fuel] bounds its iterations. *)
Fixpoint sliding_loop (fuel : nat) (tokens : list Z) (target overlap : Z)
    (start : Z) (chunks : list string) : outcome (list string) :=
  match fuel with
  | O => OutOfFuel
  | S fuel' =>
      if start <? len tokens then
        let end_ := Z.min (start + target) (len tokens) in
        let chunk_tokens := slice tokens start end_ in
        let chunk_text := decode chunk_tokens in
        let chunks := chunks ++ [chunk_text] in
        if end_ >=? len tokens then Ok chunks
        else sliding_loop fuel' tokens target overlap (end_ - overlap) chunks
      else Ok chunks
  end.

(** The text of the window [w] of [tokens]. *)
Definition window_text (tokens : list Z) (w : Z * Z) : string :=
  decode (slice tokens (fst w) (snd w)).

Definition _sliding_window_split (fuel : nat) (text : string)
  : outcome (list string) :=
  match encode text with
  | None => Raise (Exception "encode")
  | Some tokens =>
      sliding_loop fuel tokens (chunk_target (config self))
        (chunk_overlap (config self)) 0 []
  end.

Record chunk := mk_chunk {
  c_chunk_hash : string;
  c_card_hash : string;
  c_chunk_index : Z;
  c_chunk_text : string;
  c_token_count : Z
}.

(** The lines of the text grouped at level-2 and level-3 headings. *)
Fixpoint heading_sections (lines : list string) (sections : list string)
    (current_section : list string) : list string * list string :=
  match lines with
  | [] => (sections, current_section)
  | line :: rest =>
      if h2_h3_match line then
        let sections :=
          if is_empty current_section then sections
          else sections ++ [join NL current_section] in
        heading_sections rest sections [line]
      else heading_sections rest sections (current_section ++ [line])
  end.

Definition heading_split (normalized_text : string) : list string :=
  let '(sections, current_section) :=
    heading_sections (split_on LF normalized_text) [] [] in
  if is_empty current_section then sections
  else sections ++ [join NL current_section].

(** The chunks of the sub-chunks of one section. *)
Fixpoint add_sub_chunks (card_hash : string) (sub_chunks : list string)
    (chunk_index : Z) (chunks : list chunk) : list chunk * Z :=
  match sub_chunks with
  | [] => (chunks, chunk_index)
  | sub_chunk :: rest =>
      let sub_tokens := count_tokens sub_chunk in
      add_sub_chunks card_hash rest (chunk_index + 1)
        (chunks ++ [mk_chunk (compute_hash sub_chunk) card_hash chunk_index
                      sub_chunk sub_tokens])
  end.

(** The loop of [chunk_text] over the sections. *)
Fixpoint process_sections (fuel : nat) (card_hash : string)
    (sections : list string) (chunk_index : Z) (chunks : list chunk)
  : outcome (list chunk) :=
  match sections with
  | [] => Ok chunks
  | section :: rest =>
      let section_tokens := count_tokens section in
      if section_tokens <=? chunk_target (config self) then
        process_sections fuel card_hash rest (chunk_index + 1)
          (chunks ++ [mk_chunk (compute_hash section) card_hash chunk_index
                        section section_tokens])
      else
        sub_chunks <- _sliding_window_split fuel section ;;
        let '(chunks, chunk_index) :=
          add_sub_chunks card_hash sub_chunks chunk_index chunks in
        process_sections fuel card_hash rest chunk_index chunks
  end.

(** The text and token count after the large-card step. *)
Definition reduce_large (normalized_text : string) (token_count : Z)
  : outcome (string * Z) :=
  if (10000 <=? token_count) && (token_count <=? 100000) then
    let extracted_text := extract_key_sections normalized_text 12000 in
    if str_empty extracted_text || str_empty (strip extracted_text) then
      match encode normalized_text with
      | Some tokens =>
          let normalized_text := decode (slice_to tokens 12000) in
          Ok (normalized_text, count_tokens normalized_text)
      | None => Raise (Exception "encode")
      end
    else Ok (extracted_text, count_tokens extracted_text)
  else Ok (normalized_text, token_count).

Definition chunk_text (fuel : nat) (text card_hash : string) (token_count : Z)
  : outcome (list chunk) :=
  let normalized_text := normalize_text text in
  r <- reduce_large normalized_text token_count ;;
  let '(normalized_text, token_count) := r in
  if token_count <=? chunk_target (config self) then
    Ok [mk_chunk (compute_hash normalized_text) card_hash 0 normalized_text
          token_count]
  else
    let sections := heading_split normalized_text in
    sections <-
      (if len sections <=? 1 then _sliding_window_split fuel normalized_text
       else Ok sections) ;;
    process_sections fuel card_hash sections 0 [].

(** Chunk [i] has index [i], the hash of its own text and the card hash. *)
Definition well_formed_chunks (card_hash : string) (chunks : list chunk) : Prop :=
  forall i c, nth_error chunks i = Some c ->
    c_chunk_index c = Z.of_nat i /\
    c_chunk_hash c = compute_hash (c_chunk_text c) /\
    c_card_hash c = card_hash.

End Chunking.

(** The token ranges [(start, end)] of the windows the loop of
    [_sliding_window_split] takes on [n] tokens. *)
Fixpoint window_loop (fuel : nat) (n target overlap start : Z)
  : outcome (list (Z * Z)) :=
  match fuel with
  | O => OutOfFuel
  | S fuel' =>
      if start <? n then
        let end_ := Z.min (start + target) n in
        if end_ >=? n then Ok [(start, end_)]
        else
          ws <- window_loop fuel' n target overlap (end_ - overlap) ;;
          Ok ((start, end_) :: ws)
      else Ok []
  end.

(** Every token index lies in some window. *)
Definition covers (windows : list (Z * Z)) (n : Z) : Prop :=
  forall j, 0 <= j < n -> exists w, In w windows /\ fst w <= j < snd w.

(** A tokenizer with one token per character, and a digest that keeps the
    text, to run the builder on examples. *)
Definition byte_encode (s : string) : option (list Z) :=
  Some (map (fun c => Z.of_N (N_of_ascii c)) (list_ascii_of_string s)).

Definition byte_decode (tokens : list Z) : string :=
  string_of_list_ascii (map (fun t => ascii_of_N (Z.to_N t)) tokens).

Definition plain_digest (s : string) : string := s.

(** A builder that has already counted exclusions and recorded a failure,
    and names another embedding model. *)
Definition used_builder (target overlap : Z) : RAGIndexBuilder :=
  mk_builder (mk_config "text-embedding-3-large" "hf_chunker_v2" target overlap
                10 50)
    (mk_database [card_no_model_card] [] [] [])
    [("total_excluded", 7)]
    [mk_failure "h-b" "org/b" "timeout" "embedding"].

Definition builder_with (target overlap : Z) : RAGIndexBuilder :=
  mk_builder (mk_config "text-embedding-3-small" "hf_chunker_v1" target overlap
                0 100)
    (mk_database [] [] [] []) [] [].

Fixpoint repeat_string (s : string) (n : nat) : string :=
  match n with
  | O => EmptyString
  | S n' => (s ++ repeat_string s n')%string
  end.

(** A card of about 24000 characters: a long usage section, then a short
    license section and a short section of notes. *)
Definition usage_section : string :=
  ("# Usage" ++ NL ++ repeat_string "a " (Z.to_nat 12001))%string.
Definition license_section : string := ("# License" ++ NL ++ "MIT")%string.
Definition notes_section : string := ("# Notes" ++ NL ++ "foo")%string.
Definition long_card : string :=
  (usage_section ++ NL ++ license_section ++ NL ++ notes_section)%string.

End IndexBuilder.

(** ** backend/app/tools/compute_tool.py and k8s_tool.py *)

Module Tools.
Import Py Ranking.

(** A query parameter, and a value of a response dictionary. *)
Inductive sql_param := PInt (z : Z) | PFloat (x : float) | PStr (s : string).

Inductive jvalue :=
| JNone
| JBool (b : bool)
| JInt (z : Z)
| JFloat (x : float)
| JStr (s : string)
| JDict (d : list (string * jvalue)).

Record tool_response (A : Type) := mk_tool_response {
  t_results : list (ranked A);
  t_metadata : dict jvalue
}.
Arguments mk_tool_response {A}.
Arguments t_results {A}.
Arguments t_metadata {A}.



(** The double quote. *)
Definition DQ : string := String (ascii_of_nat 34) EmptyString.

(** [if x is not None: where_clauses.append(clause); params.append(p x)] *)
Definition add_filter {A} (x : option A) (clause : string) (p : A -> sql_param)
    (acc : list string * list sql_param) : list string * list sql_param :=
  match x with
  | Some a => (fst acc ++ [clause], snd acc ++ [p a])
  | None => acc
  end.

(** The WHERE clauses and the parameters of [search_compute_instances]. *)
Definition compute_filters (gpu_needed : option bool) (min_vram_gb : option Z)
    (gpu_model : option string) (max_price_monthly : option float)
    (provider region : option string) (min_vcpu : option Z)
    (min_ram_gb : option float) : list string * list sql_param :=
  let acc : list string * list sql_param :=
    match gpu_needed with
    | Some true => (["gpu_count > 0"], [])
    | Some false => (["(gpu_count = 0 OR gpu_count IS NULL)"], [])
    | None => ([], [])
    end in
  let acc := add_filter min_vram_gb "gpu_memory_gb >= %s" PInt acc in
  let acc := add_filter gpu_model "LOWER(gpu_model) LIKE LOWER(%s)"
               (fun m => PStr ("%" ++ m ++ "%")%string) acc in
  let acc := add_filter max_price_monthly "price_monthly <= %s" PFloat acc in
  let acc := add_filter provider "LOWER(provider) = LOWER(%s)" PStr acc in
  let acc := add_filter region "regions @> %s::jsonb"
               (fun r => PStr ("[" ++ DQ ++ r ++ DQ ++ "]")%string) acc in
  let acc := add_filter min_vcpu "cpu_threads >= %s" PInt acc in
  let acc := add_filter min_ram_gb "memory_gb >= %s" PFloat acc in
  (fst acc ++ ["(available = true OR available IS NULL)"], snd acc).

(** [" AND ".join(where_clauses) if where_clauses else "1=1"] *)
Definition where_sql (where_clauses : list string) : string :=
  match where_clauses with
  | [] => "1=1"
  | _ => join " AND " where_clauses
  end.

(** The number of [%s] placeholders in a piece of SQL. *)
Fixpoint placeholders (sql : string) : Z :=
  match sql with
  | EmptyString => 0
  | String c rest =>
      match rest with
      | String c' rest' =>
          if Ascii.eqb c "%" && Ascii.eqb c' "s"
          then 1 + placeholders rest'
          else placeholders rest
      | EmptyString => 0
      end
  end.

(** Whether an optional argument is given. *)
Definition given {A} (x : option A) : bool :=
  match x with Some _ => true | None => false end.

Section SearchTools.

(** [settings.compute_top_k] and [settings.k8s_top_k]. *)
Variable compute_top_k : Z.
Variable k8s_top_k : Z.

(** The database running the instance query with its WHERE clause and
    parameters, and the package query with its four parameters. *)
Variable run_instance_query :
  string -> option (list sql_param) -> outcome (list instance).
Variable run_package_query : list sql_param -> outcome (list package).


Definition search_k8s_packages (query : string) (top_k : option Z)
  : outcome (tool_response package) :=
  let top_k := or_Z top_k k8s_top_k in
  let query_like := ("%" ++ query ++ "%")%string in
  let params := [PStr query; PStr query_like; PStr query_like; PStr query] in
  results <- run_package_query params ;;
  let ranked_results := rank_k8s_packages results query in
  Ok (mk_tool_response (slice_to ranked_results top_k)
        [("total_found", JInt (len ranked_results));
         ("top_k", JInt top_k);
         ("query", JStr query)]).

End SearchTools.


Definition package_query : list sql_param -> outcome (list package) :=
  fun _ => Ok [mlflow_operator_pkg; mlflow_pkg].

(** An optional argument with its value, if given, replaced by [d]. *)
Definition blank {A} (d : A) (x : option A) : option A :=
  match x with Some _ => Some d | None => None end.

(** The length of [l[:k]] for a list of [n] elements: a negative [k] counts
    from the end. *)
Definition cap (k n : Z) : Z :=
  if k <? 0 then Z.max 0 (n + k) else Z.min k n.

End Tools.

(** ** scripts/build_hf_rag_index.py: the chunking and embedding steps *)

Module Pipeline.
Import Py IndexBuilder.

(** A row of [hf.card_chunks]: the columns the builder writes and reads. *)
Record chunk_row := mk_chunk_row {
  k_id : Z;
  k_chunk_hash : string;
  k_card_hash : string;
  k_chunk_index : Z;
  k_chunk_text : string;
  k_token_count : Z;
  k_embedding_model_name : string;
  k_chunker_version : string;
  k_embedding : option (list float)
}.

(** An entry of [self.failures]: of the chunking step (card hash, model id,
    error) or of the embedding step (chunk id, error). *)
Inductive failure_entry :=
| ChunkingFailure (card_hash model_id error : string)
| EmbeddingFailure (chunk_id : Z) (error : string).

(** The builder with the chunk table and the number of calls made to the
    embedding service so far. *)
Record state := mk_state {
  s_config : Config;
  s_db : database;
  s_chunks : list chunk_row;
  s_stats : dict Z;
  s_failures : list failure_entry;
  s_calls : nat
}.

Definition set_stats (st : state) (stats : dict Z) : state :=
  mk_state (s_config st) (s_db st) (s_chunks st) stats (s_failures st)
    (s_calls st).

(** Steps A and B read and write the card tables and the counters only. *)
Definition to_builder (st : state) : RAGIndexBuilder :=
  mk_builder (s_config st) (s_db st) (s_stats st) [].

Definition from_builder (st : state) (b : RAGIndexBuilder) : state :=
  mk_state (s_config st) (conn b) (s_chunks st) (stats b) (s_failures st)
    (s_calls st).

Definition step_exclusion (st : state) : state :=
  from_builder st (apply_exclusion_rules (to_builder st)).

Definition step_canonical (st : state) : state :=
  from_builder st (build_canonical_mapping (to_builder st)).

(** [str(e)] *)
Definition str_exn (e : exn) : string :=
  match e with ValueError msg => msg | Exception msg => msg end.

(** A row of the query of step C. *)
Record canonical_card := mk_canonical_card {
  cc_card_hash : string;
  cc_canonical_model_id : string;
  cc_card_text : string;
  cc_token_count : Z
}.

(** [hf.card_canon cc JOIN hf.model_cards mc ON cc.canonical_model_id =
    mc.model_id] for one entry of [hf.card_canon]. *)
Definition join_canon (cards : list model_card) (entry : string * (string * Z))
  : list canonical_card :=
  map (fun mc => mk_canonical_card (fst entry) (fst (snd entry)) (card_text mc)
                   (token_count mc))
    (filter (fun mc => String.eqb (fst (snd entry)) (mc_model_id mc)) cards).

(** [ORDER BY cc.card_hash], with [LIMIT max_canon_models] when that is
    above zero. *)
Definition canonical_cards (db : database) (max_canon_models : Z)
  : list canonical_card :=
  let rows :=
    sorted cc_card_hash (flat_map (join_canon (model_cards db)) (card_canon db)) in
  if max_canon_models >? 0 then firstn (Z.to_nat max_canon_models) rows
  else rows.

(** The conflict target of the insert. *)
Definition row_key (r : chunk_row) : string * (string * string) :=
  (k_chunker_version r, (k_embedding_model_name r, k_chunk_hash r)).

Definition key_eq (a b : string * (string * string)) : bool :=
  String.eqb (fst a) (fst b) && String.eqb (fst (snd a)) (fst (snd b))
  && String.eqb (snd (snd a)) (snd (snd b)).

Definition chunk_key (cfg : Config) (c : chunk) : string * (string * string) :=
  (chunker_version cfg, (embed_model cfg, c_chunk_hash c)).

(** [min(l) if l else 0], [max(l) if l else 0] and
    [sorted(l)[len(l)//2] if l else 0]. *)
Definition min_or_0 (l : list Z) : Z :=
  match l with [] => 0 | x :: rest => fold_left Z.min rest x end.

Definition max_or_0 (l : list Z) : Z :=
  match l with [] => 0 | x :: rest => fold_left Z.max rest x end.

Definition median_or_0 (l : list Z) : Z :=
  match l with
  | [] => 0
  | _ => nth (Z.to_nat (len l / 2)) (sorted (fun x => x) l) 0
  end.

(** What a call to the embedding service gives: the vector, a
    [RateLimitError], or any other exception, with its message. *)
Inductive api_result :=
| ApiOk (embedding : list float)
| ApiRateLimit (msg : string)
| ApiError (msg : string).

(** [range(0, stop, step)] for [stop >= 0] and [step <> 0]. *)
Definition range_from_zero (stop step : Z) : list Z :=
  if step >? 0
  then map (fun j => Z.of_nat j * step)
         (seq 0 (Z.to_nat ((stop + step - 1) / step)))
  else [].

Definition with_embedding (r : chunk_row) (e : list float) : chunk_row :=
  mk_chunk_row (k_id r) (k_chunk_hash r) (k_card_hash r) (k_chunk_index r)
    (k_chunk_text r) (k_token_count r) (k_embedding_model_name r)
    (k_chunker_version r) (Some e).

(** [UPDATE hf.card_chunks SET embedding = e WHERE id = id] *)
Definition set_embedding (id : Z) (e : list float) (rows : list chunk_row)
  : list chunk_row :=
  map (fun r => if k_id r =? id then with_embedding r e else r) rows.

(** [embedding IS NULL AND chunker_version = .. AND embedding_model_name
    = ..] *)
Definition is_pending (cfg : Config) (r : chunk_row) : bool :=
  match k_embedding r with None => true | Some _ => false end
  && String.eqb (k_chunker_version r) (chunker_version cfg)
  && String.eqb (k_embedding_model_name r) (embed_model cfg).

Definition chunks_to_embed (cfg : Config) (rows : list chunk_row)
  : list chunk_row :=
  sorted k_id (filter (is_pending cfg) rows).

Section Steps.

Variable encode : string -> option (list Z).
Variable decode : list Z -> string.
Variable sha256_hexdigest : string -> string.

(** The key the database gives to a row it inserts into [hf.card_chunks]. *)
Variable fresh_id : list chunk_row -> chunk -> Z.

(** The embedding service: what its call number [n] gives for a model and
    an input text. *)
Variable embeddings_create : nat -> string -> string -> api_result.

(** The loop of step C over the canonical cards. *)
Fixpoint chunk_cards (fuel : nat) (self : RAGIndexBuilder)
    (canonical_cards : list canonical_card) (all_chunks : list chunk)
    (chunk_stats : list Z) (failures : list failure_entry)
  : outcome (list chunk * list Z * list failure_entry) :=
  match canonical_cards with
  | [] => Ok (all_chunks, chunk_stats, failures)
  | card :: rest =>
      match chunk_text encode decode sha256_hexdigest self fuel
              (cc_card_text card) (cc_card_hash card) (cc_token_count card) with
      | Ok chunks =>
          chunk_cards fuel self rest (all_chunks ++ chunks)
            (chunk_stats ++ [len chunks]) failures
      | Raise e =>
          chunk_cards fuel self rest all_chunks chunk_stats
            (failures ++ [ChunkingFailure (cc_card_hash card)
                            (cc_canonical_model_id card) (str_exn e)])
      | OutOfFuel => OutOfFuel
      end
  end.

(** [INSERT ... ON CONFLICT (chunker_version, embedding_model_name,
    chunk_hash) DO NOTHING] for one chunk: the table and the running row
    count. *)
Definition insert_chunk (cfg : Config) (acc : list chunk_row * Z) (c : chunk)
  : list chunk_row * Z :=
  if existsb (fun r => key_eq (row_key r) (chunk_key cfg c)) (fst acc)
  then acc
  else (fst acc ++
        [mk_chunk_row (fresh_id (fst acc) c) (c_chunk_hash c) (c_card_hash c)
           (c_chunk_index c) (c_chunk_text c) (c_token_count c)
           (embed_model cfg) (chunker_version cfg) None],
        snd acc + 1).

Definition insert_chunks (cfg : Config) (rows : list chunk_row)
    (all_chunks : list chunk) : list chunk_row * Z :=
  fold_left (insert_chunk cfg) all_chunks (rows, 0).

Definition chunk_all_canonical_cards (fuel : nat) (st : state) : outcome state :=
  let cfg := s_config st in
  let canonical_cards := canonical_cards (s_db st) (max_canon_models cfg) in
  r <- chunk_cards fuel (to_builder st) canonical_cards [] [] (s_failures st) ;;
  let '(all_chunks, chunk_stats, failures) := r in
  let '(rows, inserted_count) := insert_chunks cfg (s_chunks st) all_chunks in
  let stats := dict_set (s_stats st) "total_chunks_generated" (len all_chunks) in
  let stats := dict_set stats "chunks_inserted" inserted_count in
  let stats := dict_set stats "chunks_per_card_min" (min_or_0 chunk_stats) in
  let stats := dict_set stats "chunks_per_card_max" (max_or_0 chunk_stats) in
  let stats :=
    dict_set stats "chunks_per_card_median" (median_or_0 chunk_stats) in
  Ok (mk_state cfg (s_db st) rows stats failures (s_calls st)).

(** [generate_embedding] under its retry policy: a call that hits the rate
    limit is made again, up to five calls in all; the last exception is
    raised again.  The result is the vector, or [str(e)] of the exception,
    with the number of calls made so far. *)
Fixpoint attempts (retries : nat) (model : string) (calls : nat) (text : string)
  : (list float + string) * nat :=
  match embeddings_create calls model text with
  | ApiOk embedding => (inl embedding, S calls)
  | ApiError msg => (inr msg, S calls)
  | ApiRateLimit msg =>
      match retries with
      | O => (inr msg, S calls)
      | S retries' => attempts retries' model (S calls) text
      end
  end.

Definition generate_embedding (cfg : Config) (calls : nat) (text : string)
  : (list float + string) * nat :=
  attempts 4 (embed_model cfg) calls text.

(** The body of the loop over a batch: table, calls, [embedded_count] and
    failures. *)
Definition embed_chunk (cfg : Config)
    (acc : list chunk_row * nat * Z * list failure_entry) (chunk : chunk_row)
  : list chunk_row * nat * Z * list failure_entry :=
  let '(rows, calls, embedded_count, failures) := acc in
  match generate_embedding cfg calls (k_chunk_text chunk) with
  | (inl embedding, calls) =>
      (set_embedding (k_id chunk) embedding rows, calls, embedded_count + 1,
       failures)
  | (inr error, calls) =>
      (rows, calls, embedded_count,
       failures ++ [EmbeddingFailure (k_id chunk) error])
  end.

Definition embed_chunks (st : state) : outcome state :=
  let cfg := s_config st in
  let chunks_to_embed := chunks_to_embed cfg (s_chunks st) in
  let total_chunks := len chunks_to_embed in
  if total_chunks =? 0 then
    Ok (set_stats st (dict_set (s_stats st) "chunks_embedded" 0))
  else
    let batch_size := batch_size cfg in
    if batch_size =? 0
    then Raise (ValueError "range() arg 3 must not be zero")
    else
      let '(rows, calls, embedded_count, failures) :=
        fold_left
          (fun acc i =>
             let batch := slice chunks_to_embed i (i + batch_size) in
             fold_left (embed_chunk cfg) batch acc)
          (range_from_zero total_chunks batch_size)
          (s_chunks st, s_calls st, 0, s_failures st) in
      Ok (mk_state cfg (s_db st) rows
            (dict_set (s_stats st) "chunks_embedded" embedded_count)
            failures calls).

(** The pending chunks embedded one by one in the order of their ids,
    without batches. *)
Definition embed_in_order (st : state) : state :=
  let cfg := s_config st in
  let '(rows, calls, embedded_count, failures) :=
    fold_left (embed_chunk cfg) (chunks_to_embed cfg (s_chunks st))
      (s_chunks st, s_calls st, 0, s_failures st) in
  mk_state cfg (s_db st) rows
    (dict_set (s_stats st) "chunks_embedded" embedded_count) failures calls.

(** The four steps of [run], in their order. *)
Definition run_steps (fuel : nat) (st : state) : outcome state :=
  let st := step_exclusion st in
  let st := step_canonical st in
  st <- chunk_all_canonical_cards fuel st ;;
  embed_chunks st.

End Steps.

(** The chunk ids of the embedding failures in a list of failures. *)
Definition failed_ids (failures : list failure_entry) : list Z :=
  flat_map (fun f => match f with
                     | EmbeddingFailure id _ => [id]
                     | ChunkingFailure _ _ _ => []
                     end) failures.

(** Two rows that differ at most in the embedding. *)
Definition same_chunk (r r' : chunk_row) : Prop :=
  k_id r' = k_id r /\ k_chunk_hash r' = k_chunk_hash r /\
  k_card_hash r' = k_card_hash r /\ k_chunk_index r' = k_chunk_index r /\
  k_chunk_text r' = k_chunk_text r /\ k_token_count r' = k_token_count r /\
  k_embedding_model_name r' = k_embedding_model_name r /\
  k_chunker_version r' = k_chunker_version r.

(** A service that is rate limited on its first two calls, and a table with
    two pending chunks and one that has its embedding. *)
Definition slow_service : nat -> string -> string -> api_result :=
  fun n _ _ =>
    match n with
    | O | S O => ApiRateLimit "rate limit"
    | S (S O) => ApiOk [1%float]
    | _ => ApiError "timeout"
    end.

Definition three_chunks : list chunk_row :=
  [mk_chunk_row 2 "c2" "h" 1 "two" 1 "text-embedding-3-small" "hf_chunker_v1"
     None;
   mk_chunk_row 1 "c1" "h" 0 "one" 1 "text-embedding-3-small" "hf_chunker_v1"
     None;
   mk_chunk_row 3 "c3" "g" 0 "three" 1 "text-embedding-3-small"
     "hf_chunker_v1" (Some [2%float])].

(** Ids given in the order of insertion, and a state with two cards, one of
    them without content, before any step has run. *)
Definition next_row_id : list chunk_row -> chunk -> Z :=
  fun rows _ => len rows + 1.

Definition fresh_state : state :=
  mk_state default_config
    (mk_database
       [mk_model_card "org/a" "A small card." "h-a" 60 false None;
        card_no_model_card]
       [] [] [])
    [] [] [] O.

Definition state_with (batch_size : Z) (rows : list chunk_row) : state :=
  mk_state (mk_config "text-embedding-3-small" "hf_chunker_v1" 900 120 0
              batch_size)
    (mk_database [] [] [] []) rows [] [] O.

End Pipeline.

(** ** Predicates on texts and tables used to state properties *)

Module TextSpec.
Import Py IndexBuilder.

(** [c in s] for one character. *)
Fixpoint has_char (c : ascii) (s : string) : bool :=
  match s with
  | EmptyString => false
  | String d s' => Ascii.eqb d c || has_char c s'
  end.

(** The lines of a text: [text.split(LF)]. *)
Definition lines_of (s : string) : list string := split_on LF s.

(** The number of empty lines at the head of the list, and whether three
    empty lines stand in a row somewhere in it. *)
Fixpoint leading_blank (lines : list string) : nat :=
  match lines with
  | EmptyString :: rest => S (leading_blank rest)
  | _ => O
  end.

Fixpoint three_blank (lines : list string) : bool :=
  match lines with
  | [] => false
  | _ :: rest => (3 <=? leading_blank lines)%nat || three_blank rest
  end.

(** The reason under which the three rules, run in their order, exclude a
    card: none for a card that is already excluded or that no rule
    matches. *)
Definition exclusion_of (c : model_card) : option string :=
  if excluded_from_rag c then None
  else if String.eqb (card_text c) "No model card found." then Some "No content"
  else if token_count c <? 50 then Some "Too short (<50 tokens)"
  else if token_count c >? 100000
       then Some "Too long (>100k tokens, likely non-textual)"
  else None.

Definition after_rules (c : model_card) : model_card :=
  match exclusion_of c with
  | Some reason => exclude reason c
  | None => c
  end.

Definition has_reason (reason : string) (c : model_card) : bool :=
  match exclusion_of c with
  | Some r => String.eqb r reason
  | None => false
  end.

(** The value the last row with key [k] carries, if there is one. *)
Fixpoint last_value {V} (rows : list (string * V)) (k : string) : option V :=
  match rows with
  | [] => None
  | (k', v) :: rest =>
      match last_value rest k with
      | Some v' => Some v'
      | None => if String.eqb k k' then Some v else None
      end
  end.

(** The duplicate counts of the canonical entries, added up. *)
Definition sum_counts (canon : list (string * (string * Z))) : Z :=
  fold_right (fun e acc => snd (snd e) + acc) 0 canon.

End TextSpec.

(** * Properties *)

(** ** Ordering laws and the sort *)

Module PyFacts.
Import Py.

Lemma string_compare_refl (s : string) : String.compare s s = Eq.
Proof.
  induction s as [|c s IH]; simpl; [reflexivity|].
  unfold Ascii.compare. now rewrite N.compare_refl.
Qed.

Lemma string_compare_lt_trans (a b c : string) :
  String.compare a b = Lt -> String.compare b c = Lt -> String.compare a c = Lt.
Proof.
  revert b c. induction a as [|x a IH]; intros [|y b] [|z c]; simpl;
    try discriminate; try reflexivity.
  unfold Ascii.compare.
  destruct (N.compare_spec (N_of_ascii x) (N_of_ascii y)) as [E1|L1|G1];
    try discriminate;
    destruct (N.compare_spec (N_of_ascii y) (N_of_ascii z)) as [E2|L2|G2];
    try discriminate; intros H1 H2.
  - rewrite E1, E2, N.compare_refl. eauto.
  - rewrite E1. now apply N.compare_lt_iff in L2 as ->.
  - rewrite <- E2. now apply N.compare_lt_iff in L1 as ->.
  - assert (L : (N_of_ascii x < N_of_ascii z)%N)
      by (eapply N.lt_trans; eassumption).
    now apply N.compare_lt_iff in L as ->.
Qed.

#[export] Instance OrdLaws_Z : OrdLaws Z.
Proof.
  split; simpl; intros.
  - apply Z.compare_refl.
  - apply Z.compare_antisym.
  - rewrite Z.compare_lt_iff in *. eapply Z.lt_trans; eassumption.
  - apply Z.compare_eq_iff in H. now subst.
Qed.

#[export] Instance OrdLaws_Q : OrdLaws Q.
Proof.
  split; simpl; intros.
  - apply Qeq_alt. reflexivity.
  - symmetry. apply Qcompare_antisym.
  - rewrite <- Qlt_alt in *. eapply Qlt_trans; eassumption.
  - apply Qeq_alt in H. now rewrite H.
Qed.

#[export] Instance OrdLaws_string : OrdLaws string.
Proof.
  split; simpl; intros.
  - apply string_compare_refl.
  - apply String.compare_antisym.
  - eapply string_compare_lt_trans; eauto.
  - apply String.compare_eq_iff in H. now subst.
Qed.

Section OrdLawsFacts.
Context {A : Type} `{OrdLaws A}.

Lemma cmp_eq_sym (a b : A) : cmp a b = Eq -> cmp b a = Eq.
Proof. intros E. now rewrite cmp_antisym, E. Qed.

Lemma cmp_eq_compat_r (a b c : A) : cmp b c = Eq -> cmp a b = cmp a c.
Proof.
  intros E. rewrite (cmp_antisym b a), (cmp_antisym c a).
  now rewrite (cmp_eq_compat _ _ a E).
Qed.

Lemma cmp_gt_lt (a b : A) : cmp a b = Gt <-> cmp b a = Lt.
Proof.
  rewrite (cmp_antisym a b). destruct (cmp a b); simpl; split; congruence.
Qed.

Lemma cmp_le_trans (a b c : A) :
  cmp a b <> Gt -> cmp b c <> Gt -> cmp a c <> Gt.
Proof.
  intros H1 H2.
  destruct (cmp a b) eqn:E1; [| |congruence].
  - now rewrite (cmp_eq_compat _ _ c E1).
  - destruct (cmp b c) eqn:E2; [| |congruence].
    + rewrite <- (cmp_eq_compat_r a _ _ E2), E1. discriminate.
    + rewrite (cmp_lt_trans _ _ _ E1 E2). discriminate.
Qed.

Lemma cmp_total (a b : A) : cmp a b <> Gt \/ cmp b a <> Gt.
Proof.
  rewrite (cmp_antisym a b). destruct (cmp a b); simpl;
    (left; discriminate) || (right; discriminate).
Qed.

End OrdLawsFacts.

#[export] Instance OrdLaws_pair {A B} `{OrdLaws A} `{OrdLaws B} : OrdLaws (A * B).
Proof.
  split; simpl.
  - intros [a b]; simpl. now rewrite !cmp_refl.
  - intros [a b] [c d]; simpl.
    rewrite (cmp_antisym a c), (cmp_antisym b d).
    destruct (cmp a c); reflexivity.
  - intros [a b] [c d] [e f]; simpl.
    destruct (cmp a c) eqn:E1; try discriminate;
      destruct (cmp c e) eqn:E2; try discriminate; intros H3 H4.
    + rewrite (cmp_eq_compat _ _ e E1), E2. eapply cmp_lt_trans; eauto.
    + now rewrite (cmp_eq_compat _ _ e E1), E2.
    + now rewrite <- (cmp_eq_compat_r a _ _ E2), E1.
    + now rewrite (cmp_lt_trans _ _ _ E1 E2).
  - intros [a b] [c d] [e f]; simpl.
    destruct (cmp a c) eqn:E1; try discriminate. intros E2.
    rewrite (cmp_eq_compat _ _ e E1), (cmp_eq_compat _ _ f E2). reflexivity.
Qed.

(** *** Dictionaries *)

Lemma dict_get_set_eq {V} (d : dict V) (k : string) (v : V) :
  dict_get (dict_set d k v) k = Some v.
Proof.
  induction d as [|[k' v'] d IH]; cbn [dict_set dict_get].
  - now rewrite String.eqb_refl.
  - destruct (String.eqb k k') eqn:E; cbn [dict_get]; rewrite ?E;
      [now rewrite String.eqb_refl|exact IH].
Qed.

Lemma dict_get_set_ne {V} (d : dict V) (k k' : string) (v : V) :
  k' <> k -> dict_get (dict_set d k v) k' = dict_get d k'.
Proof.
  intros N. apply String.eqb_neq in N.
  induction d as [|[k0 v0] d IH]; cbn [dict_set dict_get].
  - now rewrite N.
  - destruct (String.eqb_spec k k0) as [->|N0]; cbn [dict_get].
    + now rewrite N.
    + now rewrite IH.
Qed.

(** *** [sorted] returns the stable sorted arrangement *)

Section SortedFacts.
Context {A K : Type} `{OrdLaws K} (key : A -> K).

Lemma insert_Permutation (x : A) (l : list A) :
  Permutation (insert key x l) (x :: l).
Proof.
  induction l as [|y l IH]; simpl; [reflexivity|].
  destruct (lt (key y) (key x)); [|reflexivity].
  rewrite IH. apply perm_swap.
Qed.

Lemma sorted_Permutation (l : list A) : Permutation (sorted key l) l.
Proof.
  induction l as [|x l IH]; simpl; [reflexivity|].
  rewrite insert_Permutation. now constructor.
Qed.

Lemma lt_false_le (a b : K) : lt a b = false -> cmp b a <> Gt.
Proof.
  unfold lt. intros E G. apply cmp_gt_lt in G. now rewrite G in E.
Qed.

Lemma lt_true_le (a b : K) : lt a b = true -> cmp a b <> Gt.
Proof. unfold lt. destruct (cmp a b); congruence. Qed.

Lemma insert_StronglySorted (x : A) (l : list A) :
  StronglySorted (key_le key) l -> StronglySorted (key_le key) (insert key x l).
Proof.
  induction 1 as [|y l S IH F]; simpl.
  - repeat constructor.
  - destruct (lt (key y) (key x)) eqn:E.
    + constructor; [exact IH|].
      rewrite (insert_Permutation x l). constructor; [|exact F].
      now apply lt_true_le.
    + apply lt_false_le in E.
      constructor; [now constructor|].
      constructor; [exact E|].
      eapply Forall_impl; [|exact F].
      intros z Hz. unfold key_le in *. eapply cmp_le_trans; eassumption.
Qed.

Lemma sorted_StronglySorted (l : list A) :
  StronglySorted (key_le key) (sorted key l).
Proof.
  induction l as [|x l IH]; simpl; [constructor|].
  now apply insert_StronglySorted.
Qed.

(** Stability: elements with equal keys keep their order. *)
Lemma insert_filter_eq (a x : A) (l : list A) :
  StronglySorted (key_le key) l ->
  filter (key_eqb key a) (insert key x l) = filter (key_eqb key a) (x :: l).
Proof.
  induction 1 as [|y l S IH F]; [reflexivity|].
  cbn [insert]. destruct (lt (key y) (key x)) eqn:E; [|reflexivity].
  cbn [filter] in *. rewrite IH.
  destruct (key_eqb key a x) eqn:Ex; [|reflexivity].
  destruct (key_eqb key a y) eqn:Ey; [|reflexivity].
  exfalso. unfold key_eqb, lt in *.
  destruct (cmp (key a) (key x)) eqn:C1; try discriminate.
  destruct (cmp (key a) (key y)) eqn:C2; try discriminate.
  rewrite <- (cmp_eq_compat _ _ (key x) C2), C1 in E. discriminate.
Qed.

Lemma sorted_stable (a : A) (l : list A) :
  filter (key_eqb key a) (sorted key l) = filter (key_eqb key a) l.
Proof.
  induction l as [|x l IH]; [reflexivity|].
  cbn [sorted fold_right]. fold (sorted key l).
  rewrite insert_filter_eq by apply sorted_StronglySorted.
  cbn [filter]. now rewrite IH.
Qed.

(** A sorted list is determined by the elements of each key class in their
    order: the stable sorted arrangement is unique, whatever the algorithm. *)
Lemma key_eqb_refl (a : A) : key_eqb key a a = true.
Proof. unfold key_eqb. now rewrite cmp_refl. Qed.

Lemma key_eqb_class (a x y : A) :
  cmp (key x) (key y) = Eq -> key_eqb key a x = key_eqb key a y.
Proof. intros E. unfold key_eqb. now rewrite (cmp_eq_compat_r _ _ _ E). Qed.

Lemma sorted_heads_eq (x y : A) (l1 l2 : list A) :
  StronglySorted (key_le key) (x :: l1) ->
  StronglySorted (key_le key) (y :: l2) ->
  (forall a, filter (key_eqb key a) (x :: l1) = filter (key_eqb key a) (y :: l2)) ->
  cmp (key x) (key y) = Eq.
Proof.
  intros S1 S2 F.
  assert (L : forall u v l l',
             StronglySorted (key_le key) (v :: l') ->
             filter (key_eqb key u) (u :: l) = filter (key_eqb key u) (v :: l') ->
             cmp (key v) (key u) <> Gt).
  { intros u v l l' S E. cbn [filter] in E. rewrite key_eqb_refl in E.
    assert (I : In u (filter (key_eqb key u) (v :: l'))).
    { cbn [filter]. rewrite <- E. now left. }
    apply filter_In in I as [[->|I] _].
    - rewrite cmp_refl. discriminate.
    - apply StronglySorted_inv in S as [_ Fa].
      rewrite Forall_forall in Fa. now apply Fa. }
  pose proof (L x y l1 l2 S2 (F x)) as A1.
  pose proof (L y x l2 l1 S1 (eq_sym (F y))) as A2.
  destruct (cmp (key x) (key y)) eqn:C; [reflexivity| |now destruct A2].
  rewrite (cmp_antisym (key x) (key y)), C in A1. now destruct A1.
Qed.

Lemma stable_sorted_unique (l1 l2 : list A) :
  StronglySorted (key_le key) l1 -> StronglySorted (key_le key) l2 ->
  (forall a, filter (key_eqb key a) l1 = filter (key_eqb key a) l2) ->
  l1 = l2.
Proof.
  revert l2. induction l1 as [|x l1 IH]; intros [|y l2] S1 S2 F.
  - reflexivity.
  - specialize (F y). cbn [filter] in F. rewrite key_eqb_refl in F.
    discriminate.
  - specialize (F x). cbn [filter] in F. rewrite key_eqb_refl in F.
    discriminate.
  - pose proof (sorted_heads_eq _ _ _ _ S1 S2 F) as E.
    assert (Exy : x = y).
    { pose proof (F x) as Fx. cbn [filter] in Fx.
      rewrite <- (key_eqb_class x x y E), key_eqb_refl in Fx.
      congruence. }
    subst y. f_equal. apply IH.
    + now apply StronglySorted_inv in S1.
    + now apply StronglySorted_inv in S2.
    + intros a. specialize (F a). cbn [filter] in F.
      destruct (key_eqb key a x); congruence.
Qed.

(** When equal keys mean equal elements, as in a query that orders by all
    the columns it selects, every sorted permutation is the same list. *)
Lemma filter_class_repeat (a : A) (l : list A) :
  (forall x y, cmp (key x) (key y) = Eq -> x = y) ->
  filter (key_eqb key a) l = repeat a (List.length (filter (key_eqb key a) l)).
Proof.
  intros Inj. induction l as [|x l IH]; cbn [filter]; [reflexivity|].
  destruct (key_eqb key a x) eqn:E; [|exact IH].
  cbn [List.length repeat]. rewrite <- IH. f_equal.
  symmetry. apply Inj. unfold key_eqb in E.
  destruct (cmp (key a) (key x)); congruence.
Qed.

Lemma sorted_permutation_unique (l l' : list A) :
  (forall x y, cmp (key x) (key y) = Eq -> x = y) ->
  Permutation l' l -> StronglySorted (key_le key) l' ->
  l' = sorted key l.
Proof.
  intros Inj P S.
  apply stable_sorted_unique; [exact S|apply sorted_StronglySorted|].
  intros a. rewrite sorted_stable.
  rewrite (filter_class_repeat a l' Inj), (filter_class_repeat a l Inj).
  f_equal. apply Permutation_length.
  clear S. induction P as [|x l1 l2 P IH|x y l1|l1 l2 l3 P1 IH1 P2 IH2];
    cbn [filter].
  - constructor.
  - destruct (key_eqb key a x); [now constructor|exact IH].
  - destruct (key_eqb key a x), (key_eqb key a y); try reflexivity.
    apply perm_swap.
  - etransitivity; eassumption.
Qed.

Lemma sorted_unique (l l' : list A) :
  StronglySorted (key_le key) l' ->
  (forall a, filter (key_eqb key a) l' = filter (key_eqb key a) l) ->
  l' = sorted key l.
Proof.
  intros S F. apply stable_sorted_unique; [exact S|apply sorted_StronglySorted|].
  intros a. now rewrite sorted_stable.
Qed.

End SortedFacts.

End PyFacts.

(** ** The ranking functions *)

Module RankingFacts.
Import Py PyFacts Ranking.

Lemma enumerate_from_nth {A} (l : list A) (start : Z) (i : nat) (p : Z * A) :
  nth_error (enumerate_from start l) i = Some p ->
  fst p = start + Z.of_nat i /\ nth_error l i = Some (snd p).
Proof.
  revert start i. induction l as [|x l IH]; intros start [|i]; simpl;
    try discriminate.
  - intros [= <-]. simpl. split; [lia|reflexivity].
  - intros E. apply IH in E as [-> E]. split; [lia|exact E].
Qed.

Lemma enumerate_from_snd {A} (l : list A) (start : Z) :
  map snd (enumerate_from start l) = l.
Proof.
  revert start. induction l as [|x l IH]; intros; simpl; [|rewrite IH];
    reflexivity.
Qed.

Lemma add_ranks_rows {A} (l : list A) : map row (add_ranks l) = l.
Proof.
  unfold add_ranks. rewrite map_map. simpl. apply enumerate_from_snd.
Qed.

Lemma add_ranks_dense {A} (l : list A) : dense_ranks (add_ranks l).
Proof.
  intros i r E. unfold add_ranks in E.
  rewrite nth_error_map in E.
  destruct (nth_error (enumerate_from 0 l) i) as [p|] eqn:Ep; [|discriminate].
  injection E as <-. apply enumerate_from_nth in Ep as [-> _]. simpl. lia.
Qed.

(** In a list sorted by [R] with dense ranks, an element that must not
    stand behind another one has the smaller rank. *)
Lemma sorted_rank_lt {A} (R : A -> A -> Prop) (l : list (ranked A))
    (ra rb : ranked A) :
  StronglySorted R (map row l) -> dense_ranks l ->
  In ra l -> In rb l -> ~ R (row rb) (row ra) -> row ra <> row rb ->
  rank ra < rank rb.
Proof.
  intros S D Ia Ib NR Ne.
  apply In_nth_error in Ia as [i Ei]. apply In_nth_error in Ib as [j Ej].
  rewrite (D _ _ Ei), (D _ _ Ej).
  destruct (Nat.lt_trichotomy i j) as [L|[E|G]]; [lia| |].
  - subst j. rewrite Ei in Ej. injection Ej as ->. now destruct Ne.
  - exfalso. apply NR. clear NR Ne D.
    revert i j Ei Ej G S. induction l as [|x l IH]; intros i j Ei Ej G S.
    + now destruct i.
    + simpl in S. apply StronglySorted_inv in S as [S F].
      destruct j as [|j]; destruct i as [|i]; try lia; cbn [nth_error] in *.
      * assert (x = rb) as -> by congruence.
        rewrite Forall_forall in F. apply F.
        apply in_map. eapply nth_error_In; eassumption.
      * eapply IH; try eassumption. lia.
Qed.

(** *** rank_compute_instances *)

Lemma or_Z_zero (x : option Z) :
  or_Z x 0 = match x with Some z => z | None => 0 end.
Proof.
  destruct x as [z|]; simpl; [|reflexivity].
  destruct (Z.eqb_spec z 0); congruence.
Qed.

Lemma cmp_Z_opp (a b : Z) :
  (cmp (- a) (- b) = Lt <-> a > b) /\ (cmp (- a) (- b) = Eq <-> a = b).
Proof.
  simpl. rewrite Z.compare_lt_iff, Z.compare_eq_iff. lia.
Qed.

Lemma compute_key_le_precedes (a b : instance) :
  key_le compute_sort_key a b <-> precedes_with effective_price a b.
Proof.
  unfold key_le, compute_sort_key, precedes_with.
  cbn [cmp Ord_pair Ord_Q Ord_Z Ord_string fst snd].
  change (or_Q (price_monthly a) (999999 # 1)) with (effective_price a).
  change (or_Q (price_monthly b) (999999 # 1)) with (effective_price b).
  rewrite !or_Z_zero.
  fold (vram_of a) (vram_of b) (gpus_of a) (gpus_of b).
  fold (provider_of a) (provider_of b) (name_of a) (name_of b).
  pose proof (cmp_Z_opp (vram_of a) (vram_of b)) as [V1 V2].
  pose proof (cmp_Z_opp (gpus_of a) (gpus_of b)) as [G1 G2].
  cbn [cmp Ord_Z] in V1, V2, G1, G2.
  unfold String.ltb, String.leb.
  destruct (Qcompare_spec (effective_price a) (effective_price b)) as [E|L|G].
  2: { split; [now left|intros _; discriminate]. }
  2: { split; [congruence|]. intros [L|[E _]].
       - exfalso. eapply Qlt_irrefl, Qlt_trans; eassumption.
       - rewrite E in G. now apply Qlt_irrefl in G. }
  destruct (- vram_of a ?= - vram_of b) eqn:CV.
  2: { split; [intros _; right; split; [exact E|left; now apply V1]|intros _; discriminate]. }
  2: { split; [congruence|]. intros [L|[_ [L|[E' _]]]].
       - rewrite E in L. now apply Qlt_irrefl in L.
       - apply V1 in L. discriminate.
       - apply V2 in E'. discriminate. }
  assert (EV : vram_of a = vram_of b) by now apply V2.
  destruct (- gpus_of a ?= - gpus_of b) eqn:CG.
  2: { split; [intros _; right; split; [exact E|]; right; split; [exact EV|];
               left; now apply G1|intros _; discriminate]. }
  2: { split; [congruence|]. intros [L|[_ [L|[_ [L|[E' _]]]]]].
       - rewrite E in L. now apply Qlt_irrefl in L.
       - lia.
       - apply G1 in L. discriminate.
       - apply G2 in E'. discriminate. }
  assert (EG : gpus_of a = gpus_of b) by now apply G2.
  destruct (String.compare (provider_of a) (provider_of b)) eqn:CP.
  2: { split; [intros _; right; split; [exact E|]; right; split; [exact EV|];
               right; split; [exact EG|]; now left|intros _; discriminate]. }
  2: { split; [congruence|]. intros [L|[_ [L|[_ [L|[_ [L|[E' _]]]]]]]].
       - rewrite E in L. now apply Qlt_irrefl in L.
       - lia.
       - lia.
       - discriminate.
       - rewrite E', string_compare_refl in CP. discriminate. }
  apply String.compare_eq_iff in CP.
  split.
  - intros N. right; split; [exact E|]; right; split; [exact EV|];
      right; split; [exact EG|]; right; split; [exact CP|].
    destruct (String.compare (name_of a) (name_of b)); congruence.
  - intros [L|[_ [L|[_ [L|[_ [L|[_ L]]]]]]]].
    + rewrite E in L. now apply Qlt_irrefl in L.
    + lia.
    + lia.
    + discriminate.
    + destruct (String.compare (name_of a) (name_of b)); congruence.
Qed.

Lemma StronglySorted_impl {A} (R S : A -> A -> Prop) (l : list A) :
  (forall a b, R a b -> S a b) -> StronglySorted R l -> StronglySorted S l.
Proof.
  intros I. induction 1; constructor; [assumption|].
  eapply Forall_impl; [|eassumption]. auto.
Qed.

(** C3, as stated, fails: with [price_monthly = 0] the instance is not
    sorted by its price but by the sentinel, so a free instance follows one
    priced 100. *)
Lemma rank_compute_zero_price_counterexample :
  map row (rank_compute_instances [free_instance; paid_instance])
    = [paid_instance; free_instance] /\
  ~ StronglySorted (precedes_with price_or_sentinel)
      (map row (rank_compute_instances [free_instance; paid_instance])).
Proof.
  split; [reflexivity|].
  change (map row (rank_compute_instances [free_instance; paid_instance]))
    with [paid_instance; free_instance].
  intros S. apply StronglySorted_inv in S as [_ F].
  apply Forall_inv in F. unfold precedes_with in F. cbn in F.
  destruct F as [L|[E _]]; [unfold Qlt in L|unfold Qeq in E]; cbn in *; lia.
Qed.

Lemma precedes_with_by_price (a b : instance) :
  precedes_with effective_price a b -> precedes_by_price a b.
Proof.
  unfold precedes_with, precedes_by_price, same_gpu_memory, vram_of.
  intros [L|[E R]]; [now left|]. right. split; [exact E|].
  intros [M _]. rewrite M in R.
  destruct R as [G|[_ R]]; [lia|exact R].
Qed.

(** C3 (amended): for every candidate list, [rank_compute_instances]
    returns the candidates sorted ascending by monthly price, where an
    absent, null or zero price counts as the sentinel 999999; candidates of
    equal price that do not differ in GPU memory come descending by GPU
    count, then ascending by provider name, then ascending by instance name;
    the list carries the ranks 1..n in order.  How candidates of equal price
    and different GPU memory stand is not stated. *)
Theorem rank_compute_instances_order (instances : list instance) :
  let out := rank_compute_instances instances in
  Permutation (map row out) instances /\
  StronglySorted precedes_by_price (map row out) /\
  dense_ranks out.
Proof.
  intros out.
  assert (R : map row out = sorted compute_sort_key instances)
    by apply add_ranks_rows.
  split; [rewrite R; apply sorted_Permutation|]. split.
  - rewrite R. eapply StronglySorted_impl; [|apply sorted_StronglySorted].
    intros a b H. apply precedes_with_by_price.
    now apply compute_key_le_precedes.
  - apply add_ranks_dense.
Qed.

(** On the rows the compute tool selects, the GPU memory comes under
    ['vram_gb'] and is not part of the sort key: two rows priced 100 with GPU
    memory 40 and 80 are ordered by their GPU count. *)
Remark selected_rows_rank_without_gpu_memory :
  map inst_id
    (map row
       (rank_compute_instances
          [selected_instance "b" "aws" "b" (Some 2) (Some 40) (Some (100 # 1));
           selected_instance "a" "aws" "a" (Some 1) (Some 80) (Some (100 # 1))]))
  = ["b"; "a"].
Proof. reflexivity. Qed.

(** *** rank_k8s_packages *)

Lemma prefix_is_prefix (p s : string) :
  String.prefix p s = true <-> is_prefix p s.
Proof.
  unfold is_prefix. revert p.
  induction s as [|d s IH]; intros [|c p]; simpl.
  - split; [intros _; now exists EmptyString|reflexivity].
  - split; [discriminate|intros [t E]; discriminate].
  - split; [intros _; now exists (String d s)|reflexivity].
  - destruct (Ascii.ascii_dec c d) as [->|N].
    + rewrite IH. split; intros [t E]; exists t; congruence.
    + split; [discriminate|intros [t E]; congruence].
Qed.

Lemma contains_is_substring (p s : string) :
  contains p s = true <-> is_substring p s.
Proof.
  unfold is_substring. induction s as [|c s IH].
  - cbn [contains]. rewrite orb_false_r, prefix_is_prefix.
    split.
    + intros [t E]. exists EmptyString, t. exact E.
    + intros [[|x a] [b E]]; [now exists b|discriminate].
  - cbn [contains]. rewrite orb_true_iff, prefix_is_prefix, IH.
    split.
    + intros [[t E]|[a [b E]]].
      * exists EmptyString, t. exact E.
      * exists (String c a), b. simpl. now rewrite E.
    + intros [[|x a] [b E]].
      * left. now exists b.
      * right. exists a, b. simpl in E. congruence.
Qed.

Lemma is_prefix_substring (p s : string) : is_prefix p s -> is_substring p s.
Proof. intros [t E]. now exists EmptyString, t. Qed.

Lemma string_app_empty_r (s : string) : (s ++ EmptyString)%string = s.
Proof. induction s; simpl; congruence. Qed.

Lemma is_prefix_refl (s : string) : is_prefix s s.
Proof. exists EmptyString. now rewrite string_app_empty_r. Qed.

Lemma match_score_spec (q : string) (pkg : package) :
  exists t, tier_of q pkg t /\ match_score q pkg = score_of_tier t.
Proof.
  unfold match_score, startswith.
  destruct (String.eqb_spec (name_lower pkg) q) as [E|N].
  { now exists Exact. }
  destruct (String.prefix q (name_lower pkg)) eqn:P.
  { exists StartsWith. simpl. now rewrite <- prefix_is_prefix. }
  destruct (contains q (name_lower pkg)) eqn:C.
  { exists InName. simpl. split; [|reflexivity].
    rewrite <- prefix_is_prefix, <- contains_is_substring. split; congruence. }
  destruct (contains q (desc_lower pkg)) eqn:D.
  { exists InDescription. simpl. split; [|reflexivity].
    rewrite <- !contains_is_substring. split; congruence. }
  exists NoMatch. simpl. split; [|reflexivity].
  rewrite <- !contains_is_substring. split; congruence.
Qed.

Lemma tier_of_unique (q : string) (pkg : package) (t t' : tier) :
  tier_of q pkg t -> tier_of q pkg t' -> t = t'.
Proof.
  assert (X : name_lower pkg = q -> is_prefix q (name_lower pkg))
    by (intros <-; apply is_prefix_refl).
  pose proof (is_prefix_substring q (name_lower pkg)) as Y.
  destruct t, t'; simpl; intros H1 H2; try reflexivity; exfalso; tauto.
Qed.

Lemma score_of_tier_pos (t t' : tier) :
  (score_of_tier t > score_of_tier t' <-> tier_pos t < tier_pos t') /\
  (score_of_tier t = score_of_tier t' <-> t = t').
Proof. destruct t, t'; simpl; split; split; (lia || congruence). Qed.

Lemma k8s_key_le_precedes (q : string) (a b : package) :
  key_le (k8s_sort_key q) a b -> pkg_precedes q a b.
Proof.
  unfold key_le, k8s_sort_key, pkg_precedes.
  cbn [cmp Ord_pair Ord_Z Ord_string fst snd].
  rewrite !or_Z_zero. fold (stars_of a) (stars_of b).
  destruct (match_score_spec q a) as [ta [Ta ->]].
  destruct (match_score_spec q b) as [tb [Tb ->]].
  exists ta, tb. split; [exact Ta|]. split; [exact Tb|].
  pose proof (score_of_tier_pos ta tb) as [S1 S2].
  pose proof (cmp_Z_opp (score_of_tier ta) (score_of_tier tb)) as [V1 V2].
  pose proof (cmp_Z_opp (stars_of a) (stars_of b)) as [G1 G2].
  cbn [cmp Ord_Z] in V1, V2, G1, G2. revert H.
  destruct (- score_of_tier ta ?= - score_of_tier tb) eqn:CS;
    [|intros _; left; apply S1, V1; reflexivity|congruence].
  assert (ET : ta = tb) by (apply S2, V2; reflexivity).
  destruct (- stars_of a ?= - stars_of b) eqn:CG;
    [|intros _; right; split; [exact ET|]; left; now apply G1|congruence].
  assert (EG : stars_of a = stars_of b) by now apply G2.
  intros H. right; split; [exact ET|]. right; split; [exact EG|].
  unfold String.leb.
  destruct (truthy (official a)), (truthy (official b)); cbn in H.
  - right. split; [reflexivity|].
    destruct (String.compare (name_lower a) (name_lower b)); congruence.
  - now left.
  - congruence.
  - right. split; [reflexivity|].
    destruct (String.compare (name_lower a) (name_lower b)); congruence.
Qed.

Lemma tier_on_fields_decide (q : string) (pkg : package) :
  exists t, tier_on_fields q pkg t /\
            forall t', tier_on_fields q pkg t' -> t' = t.
Proof.
  destruct (match_score_spec q pkg) as [t [T _]]. exists t.
  split; [exact T|]. intros t' T'.
  exact (tier_of_unique q pkg t' t T' T).
Qed.

Lemma no_substring (p s : string) : contains p s = false -> ~ is_substring p s.
Proof. intros C I. apply contains_is_substring in I. congruence. Qed.

(** C4, as stated, fails in two places.  The query is stripped of
    surrounding whitespace before it is compared: for the query "mlflow "
    the package "mlflow" is an exact match and comes first, where comparing
    the query as given finds no match for it and a match in the description
    of the other package.  And the last key is the lower-cased name: "a"
    comes before "B", which ascending names do not allow. *)
Lemma rank_k8s_claimed_order_counterexample :
  map row (rank_k8s_packages [described_pkg; mlflow_pkg] "mlflow ")
    = [mlflow_pkg; described_pkg] /\
  ~ StronglySorted (ordered_by_tier (lower "mlflow ") raw_name)
      (map row (rank_k8s_packages [described_pkg; mlflow_pkg] "mlflow ")) /\
  map row (rank_k8s_packages [pkg_B; pkg_a] "zzz") = [pkg_a; pkg_B] /\
  ~ StronglySorted (ordered_by_tier (lower "zzz") raw_name)
      (map row (rank_k8s_packages [pkg_B; pkg_a] "zzz")).
Proof.
  split; [reflexivity|]. split; [|split; [reflexivity|]].
  - change (map row (rank_k8s_packages [described_pkg; mlflow_pkg] "mlflow "))
      with [mlflow_pkg; described_pkg].
    intros S. apply StronglySorted_inv in S as [_ F]. apply Forall_inv in F.
    destruct F as [ta [tb [Ta [Tb O]]]].
    assert (Na : tier_on_fields (lower "mlflow ") mlflow_pkg NoMatch)
      by (split; apply no_substring; reflexivity).
    assert (Nb : tier_on_fields (lower "mlflow ") described_pkg InDescription).
    { split; [apply no_substring; reflexivity|].
      apply contains_is_substring. reflexivity. }
    destruct (tier_on_fields_decide (lower "mlflow ") mlflow_pkg)
      as [t [_ U]].
    rewrite (U _ Ta), <- (U _ Na) in O.
    destruct (tier_on_fields_decide (lower "mlflow ") described_pkg)
      as [t' [_ U']].
    rewrite (U' _ Tb), <- (U' _ Nb) in O.
    cbn in O. destruct O as [L|[E _]]; [lia|discriminate].
  - change (map row (rank_k8s_packages [pkg_B; pkg_a] "zzz"))
      with [pkg_a; pkg_B].
    intros S. apply StronglySorted_inv in S as [_ F]. apply Forall_inv in F.
    destruct F as [ta [tb [Ta [Tb O]]]].
    assert (Na : tier_on_fields (lower "zzz") pkg_a NoMatch)
      by (split; apply no_substring; reflexivity).
    assert (Nb : tier_on_fields (lower "zzz") pkg_B NoMatch)
      by (split; apply no_substring; reflexivity).
    destruct (tier_on_fields_decide (lower "zzz") pkg_a) as [t [_ U]].
    rewrite (U _ Ta), <- (U _ Na) in O.
    destruct (tier_on_fields_decide (lower "zzz") pkg_B) as [t' [_ U']].
    rewrite (U' _ Tb), <- (U' _ Nb) in O.
    cbn in O.
    destruct O as [L|[_ [G|[_ [[X _]|[_ N]]]]]];
      [lia|lia|discriminate|discriminate].
Qed.

(** C4 (amended): for every candidate list and query, [rank_k8s_packages]
    gives each candidate exactly one of the five match tiers (exact name
    match, name starts with the query, query inside the name, query inside
    the description, no match), comparing the lower-cased name and
    description with the query lower-cased and stripped of surrounding
    whitespace, and returns the candidates sorted by tier (best first), then
    stars descending, then official first, then lower-cased name ascending,
    with ranks 1..n in list order; for the query "mlflow", the package
    "mlflow" with 10 stars has a smaller rank than "mlflow-operator" with
    500 stars; and for the query " MLflow " a package named "MLFLOW" is an
    exact match. *)
Theorem rank_k8s_packages_order (packages : list package) (query : string) :
  let q := strip (lower query) in
  let out := rank_k8s_packages packages query in
  (forall pkg, exists t,
     tier_on_fields q pkg t /\ forall t', tier_on_fields q pkg t' -> t' = t) /\
  Permutation (map row out) packages /\
  StronglySorted (ordered_by_tier q lowered_name) (map row out) /\
  dense_ranks out /\
  (query = "mlflow" ->
   forall ra rb, In ra out -> In rb out ->
     pkg_name (row ra) = Some "mlflow" -> stars (row ra) = Some 10 ->
     pkg_name (row rb) = Some "mlflow-operator" -> stars (row rb) = Some 500 ->
     rank ra < rank rb) /\
  tier_on_fields (strip (lower " MLflow ")) shouting_pkg Exact.
Proof.
  intros q out.
  assert (R : map row out = sorted (k8s_sort_key q) packages)
    by apply add_ranks_rows.
  assert (D : dense_ranks out) by apply add_ranks_dense.
  split; [|split; [|split; [|split; [|split]]]].
  - intros pkg. apply tier_on_fields_decide.
  - rewrite R. apply sorted_Permutation.
  - rewrite R. eapply StronglySorted_impl; [|apply sorted_StronglySorted].
    intros a b H. exact (k8s_key_le_precedes q a b H).
  - exact D.
  - intros -> ra rb Ia Ib Na Sa Nb Sb.
    assert (S : StronglySorted (key_le (k8s_sort_key q)) (map row out))
      by (rewrite R; apply sorted_StronglySorted).
    apply (sorted_rank_lt _ out ra rb S D Ia Ib).
    + unfold key_le, k8s_sort_key, match_score, name_lower, startswith.
      rewrite Na, Nb. subst q. vm_compute. congruence.
    + intros E. rewrite E in Sa. congruence.
  - reflexivity.
Qed.

End RankingFacts.

(** ** The model search *)

Module HfToolFacts.
Import Py Ranking HfTool.

(** C9, as stated, fails: a requested [top_k] of 0 is not what the metadata
    reports; it reports the configured default, here 5. *)
Lemma search_hf_models_zero_top_k_counterexample :
  exists r,
    search_hf_models default_settings (fun _ => 0%float) (fun x _ => x)
      (fun _ => "1.0") unit_embedding empty_index_search no_models
      "vision model" None None (Some 0) = Ok r /\
    dict_get (metadata r) "top_k" = Some (VInt 5) /\
    dict_get (metadata r) "top_k" <> Some (VInt 0).
Proof.
  eexists. split; [reflexivity|]. split; [reflexivity|]. discriminate.
Qed.

(** C9 (amended): when the embedding call returns and the chunk similarity
    search returns no rows, [search_hf_models] returns normally: the results
    list is empty and the metadata holds [total_found = 0], the query, and
    as [top_k] the requested value when one other than 0 is requested and
    the configured default otherwise. *)
Theorem search_hf_models_no_chunks
    (settings : Settings) (math_log : Z -> float) (round : float -> Z -> float)
    (str_float : float -> string)
    (embeddings_create : string -> string -> outcome (list float))
    (run_chunk_search :
       string -> string -> string -> string -> Z -> outcome (list card_score))
    (run_model_query :
       list string -> list string -> list string -> outcome (list hf_model))
    (query : string) (pipeline_tag : option string)
    (license_filter : option (list string)) (top_k : option Z)
    (embedding : list float) :
  embeddings_create (openai_embed_model settings) query = Ok embedding ->
  run_chunk_search (vector_literal str_float embedding)
    (hf_embedding_model_name settings) (hf_chunker_version settings)
    (vector_literal str_float embedding) (hf_chunk_top_k settings) = Ok [] ->
  exists r,
    search_hf_models settings math_log round str_float embeddings_create
      run_chunk_search run_model_query query pipeline_tag license_filter top_k
      = Ok r /\
    results r = [] /\
    dict_get (metadata r) "total_found" = Some (VInt 0) /\
    dict_get (metadata r) "top_k"
      = Some (VInt (match top_k with
                    | Some k => if k =? 0 then hf_top_k settings else k
                    | None => hf_top_k settings
                    end)) /\
    dict_get (metadata r) "query" = Some (VStr query).
Proof.
  intros He Hs. unfold search_hf_models, get_query_embedding.
  rewrite He. cbn [bind]. rewrite Hs. cbn [bind].
  eexists. split; [reflexivity|]. cbn [results metadata].
  repeat split.
Qed.

Lemma search_hf_models_no_chunks_witness :
  exists r,
    search_hf_models default_settings (fun _ => 0%float) (fun x _ => x)
      (fun _ => "1.0") unit_embedding empty_index_search no_models
      "vision model" None None (Some 3) = Ok r /\
    results r = [] /\
    dict_get (metadata r) "total_found" = Some (VInt 0) /\
    dict_get (metadata r) "top_k" = Some (VInt 3) /\
    dict_get (metadata r) "query" = Some (VStr "vision model").
Proof.
  apply (search_hf_models_no_chunks default_settings (fun _ => 0%float)
           (fun x _ => x) (fun _ => "1.0") unit_embedding empty_index_search
           no_models "vision model" None None (Some 3) [1%float]);
    reflexivity.
Defined.

End HfToolFacts.

(** ** The index builder *)

Module IndexBuilderFacts.
Import Py PyFacts IndexBuilder.

(** *** Exclusion rules *)

Lemma update_excluded_Forall2 (cond : model_card -> bool) (reason : string)
    (cards : list model_card) :
  Forall2 (fun c c' =>
             c' = if cond c && negb (excluded_from_rag c)
                  then exclude reason c else c)
    cards (fst (update_excluded cond reason cards)).
Proof.
  unfold update_excluded; cbn [fst].
  induction cards as [|c cards IH]; cbn [map]; constructor; auto.
Qed.

(** C6, as stated, fails: a card whose text is "no content found" is left
    untouched by Rule 1, and the card Rule 1 does mark gets the reason
    "No content". *)
Lemma rule1_literal_counterexample :
  fst (rule1 [card_no_content_found; card_no_model_card])
    = [card_no_content_found; exclude "No content" card_no_model_card] /\
  ~ marks_exactly "no content found" "no content"
      [card_no_content_found; card_no_model_card]
      (fst (rule1 [card_no_content_found; card_no_model_card])).
Proof.
  split; [reflexivity|].
  intros M. inversion M as [|c c' l l' [H _] _]; subst.
  specialize (H (conj eq_refl eq_refl)). discriminate H.
Qed.

(** C6 (amended): Rule 1 marks exactly the not-yet-excluded cards whose
    text equals the literal "No model card found." as excluded with reason
    "No content", leaves every other card as it is, and counts the cards it
    marked; the later rules keep that mark. *)
Theorem rule1_marks_exactly (self : RAGIndexBuilder) :
  let cards := model_cards (conn self) in
  marks_exactly "No model card found." "No content" cards (fst (rule1 cards)) /\
  snd (rule1 cards)
    = len (filter (fun c => String.eqb (card_text c) "No model card found."
                            && negb (excluded_from_rag c)) cards) /\
  dict_get (stats (apply_exclusion_rules self)) "excluded_no_content"
    = Some (snd (rule1 cards)) /\
  Forall2 (fun c c' =>
             excluded_from_rag c = false ->
             card_text c = "No model card found." ->
             c' = exclude "No content" c)
    cards (model_cards (conn (apply_exclusion_rules self))).
Proof.
  intros cards. split; [|split; [reflexivity|split]].
  - unfold marks_exactly, rule1.
    eapply Forall2_impl; [|apply update_excluded_Forall2].
    intros c c' ->. split.
    + intros [-> ->]. reflexivity.
    + intros N. destruct (String.eqb_spec (card_text c) "No model card found.");
        [|reflexivity].
      destruct (excluded_from_rag c); [reflexivity|]. now destruct N.
  - unfold apply_exclusion_rules. fold cards.
    destruct (rule1 cards) as [c1 n1], (rule2 c1) as [c2 n2],
      (rule3 c2) as [c3 n3]. cbn [snd].
    unfold set_stat, set_conn; cbn [stats].
    rewrite !dict_get_set_ne by discriminate. apply dict_get_set_eq.
  - unfold apply_exclusion_rules. fold cards.
    unfold rule1, rule2, rule3, update_excluded, set_stat, set_conn,
      set_model_cards; cbn [conn model_cards].
    induction cards as [|c cards IH]; cbn [map]; constructor; [|exact IH].
    intros E T. rewrite E, T. cbn. rewrite !andb_false_r. reflexivity.
Qed.

(** *** Canonical mapping *)

Lemma group_append_get (groups : dict (list card_row)) (card : card_row)
    (h : string) :
  dict_get (group_append groups card) h
    = if String.eqb h (r_card_hash card)
      then Some (match dict_get groups h with
                 | Some g => g ++ [card]
                 | None => [card]
                 end)
      else dict_get groups h.
Proof.
  induction groups as [|[h' g] groups IH]; cbn [group_append dict_get].
  - reflexivity.
  - destruct (String.eqb_spec (r_card_hash card) h') as [E|N]; cbn [dict_get].
    + subst h'. destruct (String.eqb h (r_card_hash card)); reflexivity.
    + rewrite IH.
      destruct (String.eqb_spec h h') as [->|N'].
      * destruct (String.eqb_spec h' (r_card_hash card)); congruence.
      * reflexivity.
Qed.

Lemma hash_groups_get_acc (l : list card_row) (acc : dict (list card_row))
    (h : string) :
  dict_get (fold_left group_append l acc) h
    = match dict_get acc h, group_of l h with
      | Some g, f => Some (g ++ f)
      | None, [] => None
      | None, f => Some f
      end.
Proof.
  revert acc. induction l as [|r l IH]; intros acc; cbn [fold_left group_of filter].
  - destruct (dict_get acc h); [now rewrite app_nil_r|reflexivity].
  - rewrite IH, group_append_get. fold (group_of l h).
    rewrite (String.eqb_sym h (r_card_hash r)).
    destruct (String.eqb (r_card_hash r) h).
    + destruct (dict_get acc h); [now rewrite <- app_assoc|reflexivity].
    + reflexivity.
Qed.

Lemma hash_groups_get (l : list card_row) (h : string) :
  dict_get (hash_groups l) h
    = match group_of l h with [] => None | f => Some f end.
Proof. unfold hash_groups. now rewrite hash_groups_get_acc. Qed.

Lemma group_append_keys (groups : dict (list card_row)) (card : card_row) :
  map fst (group_append groups card)
    = if existsb (String.eqb (r_card_hash card)) (map fst groups)
      then map fst groups
      else map fst groups ++ [r_card_hash card].
Proof.
  induction groups as [|[h g] groups IH]; cbn [group_append map fst existsb].
  - reflexivity.
  - destruct (String.eqb (r_card_hash card) h); cbn [map fst orb].
    + reflexivity.
    + rewrite IH. now destruct (existsb _ _).
Qed.

Lemma hash_groups_NoDup (l : list card_row) : NoDup (map fst (hash_groups l)).
Proof.
  unfold hash_groups.
  assert (G : forall acc, NoDup (map fst acc) ->
                NoDup (map fst (fold_left group_append l acc))).
  { induction l as [|r l IH]; intros acc N; cbn [fold_left]; [exact N|].
    apply IH. rewrite group_append_keys.
    destruct (existsb _ _) eqn:E; [exact N|].
    apply NoDup_app; [exact N|repeat constructor; intros []|].
    intros x Ix [<-|[]].
    assert (existsb (String.eqb (r_card_hash r)) (map fst acc) = true).
    { apply existsb_exists. exists (r_card_hash r). split; [exact Ix|].
      apply String.eqb_refl. }
    congruence. }
  apply G. constructor.
Qed.

Lemma dict_get_In {V} (d : dict V) (k : string) (v : V) :
  dict_get d k = Some v -> In (k, v) d.
Proof.
  induction d as [|[k' v'] d IH]; cbn [dict_get]; [discriminate|].
  destruct (String.eqb_spec k k') as [->|N].
  - intros [= ->]. now left.
  - intros E. right. auto.
Qed.

Lemma In_dict_get {V} (d : dict V) (k : string) (v : V) :
  NoDup (map fst d) -> In (k, v) d -> dict_get d k = Some v.
Proof.
  induction d as [|[k' v'] d IH]; cbn [dict_get map fst]; [intros _ []|].
  intros N I. inversion N as [|? ? Nk N']; subst.
  destruct I as [[= -> ->]|I].
  - now rewrite String.eqb_refl.
  - destruct (String.eqb_spec k k') as [->|Ne]; [|now apply IH].
    exfalso. apply Nk. change k' with (fst (k', v)). now apply in_map.
Qed.

Lemma left_join_In (models : list model_row) (mc : model_card) :
  (forall m, In m models -> m_model_id m = mc_model_id mc ->
     In (mk_card_row (mc_card_hash mc) (mc_model_id mc)
           (coalesce (m_downloads m) 0) (coalesce (m_likes m) 0))
        (left_join models mc)) /\
  ((forall m, In m models -> m_model_id m <> mc_model_id mc) ->
     In (mk_card_row (mc_card_hash mc) (mc_model_id mc) 0 0)
        (left_join models mc)).
Proof.
  unfold left_join. split.
  - intros m Im E.
    assert (F : In m (filter (fun m => String.eqb (mc_model_id mc) (m_model_id m))
                        models)).
    { apply filter_In. split; [exact Im|]. rewrite E. apply String.eqb_refl. }
    destruct (filter _ models) as [|m0 ms]; [destruct F|].
    apply (in_map (fun m => mk_card_row (mc_card_hash mc) (mc_model_id mc)
                              (coalesce (m_downloads m) 0)
                              (coalesce (m_likes m) 0))) in F.
    exact F.
  - intros H.
    destruct (filter _ models) as [|m0 ms] eqn:F; [now left|].
    assert (I : In m0 (m0 :: ms)) by now left.
    rewrite <- F in I. apply filter_In in I as [I E].
    apply String.eqb_eq in E. exfalso. now apply (H m0 I).
Qed.

Lemma canon_data_keys (groups : dict (list card_row)) (h : string) :
  In h (map fst (canon_data groups)) -> In h (map fst groups).
Proof.
  induction groups as [|[h' g] groups IH]; cbn [canon_data flat_map map fst];
    [auto|].
  rewrite map_app, in_app_iff.
  intros [I|I]; [|right; now apply IH].
  destruct g; cbn in I; [destruct I|]. destruct I as [<-|[]]. now left.
Qed.

Lemma canon_data_NoDup (groups : dict (list card_row)) :
  NoDup (map fst groups) -> NoDup (map fst (canon_data groups)).
Proof.
  induction groups as [|[h g] groups IH]; cbn [canon_data flat_map map fst];
    [auto|].
  intros N. inversion N as [|? ? Nh N']; subst.
  destruct g as [|c g]; cbn [snd app map fst]; [now apply IH|].
  constructor; [|now apply IH].
  intros I. apply Nh. now apply canon_data_keys.
Qed.

Lemma StronglySorted_filter {A} (R : A -> A -> Prop) (f : A -> bool)
    (l : list A) :
  StronglySorted R l -> StronglySorted R (filter f l).
Proof.
  induction 1 as [|a l S IH F]; cbn [filter]; [constructor|].
  destruct (f a); [|exact IH].
  constructor; [exact IH|].
  rewrite Forall_forall in *. intros x Ix.
  apply filter_In in Ix as [Ix _]. auto.
Qed.

Lemma order_key_le_precedes (a b : card_row) :
  r_card_hash a = r_card_hash b ->
  key_le order_key a b -> row_precedes a b.
Proof.
  unfold key_le, order_key, row_precedes.
  cbn [cmp Ord_pair Ord_Z Ord_string fst snd].
  intros ->. rewrite string_compare_refl.
  unfold String.leb.
  destruct (Z.compare_spec (- r_downloads a) (- r_downloads b)) as [E|L|G];
    [|intros _; left; lia|congruence].
  destruct (Z.compare_spec (- r_likes a) (- r_likes b)) as [E'|L'|G'];
    [|intros _; right; split; [lia|left; lia]|congruence].
  intros N. right; split; [lia|]. right; split; [lia|].
  destruct (String.compare (r_model_id a) (r_model_id b)); congruence.
Qed.

(** The order of the query leaves no two distinct rows tied, so the rows it
    returns do not depend on how the database sorts. *)
Lemma order_key_injective (a b : card_row) :
  cmp (order_key a) (order_key b) = Eq -> a = b.
Proof.
  unfold order_key. cbn [cmp Ord_pair Ord_Z Ord_string fst snd].
  destruct (String.compare (r_card_hash a) (r_card_hash b)) eqn:C1;
    try discriminate.
  destruct (Z.compare_spec (- r_downloads a) (- r_downloads b)) as [E2|?|?];
    try discriminate.
  destruct (Z.compare_spec (- r_likes a) (- r_likes b)) as [E3|?|?];
    try discriminate.
  intros C4. apply String.compare_eq_iff in C1, C4.
  destruct a, b; cbn in *. f_equal; (assumption || lia).
Qed.

Lemma select_cards_unique (db : database) (rows : list card_row) :
  Permutation rows (records db) -> StronglySorted (key_le order_key) rows ->
  rows = select_cards db.
Proof. apply sorted_permutation_unique, order_key_injective. Qed.

Lemma group_of_In (rows : list card_row) (h : string) (r : card_row) :
  In r (group_of rows h) <-> In r rows /\ r_card_hash r = h.
Proof.
  unfold group_of. rewrite filter_In.
  split; intros [I E]; (split; [exact I|]); now apply String.eqb_eq.
Qed.

Lemma Permutation_filter {A} (f : A -> bool) (l l' : list A) :
  Permutation l l' -> Permutation (filter f l) (filter f l').
Proof.
  induction 1 as [|x l l' P IH|x y l|l l' l'' P1 IH1 P2 IH2]; cbn [filter].
  - constructor.
  - destruct (f x); [now constructor|exact IH].
  - destruct (f x), (f y); try reflexivity. apply perm_swap.
  - etransitivity; eassumption.
Qed.

Lemma upsert_all_other {V} (rows : list (string * V)) (table : dict V)
    (k : string) :
  ~ In k (map fst rows) -> dict_get (upsert_all table rows) k = dict_get table k.
Proof.
  unfold upsert_all. revert table.
  induction rows as [|[k' v'] rows IH]; intros table N; cbn [fold_left];
    [reflexivity|].
  cbn [map fst In] in N. rewrite IH by tauto. cbn [fst snd].
  apply dict_get_set_ne. intros ->. tauto.
Qed.

Lemma upsert_all_get {V} (rows : list (string * V)) (table : dict V)
    (k : string) (v : V) :
  NoDup (map fst rows) -> In (k, v) rows ->
  dict_get (upsert_all table rows) k = Some v.
Proof.
  revert table. induction rows as [|[k' v'] rows IH]; intros table N I;
    [destruct I|].
  cbn [map fst] in N. inversion N as [|? ? Nk N']; subst.
  destruct I as [[= -> ->]|I].
  - change (upsert_all table ((k, v) :: rows))
      with (upsert_all (dict_set table k v) rows).
    rewrite upsert_all_other by exact Nk. apply dict_get_set_eq.
  - change (upsert_all table ((k', v') :: rows))
      with (upsert_all (dict_set table k' v') rows).
    now apply IH.
Qed.

Lemma group_append_concat (groups : dict (list card_row)) (card : card_row) :
  Permutation (List.concat (map snd (group_append groups card)))
    (card :: List.concat (map snd groups)).
Proof.
  induction groups as [|[h g] groups IH]; cbn [group_append map snd List.concat].
  - reflexivity.
  - destruct (String.eqb (r_card_hash card) h); cbn [map snd List.concat].
    + rewrite <- app_assoc. cbn [app].
      symmetry. apply Permutation_middle.
    + rewrite IH. symmetry. apply Permutation_middle.
Qed.

Lemma hash_groups_concat (l : list card_row) :
  Permutation (List.concat (map snd (hash_groups l))) l.
Proof.
  unfold hash_groups.
  assert (G : forall acc,
             Permutation (List.concat (map snd (fold_left group_append l acc)))
               (List.concat (map snd acc) ++ l)).
  { induction l as [|r l IH]; intros acc; cbn [fold_left].
    - now rewrite app_nil_r.
    - rewrite IH, group_append_concat. cbn [app].
      apply Permutation_middle. }
  apply (G []).
Qed.

Lemma model_to_card_data_keys (groups : dict (list card_row)) :
  map fst (model_to_card_data groups)
    = map r_model_id (List.concat (map snd groups)).
Proof.
  induction groups as [|[h g] groups IH];
    cbn [model_to_card_data flat_map map snd fst List.concat]; [reflexivity|].
  fold (model_to_card_data groups). rewrite !map_app, IH, map_map. reflexivity.
Qed.

(** C5: the non-excluded records are grouped by content hash; every hash
    gets exactly one canonical entry, whose model is a member of the group
    that comes first under downloads descending, likes descending, model id
    ascending (popularity that is missing counted as zero) and whose
    duplicate count is the size of the group; every record is mapped to the
    hash of its group, and nothing else is; the run leaves these entries in
    [hf.card_canon] and, model ids being unique, in [hf.model_to_card].
    With A (100, 5), B and C (100, 10) sharing a card, the canonical is B. *)
Theorem build_canonical_mapping_groups (self : RAGIndexBuilder) :
  let rows := records (conn self) in
  let groups := hash_groups (select_cards (conn self)) in
  NoDup (map fst (canon_data groups)) /\
  (forall h, group_of rows h <> [] ->
     exists canonical,
       In canonical (group_of rows h) /\
       (forall r, In r (group_of rows h) -> row_precedes canonical r) /\
       In (h, (r_model_id canonical, len (group_of rows h)))
         (canon_data groups)) /\
  (forall h id n, In (h, (id, n)) (canon_data groups) ->
     group_of rows h <> []) /\
  (forall id h, In (id, h) (model_to_card_data groups) <->
     exists r, In r rows /\ r_model_id r = id /\ r_card_hash r = h) /\
  (forall mc, In mc (model_cards (conn self)) -> excluded_from_rag mc = false ->
     (forall m, In m (models (conn self)) -> m_model_id m = mc_model_id mc ->
        In (mk_card_row (mc_card_hash mc) (mc_model_id mc)
              (coalesce (m_downloads m) 0) (coalesce (m_likes m) 0)) rows) /\
     ((forall m, In m (models (conn self)) -> m_model_id m <> mc_model_id mc) ->
        In (mk_card_row (mc_card_hash mc) (mc_model_id mc) 0 0) rows)) /\
  (forall h id n, In (h, (id, n)) (canon_data groups) ->
     dict_get (card_canon (conn (build_canonical_mapping self))) h
       = Some (id, n)) /\
  (NoDup (map r_model_id rows) ->
   forall r, In r rows ->
     dict_get (model_to_card (conn (build_canonical_mapping self)))
       (r_model_id r) = Some (r_card_hash r)) /\
  canon_data (hash_groups (select_cards example_db)) = [("h", ("B", 3))].
Proof.
  intros rows groups.
  assert (P : Permutation (select_cards (conn self)) rows)
    by apply sorted_Permutation.
  assert (S : StronglySorted (key_le order_key) (select_cards (conn self)))
    by apply sorted_StronglySorted.
  assert (G : forall h, dict_get groups h
                = match group_of (select_cards (conn self)) h with
                  | [] => None | f => Some f end)
    by apply hash_groups_get.
  assert (PG : forall h, Permutation (group_of (select_cards (conn self)) h)
                           (group_of rows h))
    by (intros h; now apply Permutation_filter).
  assert (N : NoDup (map fst groups)) by apply hash_groups_NoDup.
  assert (MI : forall id h, In (id, h) (model_to_card_data groups) <->
                 exists r, In r rows /\ r_model_id r = id /\ r_card_hash r = h).
  { intros id h. unfold model_to_card_data. rewrite in_flat_map. split.
    + intros [[h' g] [Ig I]]. cbn [fst snd] in I.
      apply in_map_iff in I as [card [E Ic]].
      assert (h' = h) as -> by congruence.
      apply (In_dict_get _ _ _ N) in Ig. rewrite G in Ig.
      assert (Ic' : In card (group_of (select_cards (conn self)) h)).
      { destruct (group_of (select_cards (conn self)) h); [discriminate|].
        congruence. }
      apply group_of_In in Ic' as [Ic' Eh].
      exists card. split; [|split; congruence].
      eapply Permutation_in; eassumption.
    + intros [r [Ir [<- <-]]].
      assert (Ir' : In r (group_of (select_cards (conn self)) (r_card_hash r))).
      { apply group_of_In. split; [|reflexivity].
        eapply Permutation_in; [apply Permutation_sym|]; eassumption. }
      specialize (G (r_card_hash r)).
      destruct (group_of (select_cards (conn self)) (r_card_hash r))
        as [|c g] eqn:Eg; [destruct Ir'|].
      apply dict_get_In in G.
      exists (r_card_hash r, c :: g). split; [exact G|]. cbn [fst snd].
      apply in_map_iff. exists r. split; [reflexivity|exact Ir']. }
  split; [now apply canon_data_NoDup|].
  split; [|split; [|split; [exact MI|split; [|split; [|split]]]]].
  - intros h Hne. specialize (G h). specialize (PG h).
    destruct (group_of (select_cards (conn self)) h) as [|c g] eqn:Eg.
    { apply Permutation_nil in PG. contradiction. }
    exists c. split; [|split].
    + eapply Permutation_in; [exact PG|now left].
    + intros r Ir. apply (Permutation_in _ (Permutation_sym PG)) in Ir.
      assert (Hc : r_card_hash c = h).
      { apply (group_of_In (select_cards (conn self)) h c). rewrite Eg. now left. }
      assert (Hr : r_card_hash r = h).
      { apply (group_of_In (select_cards (conn self)) h r). now rewrite Eg. }
      destruct Ir as [<-|Ir].
      * apply order_key_le_precedes; [reflexivity|].
        unfold key_le. rewrite cmp_refl. discriminate.
      * apply order_key_le_precedes; [congruence|].
        pose proof (StronglySorted_filter _
                      (fun r => String.eqb (r_card_hash r) h) _ S) as S'.
        fold (group_of (select_cards (conn self)) h) in S'. rewrite Eg in S'.
        apply StronglySorted_inv in S' as [_ F].
        rewrite Forall_forall in F. now apply F.
    + apply dict_get_In in G. unfold canon_data. apply in_flat_map.
      exists (h, c :: g). split; [exact G|]. cbn [fst snd]. left.
      unfold len. now rewrite (Permutation_length PG).
  - intros h id n I. unfold canon_data in I. apply in_flat_map in I.
    destruct I as [[h' g] [Ig I]]. cbn [fst snd] in I.
    destruct g as [|c g]; [destruct I|]. destruct I as [E|[]].
    assert (h' = h) as -> by congruence.
    apply (In_dict_get _ _ _ N) in Ig. rewrite G in Ig.
    intros Z. specialize (PG h). rewrite Z in PG.
    apply Permutation_sym, Permutation_nil in PG. rewrite PG in Ig. discriminate.
  - intros mc Imc Ex.
    assert (F : In mc (filter (fun mc => negb (excluded_from_rag mc))
                         (model_cards (conn self)))).
    { apply filter_In. split; [exact Imc|]. now rewrite Ex. }
    destruct (left_join_In (models (conn self)) mc) as [J1 J2].
    split.
    + intros m Im E. unfold rows, records. apply in_flat_map.
      exists mc. split; [exact F|]. now apply J1.
    + intros H. unfold rows, records. apply in_flat_map.
      exists mc. split; [exact F|]. now apply J2.
  - intros h id n I. unfold build_canonical_mapping, set_stat, set_conn.
    cbn [conn card_canon]. fold groups.
    apply upsert_all_get; [now apply canon_data_NoDup|exact I].
  - intros U r Ir. unfold build_canonical_mapping, set_stat, set_conn.
    cbn [conn model_to_card]. fold groups.
    apply upsert_all_get; [|apply MI; now exists r].
    rewrite model_to_card_data_keys.
    apply (Permutation_NoDup (l := map r_model_id rows)); [|exact U].
    apply Permutation_map. symmetry.
    etransitivity; [apply hash_groups_concat|exact P].
  - reflexivity.
Qed.

(** *** Section extraction *)

Section ExtractionFacts.
Variable encode : string -> option (list Z).
Variable decode : list Z -> string.

Lemma add_sections_spec (sections : list section) (max_tokens : Z)
    (extracted : list string) (total_tokens : Z) :
  total_tokens <= max_tokens ->
  exists kept rest,
    sections = kept ++ rest /\
    add_sections encode sections max_tokens extracted total_tokens
      = (extracted ++ map content kept, total_tokens + tokens_of encode kept) /\
    total_tokens + tokens_of encode kept <= max_tokens /\
    (rest = [] \/
     exists s r, rest = s :: r /\
       total_tokens + tokens_of encode kept + count_tokens encode (content s)
         > max_tokens).
Proof.
  revert extracted total_tokens.
  induction sections as [|s sections IH]; intros extracted total Le.
  - exists [], []. cbn. rewrite app_nil_r, Z.add_0_r. auto.
  - cbn [add_sections].
    destruct (Z.leb_spec (total + count_tokens encode (content s)) max_tokens)
      as [Fit|Over].
    + destruct (IH (extracted ++ [content s])
                  (total + count_tokens encode (content s)) Fit)
        as [kept [rest [E [R [B T]]]]].
      exists (s :: kept), rest. cbn [map tokens_of app].
      rewrite <- app_assoc in R. cbn [app] in R.
      rewrite Z.add_assoc. split; [now rewrite E|]. auto.
    + exists [], (s :: sections). cbn [map tokens_of app].
      rewrite app_nil_r, Z.add_0_r.
      split; [reflexivity|]. split; [reflexivity|]. split; [exact Le|].
      right. exists s, sections. split; [reflexivity|]. lia.
Qed.

(** C7 (amended): under the 12,000-token budget the key sections are added
    first, then the other sections, each section whole and never split; in
    each of the two passes the sections are added in order while they fit in
    the remaining budget, and the first section that does not fit ends the
    pass: neither it nor any later section of that pass is added.  The pass
    over the other sections still runs after the pass over the key sections
    has ended.  The sections kept are joined by blank lines; when that text is
    empty or blank, the whole text truncated to the budget is returned
    instead. *)
Theorem extracted_sections_greedy (text : string) :
  let sections := all_sections text in
  let key_sections := filter is_key sections in
  let other_sections := filter (fun s => negb (is_key s)) sections in
  exists kept_key rest_key kept_other rest_other,
    key_sections = kept_key ++ rest_key /\
    other_sections = kept_other ++ rest_other /\
    extracted_sections encode text 12000
      = map content kept_key ++ map content kept_other /\
    tokens_of encode kept_key + tokens_of encode kept_other <= 12000 /\
    (rest_key = [] \/
     exists s r, rest_key = s :: r /\
       tokens_of encode kept_key + count_tokens encode (content s) > 12000) /\
    (rest_other = [] \/
     exists s r, rest_other = s :: r /\
       tokens_of encode kept_key + tokens_of encode kept_other
         + count_tokens encode (content s) > 12000) /\
    (let result := join (NL ++ NL)%string (extracted_sections encode text 12000) in
     str_empty text = false ->
     (str_empty result || str_empty (strip result) = false ->
      extract_key_sections encode decode text 12000 = result) /\
     (str_empty result || str_empty (strip result) = true ->
      extract_key_sections encode decode text 12000
        = truncate encode decode text 12000)).
Proof.
  intros sections key_sections other_sections.
  unfold extracted_sections. fold sections. fold key_sections.
  fold other_sections.
  destruct (add_sections_spec key_sections 12000 [] 0 ltac:(lia))
    as [kk [rk [Ek [Rk [Bk Tk]]]]].
  cbn [app] in Rk. rewrite Z.add_0_l in *. rewrite Rk.
  destruct (add_sections_spec other_sections 12000 (map content kk)
              (tokens_of encode kk) Bk)
    as [ko [ro [Eo [Ro [Bo To]]]]].
  exists kk, rk, ko, ro. rewrite Ro. cbn [fst].
  repeat (split; [assumption || reflexivity|]).
  intros Ht. unfold extract_key_sections.
  rewrite Ht. unfold extracted_sections. fold sections. fold key_sections.
  fold other_sections. rewrite Rk, Ro. cbn [fst].
  split; intros Hr; now rewrite Hr.
Qed.

End ExtractionFacts.

(** C7, as stated, fails: the usage section of [long_card] exceeds the
    budget, and the license section after it, which fits, is not added; a
    pass that skipped and went on would have added it. *)
Lemma extract_key_sections_break_counterexample :
  map is_key (all_sections long_card) = [true; true; false] /\
  map content (all_sections long_card)
    = [usage_section; license_section; notes_section] /\
  count_tokens byte_encode usage_section > 12000 /\
  count_tokens byte_encode license_section <= 12000 /\
  extracted_sections byte_encode long_card 12000 = [notes_section] /\
  extracted_sections_skipping byte_encode long_card 12000
    = [license_section; notes_section] /\
  extracted_sections byte_encode long_card 12000
    <> extracted_sections_skipping byte_encode long_card 12000 /\
  extract_key_sections byte_encode byte_decode long_card 12000 = notes_section.
Proof.
  repeat split; try (vm_compute; reflexivity); vm_compute; congruence.
Qed.

(** *** The sliding window *)

Lemma window_loop_terminates (n target overlap : Z) :
  overlap < target ->
  forall fuel start, (Z.to_nat (n - start) < fuel)%nat ->
  exists ws, window_loop fuel n target overlap start = Ok ws.
Proof.
  intros Lt. induction fuel as [|fuel IH]; intros start F; [lia|].
  cbn [window_loop].
  destruct (Z.ltb_spec start n) as [L|G]; [|now eexists].
  destruct (Z.geb_spec (Z.min (start + target) n) n) as [E|E]; [now eexists|].
  destruct (IH (Z.min (start + target) n - overlap) ltac:(lia)) as [ws ->].
  now eexists.
Qed.

Lemma window_loop_mono (n target overlap : Z) :
  forall fuel fuel' start ws,
    window_loop fuel n target overlap start = Ok ws -> (fuel <= fuel')%nat ->
    window_loop fuel' n target overlap start = Ok ws.
Proof.
  induction fuel as [|fuel IH]; intros fuel' start ws E Le; [discriminate|].
  destruct fuel' as [|fuel']; [lia|]. cbn [window_loop] in *.
  destruct (start <? n); [|exact E].
  destruct (Z.min (start + target) n >=? n); [exact E|].
  destruct (window_loop fuel n target overlap _) as [ws'| |] eqn:W;
    try discriminate.
  rewrite (IH fuel' _ _ W ltac:(lia)). exact E.
Qed.

Lemma window_loop_diverges (n target overlap : Z) :
  target <= overlap -> target < n -> 0 < n ->
  forall fuel start, start <= 0 ->
    window_loop fuel n target overlap start = OutOfFuel.
Proof.
  intros Ge Tn Pn. induction fuel as [|fuel IH]; intros start S0; [reflexivity|].
  cbn [window_loop].
  destruct (Z.ltb_spec start n) as [L|G]; [|lia].
  destruct (Z.geb_spec (Z.min (start + target) n) n) as [E|E]; [lia|].
  rewrite IH by lia. reflexivity.
Qed.

Lemma window_loop_closed (n target overlap : Z) :
  0 <= overlap < target ->
  forall fuel start ws,
    0 <= start -> window_loop fuel n target overlap start = Ok ws ->
    (forall k w, nth_error ws k = Some w ->
       fst w = start + Z.of_nat k * (target - overlap) /\
       snd w = Z.min (fst w + target) n /\ fst w < n) /\
    (forall k w1 w2, nth_error ws k = Some w1 -> nth_error ws (S k) = Some w2 ->
       snd w1 = fst w1 + target) /\
    (start < n -> snd (last ws (0, 0)) = n) /\
    (forall j, start <= j < n -> exists w, In w ws /\ fst w <= j < snd w).
Proof.
  intros O. induction fuel as [|fuel IH]; intros start ws S0 E; [discriminate|].
  cbn [window_loop] in E.
  destruct (Z.ltb_spec start n) as [L|G].
  2: { injection E as <-. split; [|split; [|split]].
       - intros [|k] w; discriminate.
       - intros [|k] w1 w2; discriminate.
       - lia.
       - intros j J. lia. }
  destruct (Z.geb_spec (Z.min (start + target) n) n) as [M|M].
  - injection E as <-. split; [|split; [|split]].
    + intros [|[|k]] w; try discriminate. intros [= <-]. cbn [fst snd]. lia.
    + intros [|k] w1 w2; discriminate.
    + intros _. cbn [last snd]. lia.
    + intros j J. eexists. split; [now left|]. cbn [fst snd]. lia.
  - destruct (window_loop fuel n target overlap _) as [ws'| |] eqn:W;
      try discriminate.
    injection E as <-.
    assert (Em : Z.min (start + target) n = start + target) by lia.
    rewrite Em in *.
    destruct (IH (start + target - overlap) ws' ltac:(lia) W)
      as [H1 [H2 [H3 H4]]].
    split; [|split; [|split]].
    + intros [|k] w.
      * intros [= <-]. cbn [fst snd]. lia.
      * cbn [nth_error]. intros Hk. destruct (H1 _ _ Hk) as [A [B C]].
        rewrite A. split; [lia|]. split; [|lia]. rewrite B, A. reflexivity.
    + intros [|k] w1 w2.
      * intros [= <-] _. reflexivity.
      * cbn [nth_error]. apply H2.
    + intros _. destruct ws' as [|w ws'].
      * exfalso. destruct fuel; [discriminate|]. cbn [window_loop] in W.
        destruct (Z.ltb_spec (start + target - overlap) n); [|lia].
        destruct (_ >=? n); [discriminate|].
        destruct (window_loop fuel n target overlap _); discriminate.
      * change (last ((start, start + target) :: w :: ws') (0, 0))
          with (last (w :: ws') (0, 0)).
        apply H3. lia.
    + intros j J. destruct (Z.lt_ge_cases j (start + target)) as [A|A].
      * eexists. split; [now left|]. cbn [fst snd]. lia.
      * destruct (H4 j ltac:(lia)) as [w [I B]]. exists w. split; [now right|exact B].
Qed.

Lemma slice_len {A} (l : list A) (i j : Z) :
  0 <= i <= j -> j <= len l -> len (slice l i j) = j - i.
Proof.
  intros I J. unfold slice, clamp_index, len in *.
  destruct (Z.ltb_spec i 0); [lia|]. destruct (Z.ltb_spec j 0); [lia|].
  rewrite length_firstn, length_skipn. lia.
Qed.

Section SlidingFacts.
Variable encode : string -> option (list Z).
Variable decode : list Z -> string.

Lemma sliding_loop_windows (tokens : list Z) (target overlap : Z) :
  forall fuel start chunks,
    sliding_loop decode fuel tokens target overlap start chunks
    = (ws <- window_loop fuel (len tokens) target overlap start ;;
       Ok (chunks ++ map (window_text decode tokens) ws)).
Proof.
  induction fuel as [|fuel IH]; intros start chunks; [reflexivity|].
  cbn [sliding_loop window_loop].
  destruct (start <? len tokens); cbn [bind];
    [|now rewrite app_nil_r].
  destruct (Z.min (start + target) (len tokens) >=? len tokens); cbn [bind];
    [reflexivity|].
  rewrite IH.
  destruct (window_loop fuel (len tokens) target overlap _); cbn [bind];
    try reflexivity.
  now rewrite <- app_assoc.
Qed.

Lemma sliding_window_split_windows (self : RAGIndexBuilder) (fuel : nat)
    (text : string) (tokens : list Z) :
  encode text = Some tokens ->
  _sliding_window_split encode decode self fuel text
  = (ws <- window_loop fuel (len tokens) (chunk_target (config self))
             (chunk_overlap (config self)) 0 ;;
     Ok (map (window_text decode tokens) ws)).
Proof.
  intros E. unfold _sliding_window_split. rewrite E.
  now rewrite sliding_loop_windows.
Qed.

(** C8 (amended): when the overlap is at least zero and strictly less than
    the target, the windows of the sliding-window split cover every token
    index: window [k] starts at [k * (target - overlap)], holds the tokens up
    to [start + target] or to the end of the input, whichever comes first,
    consecutive windows share exactly [overlap] tokens, and the last window
    ends at the last token. *)
Theorem sliding_window_covers (self : RAGIndexBuilder) (text : string)
    (tokens : list Z) :
  let target := chunk_target (config self) in
  let overlap := chunk_overlap (config self) in
  let n := len tokens in
  encode text = Some tokens ->
  0 <= overlap < target ->
  exists fuel ws,
    window_loop fuel n target overlap 0 = Ok ws /\
    _sliding_window_split encode decode self fuel text
      = Ok (map (window_text decode tokens) ws) /\
    covers ws n /\
    (forall k w, nth_error ws k = Some w ->
       fst w = Z.of_nat k * (target - overlap) /\
       snd w = Z.min (fst w + target) n /\
       0 <= fst w < snd w /\ snd w - fst w <= target /\
       len (slice tokens (fst w) (snd w)) = snd w - fst w) /\
    (forall k w1 w2, nth_error ws k = Some w1 -> nth_error ws (S k) = Some w2 ->
       fst w2 = fst w1 + (target - overlap) /\ snd w1 - fst w2 = overlap) /\
    (0 < n -> snd (last ws (0, 0)) = n).
Proof.
  intros target overlap n E O.
  destruct (window_loop_terminates n target overlap ltac:(lia)
              (S (Z.to_nat (n - 0))) 0 ltac:(lia)) as [ws W].
  exists (S (Z.to_nat (n - 0))), ws.
  destruct (window_loop_closed n target overlap O _ _ _ (Z.le_refl 0) W)
    as [H1 [H2 [H3 H4]]].
  split; [exact W|]. split.
  { rewrite (sliding_window_split_windows _ _ _ _ E).
    fold target overlap n. now rewrite W. }
  split; [exact H4|]. split; [|split; [|exact H3]].
  - intros k w Hk. destruct (H1 _ _ Hk) as [A [B C]].
    assert (F : 0 <= fst w) by nia.
    split; [lia|]. split; [exact B|]. split; [lia|]. split; [lia|].
    apply slice_len; fold n; lia.
  - intros k w1 w2 K1 K2.
    destruct (H1 _ _ K1) as [A1 _]. destruct (H1 _ _ K2) as [A2 _].
    pose proof (H2 _ _ _ K1 K2) as B. split; lia.
Qed.

End SlidingFacts.

(** C8, as stated, fails: an overlap below zero is strictly less than the
    target, and then the windows leave token indices out.  With target 2 and
    overlap -1 the four tokens of "abcd" give the windows [0,2) and [3,4):
    index 2 is in neither. *)
Lemma sliding_window_negative_overlap_counterexample :
  chunk_overlap (config (builder_with 2 (-1)))
    < chunk_target (config (builder_with 2 (-1))) /\
  byte_encode "abcd" = Some [97; 98; 99; 100] /\
  window_loop 5 4 2 (-1) 0 = Ok [(0, 2); (3, 4)] /\
  _sliding_window_split byte_encode byte_decode (builder_with 2 (-1)) 5 "abcd"
    = Ok ["ab"; "d"] /\
  ~ covers [(0, 2); (3, 4)] 4.
Proof.
  split; [reflexivity|]. split; [reflexivity|]. split; [reflexivity|].
  split; [reflexivity|].
  intros C. destruct (C 2 ltac:(lia)) as [w [[<-|[<-|[]]] B]]; cbn in B; lia.
Qed.

Lemma sliding_window_covers_witness :
  exists fuel ws,
    window_loop fuel 10 4 1 0 = Ok ws /\
    _sliding_window_split byte_encode byte_decode (builder_with 4 1) fuel
      "abcdefghij"
      = Ok (map (window_text byte_decode
                   [97; 98; 99; 100; 101; 102; 103; 104; 105; 106]) ws) /\
    covers ws 10 /\
    (forall k w, nth_error ws k = Some w ->
       fst w = Z.of_nat k * (4 - 1) /\
       snd w = Z.min (fst w + 4) 10 /\
       0 <= fst w < snd w /\ snd w - fst w <= 4 /\
       len (slice [97; 98; 99; 100; 101; 102; 103; 104; 105; 106]
              (fst w) (snd w)) = snd w - fst w) /\
    (forall k w1 w2, nth_error ws k = Some w1 -> nth_error ws (S k) = Some w2 ->
       fst w2 = fst w1 + (4 - 1) /\ snd w1 - fst w2 = 1) /\
    (0 < 10 -> snd (last ws (0, 0)) = 10).
Proof.
  apply (sliding_window_covers byte_encode byte_decode (builder_with 4 1)
           "abcdefghij" [97; 98; 99; 100; 101; 102; 103; 104; 105; 106]).
  - reflexivity.
  - cbn. lia.
Defined.

(** *** Termination and determinism of chunking *)

Lemma window_loop_no_raise (n target overlap : Z) :
  forall fuel start e, window_loop fuel n target overlap start <> Raise e.
Proof.
  induction fuel as [|fuel IH]; intros start e; [discriminate|].
  cbn [window_loop]. destruct (start <? n); [|discriminate].
  destruct (_ >=? n); [discriminate|].
  destruct (window_loop fuel n target overlap _) eqn:W'; try discriminate.
  now apply IH in W'.
Qed.

Lemma window_loop_stable (n target overlap start : Z) :
  fuel_stable (fun fuel => window_loop fuel n target overlap start).
Proof.
  intros fuel fuel' N Le.
  destruct (window_loop fuel n target overlap start) as [ws|e|] eqn:W.
  - now apply (window_loop_mono _ _ _ fuel).
  - now apply window_loop_no_raise in W.
  - now destruct N.
Qed.

Section ChunkingFacts.
Variable encode : string -> option (list Z).
Variable decode : list Z -> string.
Variable sha256_hexdigest : string -> string.

#[local] Abbreviation split := (_sliding_window_split encode decode).
#[local] Abbreviation process :=
  (process_sections encode decode sha256_hexdigest).
#[local] Abbreviation chunker := (chunk_text encode decode sha256_hexdigest).

Lemma split_stable (self : RAGIndexBuilder) (text : string) :
  fuel_stable (fun fuel => split self fuel text).
Proof.
  intros fuel fuel' N Le. unfold _sliding_window_split in *.
  destruct (encode text) as [tokens|]; [|reflexivity].
  rewrite !sliding_loop_windows in *.
  destruct (window_loop fuel _ _ _ _) as [ws|e|] eqn:W.
  - now rewrite (window_loop_mono _ _ _ _ _ _ _ W Le).
  - now apply window_loop_no_raise in W.
  - now destruct N.
Qed.

Lemma process_stable (self : RAGIndexBuilder) (card_hash : string)
    (sections : list string) :
  forall chunk_index chunks,
    fuel_stable (fun fuel =>
                   process self fuel card_hash sections chunk_index chunks).
Proof.
  induction sections as [|section rest IH]; intros idx chunks fuel fuel' N Le;
    [reflexivity|].
  cbn [process_sections] in *.
  destruct (_ <=? chunk_target (config self)); [now apply IH|].
  pose proof (split_stable self section fuel fuel') as St. cbn beta in St.
  destruct (split self fuel section) as [sub|e|] eqn:Sp; cbn [bind] in *.
  - rewrite St by (congruence || lia). cbn [bind].
    destruct (add_sub_chunks _ _ _ _ _ _). now apply IH.
  - rewrite St by (congruence || lia). reflexivity.
  - now destruct N.
Qed.

Lemma chunk_text_stable (self : RAGIndexBuilder) (text card_hash : string)
    (token_count : Z) :
  fuel_stable (fun fuel => chunker self fuel text card_hash token_count).
Proof.
  intros fuel fuel' N Le. unfold chunk_text in *.
  destruct (reduce_large encode decode (normalize_text text) token_count)
    as [[nt tc]|e|]; cbn [bind] in *; try reflexivity.
  destruct (tc <=? chunk_target (config self)); [reflexivity|].
  destruct (len (heading_split nt) <=? 1).
  - pose proof (split_stable self nt fuel fuel') as St. cbn beta in St.
    destruct (split self fuel nt) as [sub|e|] eqn:Sp; cbn [bind] in *.
    + rewrite St by (congruence || lia). cbn [bind]. now apply process_stable.
    + rewrite St by (congruence || lia). reflexivity.
    + now destruct N.
  - cbn [bind] in *. now apply process_stable.
Qed.

Lemma split_terminates (self : RAGIndexBuilder) (text : string) :
  chunk_overlap (config self) < chunk_target (config self) ->
  exists fuel, split self fuel text <> OutOfFuel.
Proof.
  intros Lt. unfold _sliding_window_split.
  destruct (encode text) as [tokens|]; [|exists O; discriminate].
  destruct (window_loop_terminates (len tokens) _ _ Lt
              (S (Z.to_nat (len tokens - 0))) 0 ltac:(lia)) as [ws W].
  exists (S (Z.to_nat (len tokens - 0))).
  rewrite sliding_loop_windows, W. discriminate.
Qed.

Lemma process_terminates (self : RAGIndexBuilder) (card_hash : string)
    (sections : list string) :
  chunk_overlap (config self) < chunk_target (config self) ->
  exists fuel, forall chunk_index chunks,
    process self fuel card_hash sections chunk_index chunks <> OutOfFuel.
Proof.
  intros Lt. induction sections as [|section rest [f2 IH]].
  - exists O. discriminate.
  - destruct (split_terminates self section Lt) as [f1 H1].
    exists (Nat.max f1 f2). intros idx chunks. cbn [process_sections].
    assert (R : forall i c,
               process self (Nat.max f1 f2) card_hash rest i c <> OutOfFuel).
    { intros i c.
      rewrite (process_stable self card_hash rest i c f2 (Nat.max f1 f2)
                 (IH i c) ltac:(lia)).
      apply IH. }
    destruct (_ <=? chunk_target (config self)); [apply R|].
    rewrite (split_stable self section f1 (Nat.max f1 f2) H1 ltac:(lia)).
    destruct (split self f1 section) as [sub|e|]; cbn [bind];
      [|discriminate|now destruct H1].
    destruct (add_sub_chunks _ _ _ _ _ _). apply R.
Qed.

Lemma reduce_large_returns (normalized_text : string) (token_count : Z) :
  reduce_large encode decode normalized_text token_count <> OutOfFuel.
Proof.
  unfold reduce_large.
  destruct (_ && _); [|discriminate].
  destruct (_ || _); [|discriminate].
  destruct (encode normalized_text); discriminate.
Qed.

Lemma chunk_text_terminates (self : RAGIndexBuilder) (text card_hash : string)
    (token_count : Z) :
  chunk_overlap (config self) < chunk_target (config self) ->
  exists fuel, chunker self fuel text card_hash token_count <> OutOfFuel.
Proof.
  intros Lt. unfold chunk_text.
  pose proof (reduce_large_returns (normalize_text text) token_count) as R.
  destruct (reduce_large encode decode (normalize_text text) token_count)
    as [[nt tc]|e|]; cbn [bind]; [|exists O; discriminate|now destruct R].
  destruct (tc <=? chunk_target (config self)); [exists O; discriminate|].
  destruct (len (heading_split nt) <=? 1).
  - destruct (split_terminates self nt Lt) as [f1 H1].
    destruct (split self f1 nt) as [sub|e|] eqn:Sp; [| |now destruct H1].
    + destruct (process_terminates self card_hash sub Lt) as [f2 H2].
      exists (Nat.max f1 f2).
      rewrite (split_stable self nt f1 (Nat.max f1 f2)) by (congruence || lia).
      rewrite Sp. cbn [bind].
      rewrite (process_stable self card_hash sub 0 [] f2 (Nat.max f1 f2)
                 (H2 0 []) ltac:(lia)).
      apply H2.
    + exists f1. rewrite Sp. discriminate.
  - destruct (process_terminates self card_hash (heading_split nt) Lt)
      as [f2 H2].
    exists f2. cbn [bind]. apply H2.
Qed.

Lemma split_diverges (self : RAGIndexBuilder) (text : string) (tokens : list Z) :
  chunk_target (config self) <= chunk_overlap (config self) ->
  encode text = Some tokens ->
  chunk_target (config self) < len tokens -> 0 < len tokens ->
  forall fuel, split self fuel text = OutOfFuel.
Proof.
  intros Ge E T P fuel. unfold _sliding_window_split. rewrite E.
  rewrite sliding_loop_windows.
  now rewrite (window_loop_diverges _ _ _ Ge T P fuel 0 (Z.le_refl 0)).
Qed.

(** The result of chunking depends on the builder through the chunk target
    and the chunk overlap only. *)
Lemma split_config (self1 self2 : RAGIndexBuilder) (fuel : nat) (text : string) :
  chunk_target (config self1) = chunk_target (config self2) ->
  chunk_overlap (config self1) = chunk_overlap (config self2) ->
  split self1 fuel text = split self2 fuel text.
Proof. intros T O. unfold _sliding_window_split. now rewrite T, O. Qed.

Lemma process_config (self1 self2 : RAGIndexBuilder) (fuel : nat)
    (card_hash : string) (sections : list string) :
  chunk_target (config self1) = chunk_target (config self2) ->
  chunk_overlap (config self1) = chunk_overlap (config self2) ->
  forall chunk_index chunks,
    process self1 fuel card_hash sections chunk_index chunks
    = process self2 fuel card_hash sections chunk_index chunks.
Proof.
  intros T O. induction sections as [|section rest IH]; intros idx chunks;
    [reflexivity|].
  cbn [process_sections]. rewrite T, (split_config self1 self2 _ _ T O).
  destruct (_ <=? _); [apply IH|].
  destruct (split self2 fuel section); cbn [bind]; try reflexivity.
  destruct (add_sub_chunks _ _ _ _ _ _). apply IH.
Qed.

Lemma chunk_text_config (self1 self2 : RAGIndexBuilder) (fuel : nat)
    (text card_hash : string) (token_count : Z) :
  chunk_target (config self1) = chunk_target (config self2) ->
  chunk_overlap (config self1) = chunk_overlap (config self2) ->
  chunker self1 fuel text card_hash token_count
  = chunker self2 fuel text card_hash token_count.
Proof.
  intros T O. unfold chunk_text.
  destruct (reduce_large _ _ _ _) as [[nt tc]|e|]; cbn [bind]; try reflexivity.
  rewrite T, (split_config self1 self2 _ _ T O).
  destruct (_ <=? chunk_target _); [reflexivity|].
  destruct (_ <=? 1); [|cbn [bind]; now apply process_config].
  destruct (split self2 fuel nt); cbn [bind]; try reflexivity.
  now apply process_config.
Qed.

(** Chunk indices are dense from zero and every chunk carries the hash of
    its own text. *)
Lemma well_formed_snoc (card_hash : string) (chunks : list chunk) (text : string)
    (tokens : Z) :
  well_formed_chunks sha256_hexdigest card_hash chunks ->
  well_formed_chunks sha256_hexdigest card_hash
    (chunks ++ [mk_chunk (compute_hash sha256_hexdigest text) card_hash
                  (len chunks) text tokens]).
Proof.
  intros W i c E. destruct (Nat.lt_ge_cases i (List.length chunks)) as [L|G].
  - rewrite nth_error_app1 in E by exact L. now apply W.
  - rewrite nth_error_app2 in E by exact G.
    destruct (i - List.length chunks)%nat as [|k] eqn:D; cbn in E;
      [|destruct k; discriminate].
    injection E as <-. cbn. unfold len. repeat split. lia.
Qed.

Lemma add_sub_chunks_well_formed (card_hash : string) (sub_chunks : list string) :
  forall chunks,
    well_formed_chunks sha256_hexdigest card_hash chunks ->
    let r := add_sub_chunks encode sha256_hexdigest card_hash sub_chunks
               (len chunks) chunks in
    well_formed_chunks sha256_hexdigest card_hash (fst r) /\ snd r = len (fst r).
Proof.
  induction sub_chunks as [|sub rest IH]; intros chunks W; cbn [add_sub_chunks].
  - split; [exact W|reflexivity].
  - pose proof (well_formed_snoc card_hash chunks sub
                  (count_tokens encode sub) W) as W'.
    specialize (IH _ W').
    replace (len (chunks ++ [mk_chunk (compute_hash sha256_hexdigest sub)
                               card_hash (len chunks) sub
                               (count_tokens encode sub)]))
      with (len chunks + 1) in IH; [exact IH|].
    unfold len. rewrite length_app. cbn. lia.
Qed.

Lemma process_well_formed (self : RAGIndexBuilder) (fuel : nat)
    (card_hash : string) (sections : list string) :
  forall chunks r,
    well_formed_chunks sha256_hexdigest card_hash chunks ->
    process self fuel card_hash sections (len chunks) chunks = Ok r ->
    well_formed_chunks sha256_hexdigest card_hash r.
Proof.
  induction sections as [|section rest IH]; intros chunks r W E;
    cbn [process_sections] in E.
  - now injection E as <-.
  - destruct (_ <=? chunk_target (config self)).
    + pose proof (well_formed_snoc card_hash chunks section
                    (count_tokens encode section) W) as W'.
      eapply IH; [exact W'|].
      replace (len (chunks ++ _)) with (len chunks + 1); [exact E|].
      unfold len. rewrite length_app. cbn. lia.
    + destruct (split self fuel section) as [sub|e|]; cbn [bind] in E;
        try discriminate.
      pose proof (add_sub_chunks_well_formed card_hash sub chunks W) as [W' L].
      destruct (add_sub_chunks _ _ _ _ _ _) as [chunks' idx'].
      cbn [fst snd] in *. subst idx'. eapply IH; eassumption.
Qed.

Lemma chunk_text_well_formed (self : RAGIndexBuilder) (fuel : nat)
    (text card_hash : string) (token_count : Z) (r : list chunk) :
  chunker self fuel text card_hash token_count = Ok r ->
  well_formed_chunks sha256_hexdigest card_hash r.
Proof.
  unfold chunk_text.
  destruct (reduce_large _ _ _ _) as [[nt tc]|e|]; cbn [bind];
    try discriminate.
  assert (W0 : well_formed_chunks sha256_hexdigest card_hash [])
    by (intros [|i] c; discriminate).
  destruct (_ <=? chunk_target _).
  - intros [= <-]. intros [|[|i]] c; try discriminate.
    intros [= <-]. cbn. auto.
  - destruct (_ <=? 1).
    + destruct (split self fuel nt) as [sub|e|]; cbn [bind]; try discriminate.
      now apply (process_well_formed self fuel card_hash sub []).
    + cbn [bind]. now apply (process_well_formed self fuel card_hash _ []).
Qed.

Lemma chunk_text_diverges (self : RAGIndexBuilder) (text card_hash : string)
    (token_count : Z) (tokens : list Z) :
  chunk_target (config self) <= chunk_overlap (config self) ->
  token_count < 10000 -> chunk_target (config self) < token_count ->
  len (heading_split (normalize_text text)) <= 1 ->
  encode (normalize_text text) = Some tokens ->
  chunk_target (config self) < len tokens -> 0 < len tokens ->
  forall fuel, chunker self fuel text card_hash token_count = OutOfFuel.
Proof.
  intros Ge Small Big H E T P fuel. unfold chunk_text, reduce_large.
  destruct (Z.leb_spec 10000 token_count); [lia|]. cbn [andb bind].
  destruct (Z.leb_spec token_count (chunk_target (config self))); [lia|].
  destruct (Z.leb_spec (len (heading_split (normalize_text text))) 1); [|lia].
  now rewrite (split_diverges self _ tokens Ge E T P).
Qed.

(** C10: the loop of [_sliding_window_split] ends on every token sequence
    if and only if the chunk overlap is strictly less than the chunk target.
    With such a configuration the split and [chunk_text] return on every
    input; with an overlap of at least the target the window start never
    advances, so the split never returns on a non-empty token sequence that
    is longer than the target, nor does [chunk_text] on a text without
    headings that it has to split.  The defaults, target 900 and overlap 120,
    are on the terminating side. *)
Theorem sliding_window_terminates_iff (self : RAGIndexBuilder) :
  let target := chunk_target (config self) in
  let overlap := chunk_overlap (config self) in
  ((forall tokens : list Z, exists fuel chunks,
      sliding_loop decode fuel tokens target overlap 0 [] = Ok chunks)
   <-> overlap < target) /\
  (overlap < target ->
   (forall text, exists fuel, forall fuel', (fuel <= fuel')%nat ->
      split self fuel' text <> OutOfFuel) /\
   (forall text card_hash token_count,
      exists fuel, forall fuel', (fuel <= fuel')%nat ->
        chunker self fuel' text card_hash token_count <> OutOfFuel)) /\
  (target <= overlap ->
   (forall text tokens, encode text = Some tokens ->
      target < len tokens -> 0 < len tokens ->
      forall fuel, split self fuel text = OutOfFuel) /\
   (forall text card_hash token_count tokens,
      token_count < 10000 -> target < token_count ->
      len (heading_split (normalize_text text)) <= 1 ->
      encode (normalize_text text) = Some tokens ->
      target < len tokens -> 0 < len tokens ->
      forall fuel, chunker self fuel text card_hash token_count = OutOfFuel)) /\
  chunk_overlap default_config < chunk_target default_config.
Proof.
  intros target overlap. split; [|split; [|split; [|reflexivity]]].
  - split.
    + intros H. destruct (Z.lt_ge_cases overlap target) as [L|G]; [exact L|].
      exfalso.
      destruct (H (repeat 0 (S (Z.to_nat target)))) as [fuel [chunks E]].
      rewrite sliding_loop_windows in E.
      rewrite (window_loop_diverges _ target overlap G) in E;
        try discriminate; unfold len; rewrite repeat_length; lia.
    + intros Lt tokens.
      destruct (window_loop_terminates (len tokens) target overlap Lt
                  (S (Z.to_nat (len tokens - 0))) 0 ltac:(lia)) as [ws W].
      exists (S (Z.to_nat (len tokens - 0))). eexists.
      rewrite sliding_loop_windows, W. reflexivity.
  - intros Lt. split.
    + intros text. destruct (split_terminates self text Lt) as [fuel N].
      exists fuel. intros fuel' Le.
      now rewrite (split_stable self text fuel fuel' N Le).
    + intros text card_hash token_count.
      destruct (chunk_text_terminates self text card_hash token_count Lt)
        as [fuel N].
      exists fuel. intros fuel' Le.
      now rewrite (chunk_text_stable self text card_hash token_count fuel fuel'
                     N Le).
  - intros Ge. split.
    + intros text tokens. now apply split_diverges.
    + intros text card_hash token_count tokens. now apply chunk_text_diverges.
Qed.

End ChunkingFacts.

End IndexBuilderFacts.

(** ** Text normalisation *)

Module NormalizeFacts.
Import Py TextSpec IndexBuilder.

Lemma join_cons (sep x : string) (l : list string) :
  l <> [] -> join sep (x :: l) = (x ++ sep ++ join sep l)%string.
Proof. destruct l; [congruence|reflexivity]. Qed.

Lemma split_on_nonempty (sep : ascii) (s : string) : split_on sep s <> [].
Proof.
  induction s as [|c s IH]; cbn [split_on]; [discriminate|].
  destruct (Ascii.eqb c sep); [discriminate|].
  destruct (split_on sep s); discriminate.
Qed.

Lemma join_split_on (s : string) : join NL (split_on LF s) = s.
Proof.
  induction s as [|c s IH]; [reflexivity|]. cbn [split_on].
  destruct (Ascii.eqb_spec c LF) as [->|N].
  - rewrite join_cons by apply split_on_nonempty. now rewrite IH.
  - pose proof (split_on_nonempty LF s) as NE.
    destruct (split_on LF s) as [|w ws]; [congruence|].
    destruct ws as [|w' ws].
    + cbn [join String.concat] in *. now rewrite IH.
    + rewrite join_cons in * by discriminate. cbn [String.append].
      now rewrite IH.
Qed.

Lemma has_char_app (c : ascii) (a b : string) :
  has_char c (a ++ b) = has_char c a || has_char c b.
Proof.
  induction a as [|d a IH]; [reflexivity|]. cbn. now rewrite IH, orb_assoc.
Qed.

Lemma split_on_no_sep (s : string) : has_char LF s = false -> split_on LF s = [s].
Proof.
  induction s as [|c s IH]; [reflexivity|]. cbn [has_char split_on].
  intros H. apply orb_false_iff in H as [H1 H2]. rewrite H1, (IH H2).
  reflexivity.
Qed.

Lemma split_on_app_line (w s : string) :
  has_char LF w = false ->
  split_on LF (w ++ NL ++ s) = w :: split_on LF s.
Proof.
  induction w as [|c w IH]; intros H.
  - cbn. reflexivity.
  - cbn [has_char] in H. apply orb_false_iff in H as [H1 H2].
    cbn [String.append split_on]. rewrite H1.
    change (split_on LF (w ++ NL ++ s)) with (split_on LF (w ++ NL ++ s)).
    now rewrite (IH H2).
Qed.

Lemma split_on_join (lines : list string) :
  lines <> [] -> Forall (fun l => has_char LF l = false) lines ->
  split_on LF (join NL lines) = lines.
Proof.
  induction lines as [|w lines IH]; [congruence|]. intros _ F.
  inversion F as [|? ? Hw F']; subst.
  destruct lines as [|w' lines].
  - now apply split_on_no_sep.
  - rewrite join_cons by discriminate.
    rewrite split_on_app_line by exact Hw.
    now rewrite IH.
Qed.

Lemma split_on_lines_no_sep (s : string) :
  Forall (fun l => has_char LF l = false) (split_on LF s).
Proof.
  induction s as [|c s IH]; cbn [split_on]; [repeat constructor|].
  destruct (Ascii.eqb_spec c LF) as [->|N].
  - now constructor.
  - apply Ascii.eqb_neq in N.
    destruct (split_on LF s) as [|w ws].
    + repeat constructor. cbn [has_char]. now rewrite N.
    + inversion IH as [|? ? Hw F]; subst. constructor; [|assumption].
      cbn [has_char]. now rewrite N.
Qed.

Lemma replace_char_no_char (a b : ascii) (s : string) :
  a <> b -> has_char a (replace_char a b s) = false.
Proof.
  intros N. induction s as [|c s IH]; [reflexivity|]. cbn [replace_char has_char].
  rewrite IH, orb_false_r.
  destruct (Ascii.eqb_spec c a) as [->|N'].
  - apply Ascii.eqb_neq. congruence.
  - now apply Ascii.eqb_neq.
Qed.

Lemma replace_char_id (a b : ascii) (s : string) :
  has_char a s = false -> replace_char a b s = s.
Proof.
  induction s as [|c s IH]; [reflexivity|]. cbn [replace_char has_char].
  intros H. apply orb_false_iff in H as [H1 H2]. now rewrite H1, IH.
Qed.

Lemma replace_crlf_id (s : string) :
  has_char CR s = false -> replace_crlf s = s.
Proof.
  induction s as [|c s IH]; [reflexivity|]. intros H.
  cbn [has_char] in H. apply orb_false_iff in H as [H1 H2]. specialize (IH H2).
  destruct s as [|c' t]; [reflexivity|].
  change (replace_crlf (String c (String c' t)))
    with (if Ascii.eqb c CR && Ascii.eqb c' LF
          then String LF (replace_crlf t)
          else String c (replace_crlf (String c' t))).
  rewrite H1. cbn [andb]. now rewrite IH.
Qed.

Lemma rstrip_cons (c : ascii) (s : string) :
  rstrip (String c s) =
  match rstrip s with
  | EmptyString => if isspace c then EmptyString else String c EmptyString
  | r => String c r
  end.
Proof. reflexivity. Qed.

Lemma rstrip_idempotent (s : string) : rstrip (rstrip s) = rstrip s.
Proof.
  induction s as [|c s IH]; [reflexivity|]. rewrite rstrip_cons.
  destruct (rstrip s) as [|d r] eqn:E.
  - destruct (isspace c) eqn:W; [reflexivity|].
    rewrite rstrip_cons. cbn [rstrip]. now rewrite W.
  - rewrite rstrip_cons, IH. reflexivity.
Qed.

Lemma rstrip_has_char (c : ascii) (s : string) :
  has_char c s = false -> has_char c (rstrip s) = false.
Proof.
  induction s as [|d s IH]; [reflexivity|]. rewrite rstrip_cons.
  cbn [has_char]. intros H. apply orb_false_iff in H as [H1 H2].
  specialize (IH H2).
  destruct (rstrip s) as [|e r].
  - destruct (isspace d); [reflexivity|]. cbn [has_char]. now rewrite H1.
  - change (has_char c (String d (String e r)))
      with (Ascii.eqb d c || has_char c (String e r)).
    now rewrite H1, IH.
Qed.

Lemma collapse_blank_saturated (lines : list string) (c c' : Z) :
  2 <= c -> 2 <= c' -> collapse_blank lines c = collapse_blank lines c'.
Proof.
  revert c c'. induction lines as [|l lines IH]; intros c c' H H'; [reflexivity|].
  cbn [collapse_blank]. destruct (str_empty l); [|reflexivity].
  destruct (Z.leb_spec (c + 1) 2); [lia|].
  destruct (Z.leb_spec (c' + 1) 2); [lia|].
  apply IH; lia.
Qed.

Lemma collapse_blank_idempotent (lines : list string) (c : Z) :
  0 <= c ->
  collapse_blank (collapse_blank lines c) c = collapse_blank lines c.
Proof.
  revert c. induction lines as [|l lines IH]; intros c H; [reflexivity|].
  cbn [collapse_blank]. destruct (str_empty l) eqn:E.
  - destruct (Z.leb_spec (c + 1) 2) as [L|G].
    + cbn [collapse_blank]. rewrite E.
      destruct (Z.leb_spec (c + 1) 2); [|lia]. now rewrite IH by lia.
    + rewrite (collapse_blank_saturated _ c (c + 1)) by lia. apply IH. lia.
  - cbn [collapse_blank]. rewrite E. now rewrite IH by lia.
Qed.

Lemma collapse_blank_Forall (P : string -> Prop) (lines : list string) (c : Z) :
  Forall P lines -> Forall P (collapse_blank lines c).
Proof.
  revert c. induction lines as [|l lines IH]; intros c F; [constructor|].
  inversion F; subst. cbn [collapse_blank].
  destruct (str_empty l); [destruct (_ <=? 2)|]; auto.
Qed.

Lemma collapse_blank_nonempty (lines : list string) :
  lines <> [] -> collapse_blank lines 0 <> [].
Proof.
  destruct lines as [|l lines]; [congruence|]. intros _. cbn [collapse_blank].
  destruct (str_empty l); cbn; discriminate.
Qed.

Lemma collapse_blank_leading (lines : list string) (c : Z) :
  0 <= c ->
  (Z.of_nat (leading_blank (collapse_blank lines c)) <= Z.max 0 (2 - c)) /\
  three_blank (collapse_blank lines c) = false.
Proof.
  revert c. induction lines as [|l lines IH]; intros c H.
  - cbn. split; [lia|reflexivity].
  - cbn [collapse_blank]. destruct l as [|a l]; cbn [str_empty].
    + destruct (Z.leb_spec (c + 1) 2) as [L|G].
      * destruct (IH (c + 1) ltac:(lia)) as [A B].
        cbn [leading_blank three_blank]. rewrite B, orb_false_r.
        split; [lia|]. apply Nat.leb_gt. lia.
      * destruct (IH (c + 1) ltac:(lia)) as [A B]. split; [lia|exact B].
    + destruct (IH 0 ltac:(lia)) as [A B].
      cbn [leading_blank three_blank]. rewrite B. split; [lia|reflexivity].
Qed.

Lemma join_has_char (c : ascii) (lines : list string) :
  has_char c NL = false ->
  Forall (fun l => has_char c l = false) lines ->
  has_char c (join NL lines) = false.
Proof.
  intros N. induction 1 as [|l lines H F IH]; [reflexivity|].
  destruct lines as [|l' lines]; [exact H|].
  rewrite join_cons by discriminate.
  now rewrite !has_char_app, H, N, IH.
Qed.

Lemma split_on_has_char (c : ascii) (s : string) :
  has_char c s = false ->
  Forall (fun l => has_char c l = false) (split_on LF s).
Proof.
  induction s as [|d s IH]; cbn [split_on has_char]; [repeat constructor|].
  intros H. apply orb_false_iff in H as [H1 H2]. specialize (IH H2).
  destruct (Ascii.eqb d LF); [now constructor|].
  destruct (split_on LF s) as [|w ws].
  - repeat constructor. cbn [has_char]. now rewrite H1.
  - inversion IH; subst. constructor; [|assumption].
    cbn [has_char]. now rewrite H1.
Qed.

(** The lines [normalize_text] joins. *)
Lemma normalize_text_lines (text : string) :
  let lines :=
    collapse_blank
      (map rstrip (split_on LF (replace_char CR LF (replace_crlf text)))) 0 in
  normalize_text text = join NL lines /\
  lines <> [] /\
  Forall (fun l => has_char LF l = false) lines /\
  Forall (fun l => has_char CR l = false) lines /\
  Forall (fun l => rstrip l = l) lines /\
  three_blank lines = false.
Proof.
  intros lines. split; [reflexivity|].
  set (t := replace_char CR LF (replace_crlf text)) in *.
  assert (C : has_char CR t = false)
    by (apply replace_char_no_char; discriminate).
  split; [|split; [|split; [|split]]].
  - apply collapse_blank_nonempty. pose proof (split_on_nonempty LF t).
    destruct (split_on LF t); [congruence|discriminate].
  - apply collapse_blank_Forall. apply Forall_map.
    eapply Forall_impl; [|apply split_on_lines_no_sep].
    intros l. apply rstrip_has_char.
  - apply collapse_blank_Forall. apply Forall_map.
    eapply Forall_impl; [|apply (split_on_has_char CR t C)].
    intros l. apply rstrip_has_char.
  - apply collapse_blank_Forall. apply Forall_map.
    apply Forall_forall. intros l _. apply rstrip_idempotent.
  - now apply collapse_blank_leading.
Qed.

(** X1: normalising a normalised text changes nothing. *)
Theorem normalize_text_idempotent (text : string) :
  normalize_text (normalize_text text) = normalize_text text.
Proof.
  destruct (normalize_text_lines text) as [E [NE [FL [FC [FR _]]]]].
  set (lines := collapse_blank _ 0) in *.
  rewrite E. unfold normalize_text at 1.
  assert (C : has_char CR (join NL lines) = false)
    by (apply join_has_char; [reflexivity|exact FC]).
  rewrite (replace_crlf_id _ C), (replace_char_id _ _ _ C).
  rewrite (split_on_join _ NE FL).
  assert (M : map rstrip lines = lines).
  { clear -FR. induction FR as [|l ls H F IH]; [reflexivity|].
    cbn [map]. now rewrite H, IH. }
  rewrite M. subst lines. now rewrite collapse_blank_idempotent by lia.
Qed.

(** X2: a normalised text holds no carriage return, none of its lines ends
    in whitespace, and it never has three empty lines in a row. *)
Theorem normalize_text_canonical (text : string) :
  has_char CR (normalize_text text) = false /\
  Forall (fun l => rstrip l = l) (lines_of (normalize_text text)) /\
  three_blank (lines_of (normalize_text text)) = false.
Proof.
  destruct (normalize_text_lines text) as [E [NE [FL [FC [FR TB]]]]].
  set (lines := collapse_blank _ 0) in *. unfold lines_of.
  rewrite E, (split_on_join _ NE FL).
  split; [|split; assumption].
  apply join_has_char; [reflexivity|exact FC].
Qed.

End NormalizeFacts.

(** ** The exclusion rules as one pass *)

Module ExclusionFacts.
Import Py PyFacts IndexBuilder TextSpec.

Lemma filter_map_length {A B} (f : B -> bool) (g : A -> B) (l : list A) :
  len (filter f (map g l)) = len (filter (fun x => f (g x)) l).
Proof.
  unfold len. f_equal.
  induction l as [|x l IH]; cbn [map filter]; [reflexivity|].
  destruct (f (g x)); cbn [List.length]; now rewrite IH.
Qed.

Lemma len_filter_ext {A} (f g : A -> bool) (l : list A) :
  (forall x, f x = g x) -> len (filter f l) = len (filter g l).
Proof. intros E. now rewrite (filter_ext f g E). Qed.

Lemma len_filter_split {A} (f g h : A -> bool) (l : list A) :
  (forall x, (if f x then 1 else 0) + (if g x then 1 else 0)
             = if h x then 1 else 0) ->
  len (filter f l) + len (filter g l) = len (filter h l).
Proof.
  intros E. unfold len.
  induction l as [|x l IH]; cbn [filter]; [reflexivity|].
  specialize (E x).
  destruct (f x), (g x), (h x); cbn [List.length]; lia.
Qed.

Lemma len_filter_none {A} (f : A -> bool) (l : list A) :
  (forall x, In x l -> f x = false) -> len (filter f l) = 0.
Proof.
  intros E. induction l as [|x l IH]; [reflexivity|]. cbn [filter].
  rewrite (E x) by now left. apply IH. intros y I. apply E. now right.
Qed.

(** A card under the three statements, one after the other. *)
Lemma rules_pointwise (c : model_card) :
  let hit1 c := String.eqb (card_text c) "No model card found."
                && negb (excluded_from_rag c) in
  let hit2 c := (token_count c <? 50) && negb (excluded_from_rag c) in
  let hit3 c := (token_count c >? 100000) && negb (excluded_from_rag c) in
  let c1 := if hit1 c then exclude "No content" c else c in
  let c2 := if hit2 c1 then exclude "Too short (<50 tokens)" c1 else c1 in
  let c3 := if hit3 c2
            then exclude "Too long (>100k tokens, likely non-textual)" c2
            else c2 in
  c3 = after_rules c /\
  hit1 c = has_reason "No content" c /\
  hit2 c1 = has_reason "Too short (<50 tokens)" c /\
  hit3 c2 = has_reason "Too long (>100k tokens, likely non-textual)" c.
Proof.
  unfold after_rules, has_reason, exclusion_of. cbv zeta.
  destruct (excluded_from_rag c) eqn:X,
    (String.eqb (card_text c) "No model card found.") eqn:T,
    (token_count c <? 50) eqn:S, (token_count c >? 100000) eqn:L;
    repeat (cbn [negb andb exclude excluded_from_rag token_count card_text];
            rewrite ?X, ?T, ?S, ?L);
    repeat split; reflexivity.
Qed.

Lemma apply_exclusion_rules_cards (self : RAGIndexBuilder) :
  model_cards (conn (apply_exclusion_rules self))
    = map after_rules (model_cards (conn self)).
Proof.
  unfold apply_exclusion_rules, rule1, rule2, rule3, update_excluded,
    set_stat, set_conn, set_model_cards. cbn [conn model_cards].
  rewrite !map_map. apply map_ext. intros c.
  now destruct (rules_pointwise c) as [E _].
Qed.

Lemma apply_exclusion_rules_counts (self : RAGIndexBuilder) :
  let cards := model_cards (conn self) in
  snd (rule1 cards) = len (filter (has_reason "No content") cards) /\
  snd (rule2 (fst (rule1 cards)))
    = len (filter (has_reason "Too short (<50 tokens)") cards) /\
  snd (rule3 (fst (rule2 (fst (rule1 cards)))))
    = len (filter
             (has_reason "Too long (>100k tokens, likely non-textual)") cards).
Proof.
  intros cards. unfold rule1, rule2, rule3, update_excluded. cbn [fst snd].
  split; [|split].
  - apply len_filter_ext. intros c.
    now destruct (rules_pointwise c) as [_ [E _]].
  - rewrite filter_map_length. apply len_filter_ext. intros c.
    now destruct (rules_pointwise c) as [_ [_ [E _]]].
  - rewrite map_map, filter_map_length. apply len_filter_ext. intros c.
    now destruct (rules_pointwise c) as [_ [_ [_ E]]].
Qed.

Lemma apply_exclusion_rules_stats (self : RAGIndexBuilder) :
  let cards := model_cards (conn self) in
  let n1 := snd (rule1 cards) in
  let n2 := snd (rule2 (fst (rule1 cards))) in
  let n3 := snd (rule3 (fst (rule2 (fst (rule1 cards))))) in
  let stats' := stats (apply_exclusion_rules self) in
  dict_get stats' "excluded_no_content" = Some n1 /\
  dict_get stats' "excluded_too_short" = Some n2 /\
  dict_get stats' "excluded_too_long" = Some n3 /\
  dict_get stats' "total_excluded" = Some (n1 + n2 + n3).
Proof.
  cbv zeta. unfold apply_exclusion_rules.
  destruct (rule1 (model_cards (conn self))) as [c1 n1].
  destruct (rule2 c1) as [c2 n2] eqn:E2. cbn [fst snd]. rewrite E2.
  destruct (rule3 c2) as [c3 n3] eqn:E3. cbn [fst snd]. rewrite E3.
  cbn [fst snd]. unfold set_stat, set_conn; cbn [stats].
  repeat split;
    rewrite ?dict_get_set_ne by discriminate; apply dict_get_set_eq.
Qed.

Lemma exclusion_of_excluded (c : model_card) (reason : string) :
  exclusion_of c = Some reason -> excluded_from_rag c = false.
Proof.
  unfold exclusion_of. now destruct (excluded_from_rag c).
Qed.

Lemma exclusion_of_after_rules (c : model_card) :
  exclusion_of (after_rules c) = None.
Proof.
  unfold after_rules. destruct (exclusion_of c) as [r|] eqn:E; [reflexivity|].
  exact E.
Qed.

Lemma after_rules_survivor (c : model_card) :
  excluded_from_rag (after_rules c) = false ->
  after_rules c = c /\
  card_text c <> "No model card found." /\
  50 <= token_count c <= 100000.
Proof.
  unfold after_rules, exclusion_of.
  destruct (excluded_from_rag c) eqn:X0; [congruence|].
  destruct (String.eqb_spec (card_text c) "No model card found.");
    [discriminate|].
  destruct (Z.ltb_spec (token_count c) 50); [discriminate|].
  destruct (Z.gtb_spec (token_count c) 100000); [discriminate|].
  intros _. split; [reflexivity|]. split; [assumption|lia].
Qed.

Lemma after_rules_id (c : model_card) :
  mc_model_id (after_rules c) = mc_model_id c.
Proof. unfold after_rules. now destruct (exclusion_of c). Qed.

(** X3: the three statements together act on each card on its own: a card
    that is already excluded is left as it is; otherwise the first rule
    that matches it, in the order sentinel text, fewer than 50 tokens, more
    than 100000 tokens, excludes it with that rule's reason; and each of
    the counters is the number of cards that rule excluded, so a card with
    the sentinel text and fewer than 50 tokens is counted as "No content"
    only. *)
Theorem exclusion_first_rule_wins (self : RAGIndexBuilder) :
  let cards := model_cards (conn self) in
  let stats' := stats (apply_exclusion_rules self) in
  model_cards (conn (apply_exclusion_rules self)) = map after_rules cards /\
  dict_get stats' "excluded_no_content"
    = Some (len (filter (has_reason "No content") cards)) /\
  dict_get stats' "excluded_too_short"
    = Some (len (filter (has_reason "Too short (<50 tokens)") cards)) /\
  dict_get stats' "excluded_too_long"
    = Some (len (filter
                   (has_reason "Too long (>100k tokens, likely non-textual)")
                   cards)) /\
  dict_get stats' "total_excluded"
    = Some (len (filter (fun c => excluded_from_rag (after_rules c)
                                  && negb (excluded_from_rag c)) cards)).
Proof.
  intros cards stats'.
  destruct (apply_exclusion_rules_counts self) as [C1 [C2 C3]].
  destruct (apply_exclusion_rules_stats self) as [S1 [S2 [S3 S4]]].
  fold cards in C1, C2, C3. cbv zeta in S1, S2, S3, S4.
  fold cards stats' in S1, S2, S3, S4.
  rewrite C1 in S1. rewrite C2 in S2. rewrite C3 in S3.
  rewrite C1, C2, C3 in S4.
  split; [apply apply_exclusion_rules_cards|].
  split; [exact S1|]. split; [exact S2|]. split; [exact S3|].
  rewrite S4. f_equal.
  rewrite (len_filter_split _ _
             (fun c => has_reason "No content" c
                       || has_reason "Too short (<50 tokens)" c) cards).
  - apply len_filter_split. intros c.
    unfold has_reason, after_rules, exclusion_of.
    destruct (excluded_from_rag c) eqn:X; [now rewrite X|].
    destruct (String.eqb (card_text c) "No model card found."); [reflexivity|].
    destruct (token_count c <? 50); [reflexivity|].
    destruct (token_count c >? 100000); [reflexivity|]. now rewrite X.
  - intros c. unfold has_reason, exclusion_of.
    destruct (excluded_from_rag c); [reflexivity|].
    destruct (String.eqb (card_text c) "No model card found."); [reflexivity|].
    destruct (token_count c <? 50); [reflexivity|].
    destruct (token_count c >? 100000); reflexivity.
Qed.

(** X4: a second run of the exclusion rules changes no card and sets all
    four counters to zero. *)
Theorem exclusion_rules_idempotent (self : RAGIndexBuilder) :
  let once := apply_exclusion_rules self in
  let twice := apply_exclusion_rules once in
  model_cards (conn twice) = model_cards (conn once) /\
  dict_get (stats twice) "excluded_no_content" = Some 0 /\
  dict_get (stats twice) "excluded_too_short" = Some 0 /\
  dict_get (stats twice) "excluded_too_long" = Some 0 /\
  dict_get (stats twice) "total_excluded" = Some 0.
Proof.
  intros once twice.
  destruct (apply_exclusion_rules_counts once) as [C1 [C2 C3]].
  destruct (apply_exclusion_rules_stats once) as [S1 [S2 [S3 S4]]].
  cbv zeta in S1, S2, S3, S4. fold twice in S1, S2, S3, S4.
  assert (Z : forall r, len (filter (has_reason r) (model_cards (conn once))) = 0).
  { intros r. apply len_filter_none. intros c I. unfold once in I.
    rewrite apply_exclusion_rules_cards in I.
    apply in_map_iff in I as [c0 [<- _]].
    unfold has_reason. now rewrite exclusion_of_after_rules. }
  rewrite C1, Z in S1. rewrite C2, Z in S2. rewrite C3, Z in S3.
  rewrite C1, C2, C3, !Z in S4.
  split; [|now repeat split].
  unfold twice. rewrite apply_exclusion_rules_cards.
  unfold once at 2. rewrite apply_exclusion_rules_cards.
  fold once. unfold once at 1. rewrite apply_exclusion_rules_cards.
  rewrite map_map. apply map_ext. intros c.
  unfold after_rules at 1. now rewrite exclusion_of_after_rules.
Qed.

(** X5: after the exclusion rules, every card that is still not excluded
    has a text other than the sentinel and between 50 and 100000 tokens;
    the rules change only the exclusion flag and reason of a card, and
    never those of a card that was already excluded. *)
Theorem exclusion_rules_survivors (self : RAGIndexBuilder) :
  let before := model_cards (conn self) in
  let after := model_cards (conn (apply_exclusion_rules self)) in
  (forall c, In c after -> excluded_from_rag c = false ->
     card_text c <> "No model card found." /\
     50 <= token_count c <= 100000) /\
  Forall2 (fun c c' =>
             mc_model_id c' = mc_model_id c /\
             card_text c' = card_text c /\
             mc_card_hash c' = mc_card_hash c /\
             token_count c' = token_count c /\
             (excluded_from_rag c = true -> c' = c) /\
             (excluded_from_rag c' = false -> c' = c))
    before after.
Proof.
  intros before after. unfold after. rewrite apply_exclusion_rules_cards.
  fold before. split.
  - intros c' I X. apply in_map_iff in I as [c [<- _]].
    unfold after_rules, exclusion_of in *.
    destruct (excluded_from_rag c) eqn:X0; [congruence|].
    destruct (String.eqb_spec (card_text c) "No model card found.");
      [discriminate|].
    destruct (Z.ltb_spec (token_count c) 50); [discriminate|].
    destruct (Z.gtb_spec (token_count c) 100000); [discriminate|].
    split; [assumption|lia].
  - induction before as [|c before IH]; cbn [map]; constructor; [|exact IH].
    unfold after_rules. destruct (exclusion_of c) as [r|] eqn:E.
    + apply exclusion_of_excluded in E. cbn. repeat split; congruence.
    + repeat split.
Qed.

End ExclusionFacts.

(** ** The canonical mapping: counters, reruns and stale entries *)

Module CanonicalFacts.
Import Py PyFacts IndexBuilder TextSpec IndexBuilderFacts.

Lemma upsert_all_lookup {V} (rows : list (string * V)) (table : dict V)
    (k : string) :
  dict_get (upsert_all table rows) k
    = match last_value rows k with
      | Some v => Some v
      | None => dict_get table k
      end.
Proof.
  unfold upsert_all. revert table.
  induction rows as [|[k' v'] rows IH]; intros table; cbn [fold_left last_value];
    [reflexivity|].
  rewrite IH. cbn [fst snd].
  destruct (last_value rows k); [reflexivity|].
  destruct (String.eqb_spec k k') as [->|N].
  - apply dict_get_set_eq.
  - now apply dict_get_set_ne.
Qed.

Lemma last_value_None {V} (rows : list (string * V)) (k : string) :
  last_value rows k = None <-> ~ In k (map fst rows).
Proof.
  induction rows as [|[k' v'] rows IH]; cbn [last_value map fst In]; [tauto|].
  destruct (last_value rows k) eqn:E.
  - split; [discriminate|]. intros N. exfalso.
    assert (~ In k (map fst rows)) by tauto.
    apply IH in H. discriminate.
  - destruct (String.eqb_spec k k') as [->|N].
    + split; [discriminate|tauto].
    + split; [|reflexivity]. intros _ [C|C]; [congruence|].
      now apply IH in C.
Qed.

Lemma group_append_nonempty (groups : dict (list card_row)) (card : card_row) :
  Forall (fun hg => snd hg <> []) groups ->
  Forall (fun hg => snd hg <> []) (group_append groups card).
Proof.
  induction 1 as [|[h g] groups Hg F IH]; cbn [group_append].
  - repeat constructor. discriminate.
  - destruct (String.eqb (r_card_hash card) h); constructor; auto.
    cbn [snd] in *. destruct g; discriminate.
Qed.

Lemma hash_groups_nonempty (l : list card_row) :
  Forall (fun hg => snd hg <> []) (hash_groups l).
Proof.
  unfold hash_groups.
  assert (G : forall acc, Forall (fun hg : string * list card_row =>
                                    snd hg <> []) acc ->
                Forall (fun hg => snd hg <> []) (fold_left group_append l acc)).
  { induction l as [|r l IH]; intros acc F; cbn [fold_left]; [exact F|].
    apply IH. now apply group_append_nonempty. }
  apply G. constructor.
Qed.

Lemma canon_data_counts (groups : dict (list card_row)) :
  Forall (fun hg => snd hg <> []) groups ->
  len (canon_data groups) = len groups /\
  map fst (canon_data groups) = map fst groups /\
  sum_counts (canon_data groups) = len (model_to_card_data groups) /\
  len groups <= len (model_to_card_data groups).
Proof.
  unfold len. induction 1 as [|[h g] groups Hg F IH];
    cbn [canon_data model_to_card_data flat_map fst snd];
    [repeat split; reflexivity|].
  fold (canon_data groups) (model_to_card_data groups).
  destruct IH as [I1 [I2 [I3 I4]]].
  destruct g as [|c g]; [now destruct Hg|].
  cbn [app map fst snd List.length sum_counts fold_right].
  fold (sum_counts (canon_data groups)).
  rewrite length_app, length_map, I2, I3. unfold len. cbn [List.length].
  repeat split; lia.
Qed.

Lemma model_to_card_data_length (l : list card_row) :
  len (model_to_card_data (hash_groups l)) = len l.
Proof.
  unfold len. f_equal.
  rewrite <- (length_map fst), model_to_card_data_keys, length_map.
  apply Permutation_length, hash_groups_concat.
Qed.

Lemma select_cards_length (db : database) :
  len (select_cards db) = len (records db).
Proof.
  unfold len, select_cards. f_equal.
  apply Permutation_length, sorted_Permutation.
Qed.

(** X6: the counters of the canonical mapping: the number of mappings is
    the number of non-excluded records, the number of unique hashes is the
    number of canonical entries, the duplicates are their difference, which
    is never negative, and the duplicate counts of the canonical entries add
    up to the number of mappings. *)
Theorem canonical_mapping_stats (self : RAGIndexBuilder) :
  let rows := records (conn self) in
  let canon := canon_data (hash_groups (select_cards (conn self))) in
  let stats' := stats (build_canonical_mapping self) in
  dict_get stats' "total_model_mappings" = Some (len rows) /\
  dict_get stats' "unique_card_hashes" = Some (len canon) /\
  dict_get stats' "total_duplicates" = Some (len rows - len canon) /\
  0 <= len rows - len canon /\
  sum_counts canon = len rows.
Proof.
  intros rows canon stats'.
  destruct (canon_data_counts _ (hash_groups_nonempty (select_cards (conn self))))
    as [C1 [_ [C3 C4]]].
  pose proof (model_to_card_data_length (select_cards (conn self))) as M.
  pose proof (select_cards_length (conn self)) as L.
  fold canon in C1, C3. fold rows in L.
  unfold stats', build_canonical_mapping, set_stat, set_conn. cbn [stats].
  rewrite M, L, <- C1 in *.
  split; [|split; [|split; [|split]]].
  - rewrite dict_get_set_ne by discriminate. apply dict_get_set_eq.
  - rewrite !dict_get_set_ne by discriminate. apply dict_get_set_eq.
  - apply dict_get_set_eq.
  - lia.
  - lia.
Qed.

(** X7: the canonical mapping deletes nothing: an entry of [hf.card_canon]
    whose hash no non-excluded card has, and an entry of [hf.model_to_card]
    whose model has no non-excluded card, are left as they were, and every
    key that had an entry before the run has one after it. *)
Theorem canonical_mapping_keeps_stale (self : RAGIndexBuilder) :
  let rows := records (conn self) in
  let db' := conn (build_canonical_mapping self) in
  (forall h, ~ In h (map r_card_hash rows) ->
     dict_get (card_canon db') h = dict_get (card_canon (conn self)) h) /\
  (forall id, ~ In id (map r_model_id rows) ->
     dict_get (model_to_card db') id = dict_get (model_to_card (conn self)) id) /\
  (forall h, dict_get (card_canon (conn self)) h <> None ->
     dict_get (card_canon db') h <> None) /\
  (forall id, dict_get (model_to_card (conn self)) id <> None ->
     dict_get (model_to_card db') id <> None).
Proof.
  intros rows db'.
  assert (P : Permutation (List.concat (map snd (hash_groups (select_cards (conn self)))))
                rows).
  { etransitivity; [apply hash_groups_concat|apply sorted_Permutation]. }
  unfold db', build_canonical_mapping, set_stat, set_conn.
  cbn [conn card_canon model_to_card].
  split; [|split; [|split]].
  - intros h N. apply upsert_all_other. intros I. apply N.
    apply canon_data_keys in I.
    apply in_map_iff in I as [[h' g] [E I]]. cbn [fst] in E. subst h'.
    pose proof (hash_groups_nonempty (select_cards (conn self))) as F.
    rewrite Forall_forall in F. specialize (F _ I). cbn [snd] in F.
    destruct g as [|c g]; [congruence|].
    apply (In_dict_get _ _ _ (hash_groups_NoDup _)) in I.
    rewrite hash_groups_get in I.
    assert (Ic : In c (group_of (select_cards (conn self)) h)).
    { destruct (group_of (select_cards (conn self)) h); [discriminate|].
      injection I as ->. now left. }
    apply group_of_In in Ic as [Ic <-].
    apply in_map.
    eapply Permutation_in;
      [apply (sorted_Permutation order_key (records (conn self)))|exact Ic].
  - intros id N. apply upsert_all_other. intros I. apply N.
    rewrite model_to_card_data_keys in I.
    eapply Permutation_in; [apply Permutation_map; exact P|exact I].
  - intros h. rewrite upsert_all_lookup.
    destruct (last_value _ h); [discriminate|auto].
  - intros id. rewrite upsert_all_lookup.
    destruct (last_value _ id); [discriminate|auto].
Qed.

Lemma build_canonical_mapping_tables (self : RAGIndexBuilder) :
  let groups := hash_groups (select_cards (conn self)) in
  let db' := conn (build_canonical_mapping self) in
  card_canon db' = upsert_all (card_canon (conn self)) (canon_data groups) /\
  model_to_card db'
    = upsert_all (model_to_card (conn self)) (model_to_card_data groups) /\
  model_cards db' = model_cards (conn self) /\
  models db' = models (conn self) /\
  select_cards db' = select_cards (conn self).
Proof. repeat split. Qed.

(** X8: a second run of the canonical mapping finds every entry of
    [hf.card_canon] and [hf.model_to_card] as the first run left it, and
    reports the same three counters. *)
Theorem canonical_mapping_rerun (self : RAGIndexBuilder) :
  let once := build_canonical_mapping self in
  let twice := build_canonical_mapping once in
  (forall h, dict_get (card_canon (conn twice)) h
             = dict_get (card_canon (conn once)) h) /\
  (forall id, dict_get (model_to_card (conn twice)) id
              = dict_get (model_to_card (conn once)) id) /\
  model_cards (conn twice) = model_cards (conn self) /\
  models (conn twice) = models (conn self) /\
  (forall k, In k ["unique_card_hashes"; "total_model_mappings";
                   "total_duplicates"] ->
     dict_get (stats twice) k = dict_get (stats once) k).
Proof.
  intros once twice.
  destruct (build_canonical_mapping_tables self) as [C1 [M1 [_ [_ S1]]]].
  destruct (build_canonical_mapping_tables once) as [C2 [M2 _]].
  cbv zeta in C1, M1, S1, C2, M2. fold once in C1, M1, S1. fold twice in C2, M2.
  rewrite S1 in C2, M2.
  split; [|split; [|split; [|split]]].
  - intros h. rewrite C2, upsert_all_lookup.
    destruct (last_value _ h) as [v|] eqn:E; [|reflexivity].
    now rewrite C1, upsert_all_lookup, E.
  - intros id. rewrite M2, upsert_all_lookup.
    destruct (last_value _ id) as [v|] eqn:E; [|reflexivity].
    now rewrite M1, upsert_all_lookup, E.
  - reflexivity.
  - reflexivity.
  - intros k I. unfold twice, build_canonical_mapping at 1. rewrite S1.
    unfold once, build_canonical_mapping, set_stat, set_conn.
    cbn [stats].
    destruct I as [<-|[<-|[<-|[]]]];
      repeat (rewrite dict_get_set_eq
              || rewrite dict_get_set_ne by discriminate);
      reflexivity.
Qed.

End CanonicalFacts.

(** ** Splitting at headings and by sliding window *)

Module SplittingFacts.
Import Py PyFacts IndexBuilder TextSpec IndexBuilderFacts NormalizeFacts.

Lemma string_app_assoc (a b c : string) :
  ((a ++ b) ++ c = a ++ b ++ c)%string.
Proof.
  induction a as [|x a IH]; cbn [String.append]; [reflexivity|]. now rewrite IH.
Qed.

Lemma join_single (sep x : string) : join sep [x] = x.
Proof. reflexivity. Qed.

Lemma join_app2 (a b : list string) :
  a <> [] -> b <> [] ->
  join NL (a ++ b) = (join NL a ++ NL ++ join NL b)%string.
Proof.
  induction a as [|x a IH]; [congruence|]. intros _ Nb.
  destruct a as [|y a].
  - cbn [app]. rewrite join_cons by exact Nb. now rewrite join_single.
  - change ((x :: y :: a) ++ b) with (x :: ((y :: a) ++ b)).
    rewrite !join_cons by discriminate.
    rewrite IH by (discriminate || exact Nb).
    now rewrite !string_app_assoc.
Qed.

(** A group of lines joined into one piece reads like the lines. *)
Lemma join_flatten (a cur b : list string) :
  cur <> [] -> join NL (a ++ join NL cur :: b) = join NL (a ++ cur ++ b).
Proof.
  intros Nc. induction a as [|x a IH]; cbn [app].
  - destruct b as [|y b]; [now rewrite app_nil_r, join_single|].
    rewrite join_cons by discriminate.
    now rewrite join_app2 by (exact Nc || discriminate).
  - rewrite !join_cons; [now rewrite IH| |].
    + destruct a, cur; cbn; congruence.
    + destruct a; cbn; discriminate.
Qed.

Lemma heading_sections_join (lines sections current_section : list string) :
  let '(sections', current') :=
    heading_sections lines sections current_section in
  join NL (sections' ++ current')
    = join NL (sections ++ current_section ++ lines).
Proof.
  revert sections current_section.
  induction lines as [|line rest IH]; intros sections cur;
    cbn [heading_sections].
  - now rewrite app_nil_r.
  - destruct (h2_h3_match line).
    + specialize (IH (if is_empty cur then sections
                      else sections ++ [join NL cur]) [line]).
      destruct (heading_sections rest _ [line]) as [s' c'].
      rewrite IH. destruct cur as [|l cur]; cbn [is_empty]; [reflexivity|].
      rewrite <- !app_assoc. cbn [app].
      apply (join_flatten sections (l :: cur) (line :: rest)). discriminate.
    + specialize (IH sections (cur ++ [line])).
      destruct (heading_sections rest sections (cur ++ [line])) as [s' c'].
      rewrite IH. now rewrite <- !app_assoc.
Qed.

Lemma heading_split_join (text : string) :
  join NL (heading_split text) = text.
Proof.
  unfold heading_split.
  pose proof (heading_sections_join (split_on LF text) [] []) as J.
  destruct (heading_sections (split_on LF text) [] []) as [s' c'].
  cbn [app] in J. rewrite join_split_on in J. rewrite <- J.
  destruct c' as [|l c']; cbn [is_empty]; [now rewrite app_nil_r|].
  rewrite <- (app_nil_r (l :: c')) at 2.
  apply (join_flatten s' (l :: c') []). discriminate.
Qed.

(** X9: the split of a text at its level-2 and level-3 headings loses
    nothing: the sections joined by line feeds are the text. *)
Theorem heading_split_lossless (text : string) :
  join NL (heading_split text) = text.
Proof. apply heading_split_join. Qed.

Lemma split_sections_join (lines : list string) (sections : list section)
    (current_section : list string) (current_heading : option string) :
  let '(sections', current', _) :=
    split_sections lines sections current_section current_heading in
  join NL (map content sections' ++ current')
    = join NL (map content sections ++ current_section ++ lines).
Proof.
  revert sections current_section current_heading.
  induction lines as [|line rest IH]; intros sections cur h;
    cbn [split_sections].
  - now rewrite app_nil_r.
  - destruct (heading_match line) as [h'|].
    + specialize (IH (if is_empty cur then sections
                      else sections ++ [mk_section h (join NL cur)
                                          (has_keyword h)]) [line] (Some h')).
      destruct (split_sections rest _ [line] (Some h')) as [[s' c'] h''].
      rewrite IH. destruct cur as [|l cur]; cbn [is_empty]; [reflexivity|].
      rewrite map_app. cbn [map content]. rewrite <- !app_assoc. cbn [app].
      apply (join_flatten (map content sections) (l :: cur) (line :: rest)).
      discriminate.
    + specialize (IH sections (cur ++ [line]) h).
      destruct (split_sections rest sections (cur ++ [line]) h) as [[s' c'] h''].
      rewrite IH. now rewrite <- !app_assoc.
Qed.

(** X10: the sections [extract_key_sections] cuts a text into lose
    nothing: their contents joined by line feeds are the text. *)
Theorem all_sections_lossless (text : string) :
  join NL (map content (all_sections text)) = text.
Proof.
  unfold all_sections.
  pose proof (split_sections_join (split_on LF text) [] [] None) as J.
  destruct (split_sections (split_on LF text) [] [] None) as [[s' c'] h'].
  cbn [app map] in J. rewrite join_split_on in J. rewrite <- J.
  destruct c' as [|l c']; cbn [is_empty]; [now rewrite app_nil_r|].
  rewrite map_app. cbn [map content].
  rewrite <- (app_nil_r (l :: c')) at 2.
  apply (join_flatten (map content s') (l :: c') []). discriminate.
Qed.

Lemma slice_full {A} (l : list A) : slice l 0 (len l) = l.
Proof.
  unfold slice, clamp_index, len. cbn [Z.ltb Z.compare].
  destruct (Z.ltb_spec (Z.of_nat (List.length l)) 0); [lia|].
  replace (Z.max 0 (Z.min (Z.of_nat (List.length l)) 0)) with 0 by lia.
  replace (Z.to_nat
             (Z.max 0 (Z.min (Z.of_nat (List.length l))
                         (Z.of_nat (List.length l))) - 0))
    with (List.length l) by lia.
  cbn [Z.to_nat skipn]. apply firstn_all.
Qed.

Lemma window_loop_length (n target overlap : Z) :
  0 <= overlap < target ->
  forall fuel start ws,
    start < n -> window_loop fuel n target overlap start = Ok ws ->
    len ws
    = 1 + Z.max 0 ((n - start - overlap - 1) / (target - overlap)).
Proof.
  intros O. induction fuel as [|fuel IH]; intros start ws L E; [discriminate|].
  cbn [window_loop] in E.
  destruct (Z.ltb_spec start n); [|lia].
  destruct (Z.geb_spec (Z.min (start + target) n) n) as [M|M].
  - injection E as <-.
    assert (Q : (n - start - overlap - 1) / (target - overlap) < 1)
      by (apply Z.div_lt_upper_bound; lia).
    unfold len. cbn [List.length]. lia.
  - destruct (window_loop fuel n target overlap _) as [ws'| |] eqn:W;
      try discriminate.
    injection E as <-.
    replace (Z.min (start + target) n) with (start + target) in W by lia.
    apply IH in W; [|lia].
    replace (n - (start + target - overlap) - overlap - 1)
      with ((n - start - overlap - 1) + (-1) * (target - overlap)) in W by lia.
    rewrite Z.div_add in W by lia.
    assert (Q : 1 <= (n - start - overlap - 1) / (target - overlap))
      by (apply Z.div_le_lower_bound; lia).
    unfold len in *. cbn [List.length]. lia.
Qed.

Section SplitFacts.
Variable encode : string -> option (list Z).
Variable decode : list Z -> string.
Variable sha256_hexdigest : string -> string.

(** X11: a text of at most [chunk_target] tokens goes through the sliding
    window as one chunk that holds all its tokens, and an empty token list
    gives no chunk, whatever the overlap is: also an overlap as large as the
    target, on which a longer text never returns. *)
Theorem sliding_window_short_input (self : RAGIndexBuilder) (text : string)
    (tokens : list Z) (fuel : nat) :
  encode text = Some tokens ->
  len tokens <= chunk_target (config self) ->
  _sliding_window_split encode decode self (S fuel) text
    = Ok (match tokens with [] => [] | _ => [decode tokens] end).
Proof.
  intros E L. unfold _sliding_window_split. rewrite E.
  cbn [sliding_loop].
  destruct tokens as [|t tokens].
  - reflexivity.
  - set (l := t :: tokens) in *.
    destruct (Z.ltb_spec 0 (len l)) as [P|P];
      [|unfold l, len in P; cbn [List.length] in P; lia].
    replace (Z.min (0 + chunk_target (config self)) (len l)) with (len l)
      by lia.
    destruct (Z.geb_spec (len l) (len l)); [|lia].
    now rewrite slice_full.
Qed.

(** X12: with an overlap of at least zero and below the target, a text of
    [n > 0] tokens is split into
    [1 + max 0 ((n - overlap - 1) / (target - overlap))] chunks (integer
    division rounding down): one chunk up to [target] tokens, and one more
    for every further [target - overlap] tokens or part of them. *)
Theorem sliding_window_chunk_count (self : RAGIndexBuilder) (text : string)
    (tokens : list Z) :
  let target := chunk_target (config self) in
  let overlap := chunk_overlap (config self) in
  let n := len tokens in
  encode text = Some tokens ->
  0 <= overlap < target ->
  0 < n ->
  exists chunks,
    (forall fuel, (Z.to_nat n < fuel)%nat ->
       _sliding_window_split encode decode self fuel text = Ok chunks) /\
    len chunks = 1 + Z.max 0 ((n - overlap - 1) / (target - overlap)).
Proof.
  intros target overlap n E O P.
  destruct (window_loop_terminates n target overlap ltac:(lia)
              (S (Z.to_nat (n - 0))) 0 ltac:(lia)) as [ws W].
  exists (map (window_text decode tokens) ws). split.
  - intros fuel F.
    rewrite (sliding_window_split_windows _ _ _ _ _ _ E).
    fold target overlap n.
    rewrite (window_loop_mono _ _ _ _ fuel _ _ W) by lia. reflexivity.
  - pose proof (window_loop_length n target overlap O _ _ _ P W) as Lw.
    unfold len in *. rewrite length_map.
    now replace (n - 0 - overlap - 1) with (n - overlap - 1) in Lw by lia.
Qed.

Lemma process_sections_fit (self : RAGIndexBuilder) (fuel : nat)
    (card_hash : string) (sections : list string) :
  Forall (fun s => count_tokens encode s <= chunk_target (config self))
    sections ->
  forall chunk_index chunks,
    process_sections encode decode sha256_hexdigest self fuel card_hash
      sections chunk_index chunks
    = Ok (chunks ++
          map (fun p => mk_chunk (compute_hash sha256_hexdigest (snd p))
                          card_hash (fst p) (snd p)
                          (count_tokens encode (snd p)))
            (enumerate_from chunk_index sections)).
Proof.
  induction 1 as [|s sections Hs F IH]; intros idx chunks;
    cbn [process_sections enumerate_from map].
  - now rewrite app_nil_r.
  - destruct (Z.leb_spec (count_tokens encode s) (chunk_target (config self)));
      [|lia].
    rewrite IH, <- app_assoc. reflexivity.
Qed.

(** X13: a card outside the large-card range whose token count exceeds the
    target and whose normalised text has at least two heading sections, each
    within the target, is chunked into exactly these sections, in order and
    numbered from 0: no text is lost or repeated, and the chunk texts joined
    by line feeds are the normalised card. *)
Theorem chunk_text_heading_sections (self : RAGIndexBuilder)
    (text card_hash : string) (token_count : Z) (fuel : nat) :
  let sections := heading_split (normalize_text text) in
  ~ (10000 <= token_count <= 100000) ->
  chunk_target (config self) < token_count ->
  1 < len sections ->
  Forall (fun s => count_tokens encode s <= chunk_target (config self))
    sections ->
  exists chunks,
    chunk_text encode decode sha256_hexdigest self fuel text card_hash
      token_count = Ok chunks /\
    map c_chunk_text chunks = sections /\
    map c_chunk_index chunks = map fst (enumerate_from 0 sections) /\
    join NL (map c_chunk_text chunks) = normalize_text text.
Proof.
  intros sections R T L F. unfold chunk_text, reduce_large.
  assert (B : (10000 <=? token_count) && (token_count <=? 100000) = false).
  { apply andb_false_iff.
    destruct (Z.leb_spec 10000 token_count), (Z.leb_spec token_count 100000);
      auto; lia. }
  rewrite B. cbn [bind].
  destruct (Z.leb_spec token_count (chunk_target (config self))); [lia|].
  fold sections.
  destruct (Z.leb_spec (len sections) 1); [lia|]. cbn [bind].
  rewrite (process_sections_fit self fuel card_hash sections F). cbn [app].
  eexists. split; [reflexivity|].
  assert (M : forall idx,
             map c_chunk_text
               (map (fun p => mk_chunk (compute_hash sha256_hexdigest (snd p))
                                card_hash (fst p) (snd p)
                                (count_tokens encode (snd p)))
                  (enumerate_from idx sections)) = sections).
  { intros idx. rewrite map_map. cbn [c_chunk_text].
    apply RankingFacts.enumerate_from_snd. }
  split; [apply M|]. split.
  - rewrite map_map. reflexivity.
  - rewrite M. apply heading_split_join.
Qed.

End SplitFacts.

Lemma sliding_window_short_input_witness :
  _sliding_window_split byte_encode byte_decode (builder_with 4 9) 1 "abc"
    = Ok ["abc"].
Proof.
  apply (sliding_window_short_input byte_encode byte_decode (builder_with 4 9)
           "abc" [97; 98; 99] 0 eq_refl).
  vm_compute. discriminate.
Defined.

Lemma sliding_window_chunk_count_witness :
  exists chunks,
    (forall fuel, (Z.to_nat 10 < fuel)%nat ->
       _sliding_window_split byte_encode byte_decode (builder_with 4 1) fuel
         "abcdefghij" = Ok chunks) /\
    len chunks = 1 + Z.max 0 ((10 - 1 - 1) / (4 - 1)).
Proof.
  apply (sliding_window_chunk_count byte_encode byte_decode (builder_with 4 1)
           "abcdefghij" [97; 98; 99; 100; 101; 102; 103; 104; 105; 106]
           eq_refl).
  - cbn. lia.
  - reflexivity.
Defined.

Lemma chunk_text_heading_sections_witness :
  exists chunks,
    chunk_text byte_encode byte_decode plain_digest (builder_with 10 2) 0
      ("## a" ++ NL ++ "xx" ++ NL ++ "## b" ++ NL ++ "yy")%string "h" 15
      = Ok chunks /\
    map c_chunk_text chunks
      = [("## a" ++ NL ++ "xx")%string; ("## b" ++ NL ++ "yy")%string] /\
    map c_chunk_index chunks = [0; 1] /\
    join NL (map c_chunk_text chunks)
      = ("## a" ++ NL ++ "xx" ++ NL ++ "## b" ++ NL ++ "yy")%string.
Proof.
  apply (chunk_text_heading_sections byte_encode byte_decode plain_digest
           (builder_with 10 2)
           ("## a" ++ NL ++ "xx" ++ NL ++ "## b" ++ NL ++ "yy")%string "h" 15 0).
  - lia.
  - cbn. lia.
  - reflexivity.
  - repeat constructor; vm_compute; discriminate.
Defined.

End SplittingFacts.

(** ** Ties and input order in the rankings *)

Module RankingTies.
Import Py PyFacts Ranking RankingFacts.

Section NoTies.
Context {A K : Type} `{OrdLaws K} (key : A -> K).

Lemma all_equal_repeat (m : list A) :
  (forall x y, In x m -> In y m -> x = y) ->
  m = [] \/ exists x, m = repeat x (List.length m).
Proof.
  destruct m as [|x m]; [now left|]. intros E. right. exists x.
  cbn [List.length repeat]. f_equal.
  assert (F : forall y, In y m -> y = x).
  { intros y I. apply E; [now right|now left]. }
  clear E. induction m as [|y m IH]; [reflexivity|].
  cbn [List.length repeat]. rewrite (F y) by now left. f_equal.
  apply IH. intros z I. apply F. now right.
Qed.

(** Without ties, the sorted list does not depend on the input order. *)
Lemma sorted_no_ties (l l' : list A) :
  Permutation l l' ->
  (forall a b, In a l -> In b l -> cmp (key a) (key b) = Eq -> a = b) ->
  sorted key l' = sorted key l.
Proof.
  intros P N.
  apply (stable_sorted_unique key); try apply sorted_StronglySorted.
  intros a. rewrite !sorted_stable.
  assert (E : forall x y, In x (filter (key_eqb key a) l) ->
                          In y (filter (key_eqb key a) l) -> x = y).
  { intros x y Ix Iy. apply filter_In in Ix as [Ix Kx], Iy as [Iy Ky].
    apply (N x y Ix Iy). unfold key_eqb in Kx, Ky.
    destruct (cmp (key a) (key x)) eqn:Cx; try discriminate.
    destruct (cmp (key a) (key y)) eqn:Cy; try discriminate.
    now rewrite <- (cmp_eq_compat _ _ (key y) Cx). }
  pose proof (IndexBuilderFacts.Permutation_filter (key_eqb key a) _ _ P)
    as Pf.
  destruct (all_equal_repeat _ E) as [Z|[x R]].
  - rewrite Z in *. now apply Permutation_nil in Pf.
  - rewrite R in Pf |- *. symmetry in Pf. now apply Permutation_repeat in Pf.
Qed.

End NoTies.

(** X14: candidates with equal sort keys keep the order in which they came
    in: the compute ranking and the package ranking only move a candidate
    past another one whose key differs. *)
Theorem ranking_ties_keep_input_order :
  (forall (instances : list instance) (a : instance),
     filter (key_eqb compute_sort_key a)
       (map row (rank_compute_instances instances))
     = filter (key_eqb compute_sort_key a) instances) /\
  (forall (packages : list package) (query : string) (a : package),
     filter (key_eqb (k8s_sort_key (query_lower query)) a)
       (map row (rank_k8s_packages packages query))
     = filter (key_eqb (k8s_sort_key (query_lower query)) a) packages).
Proof.
  split.
  - intros instances a. unfold rank_compute_instances.
    rewrite add_ranks_rows. apply sorted_stable.
  - intros packages query a. unfold rank_k8s_packages.
    rewrite add_ranks_rows. apply sorted_stable.
Qed.

(** X15: when no two candidates have equal sort keys, the compute ranking
    does not depend on the order in which the database returns the rows. *)
Theorem rank_compute_order_independent (instances instances' : list instance) :
  Permutation instances instances' ->
  (forall a b, In a instances -> In b instances ->
     cmp (compute_sort_key a) (compute_sort_key b) = Eq -> a = b) ->
  rank_compute_instances instances' = rank_compute_instances instances.
Proof.
  intros P N. unfold rank_compute_instances.
  now rewrite (sorted_no_ties compute_sort_key _ _ P N).
Qed.

(** X16: when no two candidates have equal sort keys for the query, the
    package ranking does not depend on the order in which the database
    returns the rows. *)
Theorem rank_k8s_order_independent (packages packages' : list package)
    (query : string) :
  Permutation packages packages' ->
  (forall a b, In a packages -> In b packages ->
     cmp (k8s_sort_key (query_lower query) a)
         (k8s_sort_key (query_lower query) b) = Eq -> a = b) ->
  rank_k8s_packages packages' query = rank_k8s_packages packages query.
Proof.
  intros P N. unfold rank_k8s_packages.
  now rewrite (sorted_no_ties (k8s_sort_key (query_lower query)) _ _ P N).
Qed.

Lemma rank_compute_order_independent_witness :
  rank_compute_instances [paid_instance; free_instance]
    = rank_compute_instances [free_instance; paid_instance].
Proof.
  apply rank_compute_order_independent.
  - apply perm_swap.
  - intros a b [<-|[<-|[]]] [<-|[<-|[]]]; vm_compute; congruence.
Defined.

Lemma rank_k8s_order_independent_witness :
  rank_k8s_packages [mlflow_operator_pkg; mlflow_pkg] "mlflow"
    = rank_k8s_packages [mlflow_pkg; mlflow_operator_pkg] "mlflow".
Proof.
  apply rank_k8s_order_independent.
  - apply perm_swap.
  - intros a b [<-|[<-|[]]] [<-|[<-|[]]]; vm_compute; congruence.
Defined.

End RankingTies.

(** ** What [rank_hf_models] returns, whatever the scores are *)

Module RankHfFacts.
Import Py PyFacts Ranking RankingFacts.

(** The insertion sort permutes its input for any comparison, also one
    without the laws of an order, as on floats. *)
Lemma insert_Permutation_any {A K} `{Ord K} (key : A -> K) (x : A)
    (l : list A) :
  Permutation (insert key x l) (x :: l).
Proof.
  induction l as [|y l IH]; cbn [insert]; [reflexivity|].
  destruct (lt (key y) (key x)); [|reflexivity].
  rewrite IH. apply perm_swap.
Qed.

Lemma sorted_Permutation_any {A K} `{Ord K} (key : A -> K) (l : list A) :
  Permutation (sorted key l) l.
Proof.
  induction l as [|x l IH]; cbn [sorted fold_right]; [reflexivity|].
  fold (sorted key l). rewrite insert_Permutation_any. now constructor.
Qed.

Section RankHf.
Variable math_log : Z -> float.
Variable round : float -> Z -> float.

Lemma popularity_cases (model : hf_model) :
  (countable model /\ exists p, popularity math_log model = Ok p) \/
  (~ countable model /\
   popularity math_log model = Raise (ValueError "math domain error")).
Proof.
  unfold popularity, log, countable.
  destruct (Z.leb_spec (or_Z (downloads model) 0 + 1) 0) as [D|D]; cbn [bind].
  - right. split; [lia|reflexivity].
  - destruct (Z.leb_spec (or_Z (likes model) 0 + 1) 0) as [L|L]; cbn [bind].
    + right. split; [lia|reflexivity].
    + left. split; [lia|]. now eexists.
Qed.

Lemma popularities_cases (models : list hf_model) (max_popularity : float) :
  match popularities math_log models max_popularity with
  | Ok r => Forall countable models /\ map fst (fst r) = models
  | Raise e =>
      e = ValueError "math domain error" /\
      exists model, In model models /\ ~ countable model
  | OutOfFuel => False
  end.
Proof.
  revert max_popularity.
  induction models as [|model rest IH]; intros mx; cbn [popularities].
  - split; [constructor|reflexivity].
  - destruct (popularity_cases model) as [[C [p ->]]|[C ->]]; cbn [bind].
    + specialize (IH (max_float mx p)).
      destruct (popularities math_log rest (max_float mx p)) as [r|e|];
        cbn [bind].
      * destruct IH as [F M]. cbn [fst map]. split; [now constructor|].
        now rewrite M.
      * destruct IH as [-> [m [I N]]]. split; [reflexivity|].
        exists m. split; [now right|exact N].
      * exact IH.
    + split; [reflexivity|]. exists model. split; [now left|exact C].
Qed.

Lemma rank_hf_models_cases (models : list hf_model)
    (relevance_scores : option (dict float)) :
  match rank_hf_models math_log round models relevance_scores with
  | Ok out =>
      Forall countable models /\
      Permutation (map rm_model out) models /\
      (forall i r, nth_error out i = Some r -> rm_rank r = Z.of_nat i + 1) /\
      (forall r, In r out ->
         relevance_score r
         = round (relevance_of relevance_scores (rm_model r)) 4)
  | Raise e =>
      (exists msg, e = ValueError msg) /\
      exists model, In model models /\ ~ countable model
  | OutOfFuel => False
  end.
Proof.
  unfold rank_hf_models.
  pose proof (popularities_cases models 0%float) as PC.
  destruct (popularities math_log models 0%float) as [r|e|]; cbn [bind];
    [|destruct PC as [-> PC]; split; [now eexists|exact PC]|exact PC].
  destruct PC as [F M].
  set (d := match relevance_scores with Some d => d | None => [] end).
  set (scored := map (score_model round d (snd r)) (fst r)).
  pose proof (sorted_Permutation_any snd scored) as P.
  split; [exact F|]. split; [|split].
  - rewrite map_map. cbn [rm_model].
    rewrite <- (map_map snd (fun x => rm_model (fst x))), enumerate_from_snd.
    rewrite (Permutation_map (fun x => rm_model (fst x)) P).
    unfold scored. rewrite map_map. cbn [score_model fst rm_model].
    now rewrite <- M.
  - intros i x E. rewrite nth_error_map in E.
    destruct (nth_error (enumerate_from 0 (sorted snd scored)) i) as [q|] eqn:Eq;
      [|discriminate].
    injection E as <-. apply enumerate_from_nth in Eq as [-> _].
    cbn [rm_rank]. lia.
  - intros x I. apply in_map_iff in I as [q [<- I]].
    cbn [relevance_score rm_model].
    assert (Is : In (snd q) (sorted snd scored)).
    { rewrite <- (enumerate_from_snd (sorted snd scored) 0). now apply in_map. }
    apply (Permutation_in _ P) in Is. unfold scored in Is.
    apply in_map_iff in Is as [mp [E _]]. rewrite <- E.
    reflexivity.
Qed.

(** X17: [rank_hf_models] either returns every model exactly once, with
    ranks 1, 2, ..., n in list order and as relevance score the rounded
    relevance given for the model id (0.5 when none is given), or raises
    [ValueError]; it raises exactly when some model has a download or like
    count of -1 or less. *)
Theorem rank_hf_models_structure (models : list hf_model)
    (relevance_scores : option (dict float)) :
  match rank_hf_models math_log round models relevance_scores with
  | Ok out =>
      Forall countable models /\
      Permutation (map rm_model out) models /\
      (forall i r, nth_error out i = Some r -> rm_rank r = Z.of_nat i + 1) /\
      (forall r, In r out ->
         relevance_score r
         = round (relevance_of relevance_scores (rm_model r)) 4)
  | Raise e =>
      (exists msg, e = ValueError msg) /\
      exists model, In model models /\ ~ countable model
  | OutOfFuel => False
  end.
Proof. apply rank_hf_models_cases. Qed.

End RankHf.

End RankHfFacts.

(** ** The search tools: SQL text, cut to [top_k], metadata *)

Module ToolsFacts.
Import Py PyFacts Ranking RankingFacts Tools.

Lemma len_slice_to {A} (l : list A) (k : Z) :
  len (slice_to l k) = cap k (len l).
Proof.
  unfold slice_to, slice, clamp_index, cap, len. cbn [Z.ltb Z.compare].
  rewrite length_firstn, length_skipn.
  destruct (Z.ltb_spec k 0); lia.
Qed.

Lemma slice_to_prefix {A} (l : list A) (k : Z) :
  exists rest, l = slice_to l k ++ rest.
Proof.
  unfold slice_to, slice, clamp_index. cbn [Z.ltb Z.compare].
  replace (Z.to_nat (Z.max 0 (Z.min (Z.of_nat (List.length l)) 0))) with O
    by lia.
  cbn [skipn]. eexists. symmetry. apply firstn_skipn.
Qed.

Lemma dense_ranks_prefix {A} (l1 l2 : list (ranked A)) :
  dense_ranks (l1 ++ l2) -> dense_ranks l1.
Proof.
  intros D i r E. apply D. rewrite nth_error_app1; [exact E|].
  apply nth_error_Some. congruence.
Qed.

Lemma StronglySorted_app_inv {A} (R : A -> A -> Prop) (l1 l2 : list A) :
  StronglySorted R (l1 ++ l2) ->
  StronglySorted R l1 /\ forall a b, In a l1 -> In b l2 -> R a b.
Proof.
  induction l1 as [|x l1 IH]; cbn [app]; intros S.
  - split; [constructor|intros a b []].
  - apply StronglySorted_inv in S as [S F]. destruct (IH S) as [S1 C].
    rewrite Forall_forall in F. split.
    + constructor; [exact S1|]. apply Forall_forall. intros y I.
      apply F. apply in_or_app. now left.
    + intros a b [<-|Ia] Ib; [|now apply C].
      apply F. apply in_or_app. now right.
Qed.

(** What cutting a ranking to its first [k] rows keeps. *)
Lemma top_k_of_ranking {A} (R : A -> A -> Prop) (ranked_results : list (ranked A))
    (k : Z) :
  StronglySorted R (map row ranked_results) -> dense_ranks ranked_results ->
  let results := slice_to ranked_results k in
  len results = cap k (len ranked_results) /\
  dense_ranks results /\
  StronglySorted R (map row results) /\
  exists rest,
    ranked_results = results ++ rest /\
    forall a b, In a results -> In b rest -> R (row a) (row b).
Proof.
  intros S D results. destruct (slice_to_prefix ranked_results k) as [rest E].
  fold results in E. split; [apply len_slice_to|].
  rewrite E in S, D. rewrite map_app in S.
  apply StronglySorted_app_inv in S as [S1 C].
  split; [now apply dense_ranks_prefix in D|]. split; [exact S1|].
  exists rest. split; [exact E|]. intros a b Ia Ib.
  apply C; now apply in_map.
Qed.

(** X18: the SQL text of the instance search depends only on which filters
    are given, never on their values, which all travel as parameters; the
    text holds exactly one placeholder for each parameter; and the
    availability condition is always its last clause. *)
Theorem compute_filters_parameterised (gpu_needed : option bool)
    (min_vram_gb : option Z) (gpu_model : option string)
    (max_price_monthly : option float) (provider region : option string)
    (min_vcpu : option Z) (min_ram_gb : option float) :
  let filters :=
    compute_filters gpu_needed min_vram_gb gpu_model max_price_monthly
      provider region min_vcpu min_ram_gb in
  fst filters
    = fst (compute_filters gpu_needed (blank 0 min_vram_gb)
             (blank EmptyString gpu_model) (blank 0%float max_price_monthly)
             (blank EmptyString provider) (blank EmptyString region)
             (blank 0 min_vcpu) (blank 0%float min_ram_gb)) /\
  placeholders (where_sql (fst filters)) = len (snd filters) /\
  last (fst filters) EmptyString = "(available = true OR available IS NULL)" /\
  len (snd filters)
    = len (filter (fun b : bool => b)
             [given min_vram_gb; given gpu_model; given max_price_monthly;
              given provider; given region; given min_vcpu;
              given min_ram_gb]).
Proof.
  destruct gpu_needed as [[|]|], min_vram_gb, gpu_model, max_price_monthly,
    provider, region, min_vcpu, min_ram_gb;
    repeat split; reflexivity.
Qed.


Lemma rank_k8s_sorted (rows : list package) (query : string) :
  let out := rank_k8s_packages rows query in
  Permutation (map row out) rows /\
  StronglySorted (pkg_precedes (query_lower query)) (map row out) /\
  dense_ranks out.
Proof.
  intros out.
  assert (R : map row out = sorted (k8s_sort_key (query_lower query)) rows)
    by apply add_ranks_rows.
  rewrite R. split; [apply sorted_Permutation|]. split.
  - eapply StronglySorted_impl; [|apply sorted_StronglySorted].
    apply k8s_key_le_precedes.
  - apply add_ranks_dense.
Qed.

Section SearchFacts.
Variable compute_top_k : Z.
Variable k8s_top_k : Z.
Variable run_instance_query :
  string -> option (list sql_param) -> outcome (list instance).
Variable run_package_query : list sql_param -> outcome (list package).


(** X20: whenever the package search returns, its results are the first
    rows of the ranking of all rows found for the query, cut by [top_k] as
    in the instance search, with ranks 1, 2, ... in order; no row left out
    precedes a returned row in the ranking order, and [total_found] is the
    number of rows found. *)
Theorem search_k8s_packages_response (query : string) (top_k : option Z)
    (resp : tool_response package) :
  search_k8s_packages k8s_top_k run_package_query query top_k = Ok resp ->
  let k := or_Z top_k k8s_top_k in
  let q := query_lower query in
  exists rows rest,
    run_package_query
      [PStr query; PStr ("%" ++ query ++ "%")%string;
       PStr ("%" ++ query ++ "%")%string; PStr query] = Ok rows /\
    Permutation (map row (t_results resp ++ rest)) rows /\
    dict_get (t_metadata resp) "total_found" = Some (JInt (len rows)) /\
    len (t_results resp) = cap k (len rows) /\
    dense_ranks (t_results resp) /\
    StronglySorted (pkg_precedes q) (map row (t_results resp)) /\
    (forall a b, In a (t_results resp) -> In b rest ->
       pkg_precedes q (row a) (row b)).
Proof.
  unfold search_k8s_packages.
  destruct (run_package_query _) as [rows|e|] eqn:Q; cbn [bind];
    try discriminate.
  intros [= <-]. cbn [t_results t_metadata].
  set (k := or_Z top_k k8s_top_k).
  destruct (rank_k8s_sorted rows query) as [P [S D]].
  destruct (top_k_of_ranking _ (rank_k8s_packages rows query) k S D)
    as [L [D' [S' [rest [E C]]]]].
  exists rows, rest. rewrite <- E.
  split; [reflexivity|]. split; [exact P|]. split.
  { cbn [dict_get]. rewrite String.eqb_refl. unfold len.
    now rewrite <- (Permutation_length P), length_map. }
  split.
  { rewrite L. unfold len.
    now rewrite <- (Permutation_length P), length_map. }
  split; [exact D'|]. split; [exact S'|exact C].
Qed.

End SearchFacts.


Lemma search_k8s_packages_response_witness :
  exists resp,
    search_k8s_packages 15 package_query "mlflow" None = Ok resp /\
    exists rows rest,
      package_query
        [PStr "mlflow"; PStr "%mlflow%"; PStr "%mlflow%"; PStr "mlflow"]
        = Ok rows /\
      Permutation (map row (t_results resp ++ rest)) rows /\
      dict_get (t_metadata resp) "total_found" = Some (JInt (len rows)) /\
      len (t_results resp) = cap 15 (len rows) /\
      dense_ranks (t_results resp) /\
      StronglySorted (pkg_precedes "mlflow") (map row (t_results resp)) /\
      (forall a b, In a (t_results resp) -> In b rest ->
         pkg_precedes "mlflow" (row a) (row b)).
Proof.
  eexists. split; [reflexivity|].
  apply (search_k8s_packages_response 15 package_query "mlflow" None).
  reflexivity.
Defined.

End ToolsFacts.

(** ** The model search: cut, ranks and relevance *)

Module HfSearchFacts.
Import Py PyFacts Ranking RankingFacts HfTool Tools ToolsFacts RankHfFacts.


Section Propagate.
Variable relevance_by_card : dict float.

Lemma propagate_other (models : list hf_model) (acc : dict float)
    (id : string) :
  ~ In id (map get_model_id models) ->
  dict_get (propagate relevance_by_card models acc) id = dict_get acc id.
Proof.
  revert acc. induction models as [|m models IH]; intros acc N;
    cbn [propagate]; [reflexivity|].
  cbn [map In] in N. rewrite IH by tauto.
  apply dict_get_set_ne. intros E. apply N. now left.
Qed.

Lemma propagate_get (models : list hf_model) (acc : dict float)
    (model : hf_model) :
  NoDup (map get_model_id models) -> In model models ->
  dict_get (propagate relevance_by_card models acc) (get_model_id model)
    = Some (card_relevance relevance_by_card model).
Proof.
  revert acc. induction models as [|m models IH]; intros acc N I;
    [destruct I|].
  cbn [map] in N. inversion N as [|? ? Nm N']; subst.
  cbn [propagate]. destruct I as [->|I].
  - rewrite propagate_other by exact Nm. apply dict_get_set_eq.
  - now apply IH.
Qed.

End Propagate.

Lemma relevance_fold_other (card_scores : list card_score) (acc : dict float)
    (h : string) :
  ~ In h (map card_hash card_scores) ->
  dict_get (fold_left
              (fun d cs => dict_set d (card_hash cs) (combined_similarity cs))
              card_scores acc) h = dict_get acc h.
Proof.
  revert acc. induction card_scores as [|c l IH]; intros acc N; cbn [fold_left];
    [reflexivity|].
  cbn [map In] in N. rewrite IH by tauto.
  apply dict_get_set_ne. intros E. apply N. now left.
Qed.

Lemma relevance_by_card_get (card_scores : list card_score) (cs : card_score) :
  NoDup (map card_hash card_scores) -> In cs card_scores ->
  dict_get (relevance_by_card card_scores) (card_hash cs)
    = Some (combined_similarity cs).
Proof.
  unfold relevance_by_card. generalize (@nil (string * float)) as acc.
  induction card_scores as [|c l IH]; intros acc N I; [destruct I|].
  cbn [map] in N. inversion N as [|? ? Nc N']; subst.
  cbn [fold_left]. destruct I as [->|I]; [|now apply IH].
  rewrite relevance_fold_other by exact Nc. apply dict_get_set_eq.
Qed.

Lemma relevance_by_card_none (card_scores : list card_score) (h : string) :
  ~ In h (map card_hash card_scores) ->
  dict_get (relevance_by_card card_scores) h = None.
Proof.
  intros N. unfold relevance_by_card. now rewrite relevance_fold_other.
Qed.

Section HfSearch.
Variable settings : Settings.
Variable math_log : Z -> float.
Variable round : float -> Z -> float.
Variable str_float : float -> string.
Variable embeddings_create : string -> string -> outcome (list float).
Variable run_chunk_search :
  string -> string -> string -> string -> Z -> outcome (list card_score).
Variable run_model_query :
  list string -> list string -> list string -> outcome (list hf_model).

#[local] Abbreviation search :=
  (search_hf_models settings math_log round str_float embeddings_create
     run_chunk_search run_model_query).

(** The steps of a search that returns. *)
Lemma search_hf_models_steps (query : string) (pipeline_tag : option string)
    (license_filter : option (list string)) (top_k : option Z)
    (resp : response) :
  search query pipeline_tag license_filter top_k = Ok resp ->
  exists embedding card_scores,
    embeddings_create (openai_embed_model settings) query = Ok embedding /\
    run_chunk_search (vector_literal str_float embedding)
      (hf_embedding_model_name settings) (hf_chunker_version settings)
      (vector_literal str_float embedding) (hf_chunk_top_k settings)
      = Ok card_scores /\
    ((card_scores = [] /\ results resp = [] /\
      dict_get (metadata resp) "total_found" = Some (VInt 0)) \/
     (card_scores <> [] /\
      exists license_params pipeline_params models ranked_models,
        run_model_query (map card_hash card_scores) license_params
          pipeline_params = Ok models /\
        rank_hf_models math_log round models
          (Some (propagate (relevance_by_card card_scores) models []))
          = Ok ranked_models /\
        results resp
          = slice_to ranked_models (or_Z top_k (hf_top_k settings)) /\
        dict_get (metadata resp) "total_found"
          = Some (VInt (len ranked_models)))) /\
    dict_get (metadata resp) "top_k"
      = Some (VInt (or_Z top_k (hf_top_k settings))).
Proof.
  unfold search_hf_models, get_query_embedding.
  destruct (embeddings_create _ _) as [embedding|e|]; cbn [bind];
    try discriminate.
  destruct (run_chunk_search _ _ _ _ _) as [card_scores|e|] eqn:CS; cbn [bind];
    try discriminate.
  intros E. exists embedding, card_scores. split; [reflexivity|].
  split; [exact CS|]. clear CS.
  destruct card_scores as [|cs card_scores].
  - injection E as <-. cbn [results metadata].
    split; [left; repeat split|reflexivity].
  - set (scores := cs :: card_scores) in *.
    destruct (run_model_query _ _ _) as [models|e|] eqn:MQ; cbn [bind] in E;
      try discriminate.
    fold (relevance_by_card scores) in E.
    destruct (rank_hf_models _ _ _ _) as [ranked_models|e|] eqn:RK;
      cbn [bind] in E; try discriminate.
    injection E as <-. cbn [results metadata].
    split; [|reflexivity]. right. split; [discriminate|].
    do 4 eexists. split; [exact MQ|]. split; [exact RK|].
    split; reflexivity.
Qed.


(** X22: in a search over chunk scores with one row per card and models
    with one row per model id, the relevance score of every result is the
    rounded combined similarity of the model's own card, and the rounded 0.0
    for a model whose card is not among the scored cards; the default 0.5 of
    the ranking is never used. *)
Theorem search_hf_models_relevance (query : string)
    (pipeline_tag : option string) (license_filter : option (list string))
    (top_k : option Z) (resp : response) :
  (forall a b c d e card_scores,
     run_chunk_search a b c d e = Ok card_scores ->
     NoDup (map card_hash card_scores)) ->
  (forall a b c models,
     run_model_query a b c = Ok models ->
     NoDup (map get_model_id models)) ->
  search query pipeline_tag license_filter top_k = Ok resp ->
  exists embedding card_scores,
    embeddings_create (openai_embed_model settings) query = Ok embedding /\
    run_chunk_search (vector_literal str_float embedding)
      (hf_embedding_model_name settings) (hf_chunker_version settings)
      (vector_literal str_float embedding) (hf_chunk_top_k settings)
      = Ok card_scores /\
    forall r, In r (results resp) ->
      (forall cs, In cs card_scores ->
         card_hash cs = model_card_hash (rm_model r) ->
         relevance_score r = round (combined_similarity cs) 4) /\
      (~ In (model_card_hash (rm_model r)) (map card_hash card_scores) ->
         relevance_score r = round 0%float 4).
Proof.
  intros U1 U2 E.
  destruct (search_hf_models_steps _ _ _ _ _ E)
    as [embedding [card_scores [EE [CS [[[_ [R _]]|[_ S]] _]]]]];
    exists embedding, card_scores; (split; [exact EE|]); (split; [exact CS|]).
  - rewrite R. intros r [].
  - destruct S as [lp [pp [models [ranked [MQ [RK [R _]]]]]]].
    pose proof (rank_hf_models_cases math_log round models
                  (Some (propagate (relevance_by_card card_scores) models [])))
      as C.
    rewrite RK in C. destruct C as [_ [P [_ RS]]].
    intros r I.
    assert (Ir : In r ranked).
    { destruct (slice_to_prefix ranked (or_Z top_k (hf_top_k settings)))
        as [rest Er].
      rewrite Er, <- R. apply in_or_app. now left. }
    assert (Im : In (rm_model r) models).
    { eapply Permutation_in; [exact P|]. now apply in_map. }
    rewrite (RS r Ir). unfold relevance_of.
    rewrite (propagate_get _ _ _ _ (U2 _ _ _ _ MQ) Im).
    unfold card_relevance. split.
    + intros cs Ic Eh.
      now rewrite <- Eh, (relevance_by_card_get _ _ (U1 _ _ _ _ _ _ CS) Ic).
    + intros N. now rewrite relevance_by_card_none.
Qed.

End HfSearch.


Lemma search_hf_models_relevance_witness :
  exists resp,
    search_hf_models default_settings (fun _ => 1%float) (fun x _ => x)
      (fun _ => "1.0") unit_embedding two_cards_search two_models
      "vision model" None None (Some 1) = Ok resp /\
    exists embedding card_scores,
      unit_embedding (openai_embed_model default_settings) "vision model"
        = Ok embedding /\
      two_cards_search (vector_literal (fun _ => "1.0") embedding)
        (hf_embedding_model_name default_settings)
        (hf_chunker_version default_settings)
        (vector_literal (fun _ => "1.0") embedding)
        (hf_chunk_top_k default_settings) = Ok card_scores /\
      forall r, In r (results resp) ->
        (forall cs, In cs card_scores ->
           card_hash cs = model_card_hash (rm_model r) ->
           relevance_score r = combined_similarity cs) /\
        (~ In (model_card_hash (rm_model r)) (map card_hash card_scores) ->
           relevance_score r = 0%float).
Proof.
  eexists. split; [reflexivity|].
  apply (search_hf_models_relevance default_settings (fun _ => 1%float)
           (fun x _ => x) (fun _ => "1.0") unit_embedding two_cards_search
           two_models "vision model" None None (Some 1)).
  - intros a b c d e cs [= <-]. cbn [map card_hash].
    repeat constructor; cbn; intuition discriminate.
  - intros a b c ms [= <-]. cbn [map get_model_id get_str model_id].
    repeat constructor; cbn; intuition discriminate.
  - reflexivity.
Defined.

End HfSearchFacts.

(** ** The embedding step *)

Module EmbeddingFacts.
Import Py PyFacts IndexBuilder Pipeline.

Lemma firstn_plus {A} (a b : nat) (l : list A) :
  firstn (a + b) l = firstn a l ++ firstn b (skipn a l).
Proof.
  revert l. induction a as [|a IH]; intros l; [reflexivity|].
  destruct l as [|x l]; cbn [Nat.add firstn skipn app].
  - now destruct b.
  - now rewrite IH.
Qed.

Lemma firstn_min_length {A} (n : nat) (l : list A) :
  firstn (Nat.min n (List.length l)) l = firstn n l.
Proof.
  destruct (Nat.le_ge_cases n (List.length l)) as [L|G].
  - now rewrite Nat.min_l.
  - rewrite Nat.min_r by exact G. now rewrite firstn_all, firstn_all2.
Qed.

Lemma slice_batch {A} (l : list A) (i b : Z) :
  0 <= i <= len l -> 0 <= b ->
  slice l i (i + b) = firstn (Z.to_nat b) (skipn (Z.to_nat i) l).
Proof.
  intros I B. unfold slice, clamp_index, len in *.
  destruct (Z.ltb_spec i 0); [lia|]. destruct (Z.ltb_spec (i + b) 0); [lia|].
  replace (Z.to_nat (Z.max 0 (Z.min (Z.of_nat (List.length l)) i)))
    with (Z.to_nat i) by lia.
  rewrite <- (firstn_min_length (Z.to_nat b)). f_equal.
  rewrite length_skipn. lia.
Qed.

Lemma batches_prefix {A} (l : list A) (b : Z) (m : nat) :
  0 < b -> (Z.of_nat m - 1) * b <= len l ->
  List.concat (map (fun j => slice l (Z.of_nat j * b) (Z.of_nat j * b + b))
                 (seq 0 m))
  = firstn (m * Z.to_nat b) l.
Proof.
  intros B. induction m as [|m IH]; intros L; [reflexivity|].
  rewrite seq_S, map_app, concat_app. cbn [map List.concat Nat.add].
  rewrite app_nil_r, IH by nia.
  rewrite slice_batch by nia.
  replace (S m * Z.to_nat b)%nat with (m * Z.to_nat b + Z.to_nat b)%nat by lia.
  rewrite firstn_plus. do 3 f_equal. nia.
Qed.

(** The batches, one after the other, are the list. *)
Lemma batches_concat {A} (l : list A) (b : Z) :
  0 < b ->
  List.concat (map (fun i => slice l i (i + b)) (range_from_zero (len l) b)) = l.
Proof.
  intros B. unfold range_from_zero.
  destruct (Z.gtb_spec b 0); [|lia]. rewrite map_map.
  assert (N : 0 <= len l) by (unfold len; lia).
  pose proof (Z.div_mod (len l + b - 1) b ltac:(lia)) as D.
  pose proof (Z.mod_pos_bound (len l + b - 1) b B) as M.
  set (q := (len l + b - 1) / b) in *.
  assert (Q : 0 <= q) by nia.
  rewrite batches_prefix by (try exact B; nia).
  apply firstn_all2. unfold len in *. nia.
Qed.

Lemma fold_left_concat {A B C} (f : A -> B -> A) (g : C -> list B)
    (l : list C) (acc : A) :
  fold_left (fun acc i => fold_left f (g i) acc) l acc
  = fold_left f (List.concat (map g l)) acc.
Proof.
  revert acc. induction l as [|i l IH]; intros acc; [reflexivity|].
  cbn [fold_left map List.concat]. now rewrite fold_left_app, IH.
Qed.

Section Embedding.
Variable embeddings_create : nat -> string -> string -> api_result.

#[local] Abbreviation embed := (embed_chunks embeddings_create).
#[local] Abbreviation embed_one := (embed_chunk embeddings_create).

Lemma embed_chunks_in_order (st : state) :
  0 < batch_size (s_config st) ->
  embed st = Ok (embed_in_order embeddings_create st).
Proof.
  intros B. unfold embed_chunks, embed_in_order.
  set (cfg := s_config st). set (pend := chunks_to_embed cfg (s_chunks st)).
  destruct (Z.eqb_spec (len pend) 0) as [Z|NZ].
  - assert (pend = []) as ->
      by (destruct pend; [reflexivity|unfold len in Z; cbn in Z; lia]).
    reflexivity.
  - destruct (Z.eqb_spec (batch_size cfg) 0); [unfold cfg in *; lia|].
    rewrite (fold_left_concat (embed_one cfg)
               (fun i => slice pend i (i + batch_size cfg))).
    rewrite batches_concat by exact B.
    now destruct (fold_left (embed_one cfg) pend _) as [[[rows calls] n'] fs].
Qed.

(** X23: for a batch size above zero the embedding step does not depend on
    the batch size: it returns what embedding the pending chunks one by one,
    in the order of their ids, gives. *)
Theorem embed_chunks_batching (st : state) :
  0 < batch_size (s_config st) ->
  embed st = Ok (embed_in_order embeddings_create st).
Proof. apply embed_chunks_in_order. Qed.

(** X24: with a batch size of zero or below nothing is embedded: when no
    chunk is pending the step returns with [chunks_embedded = 0]; when
    chunks are pending, a batch size of zero raises [ValueError] and a
    negative one returns with [chunks_embedded = 0], no call to the service,
    no failure recorded and the table as it was. *)
Theorem embed_chunks_batch_size_edges (st : state) :
  batch_size (s_config st) <= 0 ->
  let skipped := set_stats st (dict_set (s_stats st) "chunks_embedded" 0) in
  match chunks_to_embed (s_config st) (s_chunks st) with
  | [] => embed st = Ok skipped
  | _ :: _ =>
      if batch_size (s_config st) =? 0
      then exists msg, embed st = Raise (ValueError msg)
      else embed st = Ok skipped
  end.
Proof.
  intros B skipped. unfold embed_chunks.
  destruct (chunks_to_embed (s_config st) (s_chunks st)) as [|c pend] eqn:E;
    [reflexivity|].
  set (l := c :: pend) in *.
  destruct (Z.eqb_spec (len l) 0) as [Z|_];
    [unfold l, len in Z; cbn in Z; lia|].
  destruct (Z.eqb_spec (batch_size (s_config st)) 0) as [Z|NZ];
    [now eexists|].
  unfold range_from_zero. destruct (Z.gtb_spec (batch_size (s_config st)) 0);
    [lia|]. reflexivity.
Qed.

Lemma attempts_spec (retries : nat) (model text : string) :
  forall calls,
    let r := attempts embeddings_create retries model calls text in
    exists n,
      (1 <= n <= S retries)%nat /\
      snd r = (calls + n)%nat /\
      (forall j, (j < n - 1)%nat ->
         exists msg,
           embeddings_create (calls + j)%nat model text = ApiRateLimit msg) /\
      match embeddings_create (calls + n - 1)%nat model text with
      | ApiOk embedding => fst r = inl embedding
      | ApiError msg => fst r = inr msg
      | ApiRateLimit msg => n = S retries /\ fst r = inr msg
      end.
Proof.
  induction retries as [|retries IH]; intros calls; cbn [attempts].
  - exists 1%nat. replace (calls + 1 - 1)%nat with calls by lia.
    split; [lia|].
    destruct (embeddings_create calls model text) eqn:C; cbn [fst snd];
      (split; [lia|]); (split; [intros j J; lia|]); auto.
  - destruct (embeddings_create calls model text) as [e|msg|msg] eqn:C.
    + exists 1%nat. replace (calls + 1 - 1)%nat with calls by lia.
      rewrite C. cbn [fst snd]. repeat split; try lia; reflexivity.
    + destruct (IH (S calls)) as [n [N [S1 [R F]]]].
      exists (S n). split; [lia|]. split; [rewrite S1; lia|]. split.
      * intros [|j] J.
        -- exists msg. now rewrite Nat.add_0_r.
        -- destruct (R j ltac:(lia)) as [m Em]. exists m.
           now replace (calls + S j)%nat with (S calls + j)%nat by lia.
      * replace (calls + S n - 1)%nat with (S calls + n - 1)%nat by lia.
        destruct (embeddings_create (S calls + n - 1) model text);
          try exact F. destruct F as [-> F]. now split.
    + exists 1%nat. replace (calls + 1 - 1)%nat with calls by lia.
      rewrite C. cbn [fst snd]. repeat split; try lia; reflexivity.
Qed.

(** X25: [generate_embedding] calls the service at least once and at most
    five times, one call after the other; every call but the last one hit
    the rate limit; it returns the vector of the last call, or fails with
    the error of the last call, which is a rate limit only at the fifth
    call: any other error is not retried. *)
Theorem generate_embedding_retry (cfg : Config) (calls : nat) (text : string) :
  let r := generate_embedding embeddings_create cfg calls text in
  exists n,
    (1 <= n <= 5)%nat /\
    snd r = (calls + n)%nat /\
    (forall j, (j < n - 1)%nat ->
       exists msg,
         embeddings_create (calls + j)%nat (embed_model cfg) text
         = ApiRateLimit msg) /\
    match embeddings_create (calls + n - 1)%nat (embed_model cfg) text with
    | ApiOk embedding => fst r = inl embedding
    | ApiError msg => fst r = inr msg
    | ApiRateLimit msg => n = 5%nat /\ fst r = inr msg
    end.
Proof. apply (attempts_spec 4). Qed.

Lemma set_embedding_Forall2 (id : Z) (e : list float) (rows : list chunk_row) :
  Forall2 (fun r r' => r' = if k_id r =? id then with_embedding r e else r)
    rows (set_embedding id e rows).
Proof.
  unfold set_embedding. induction rows as [|r rows IH]; cbn [map];
    constructor; auto.
Qed.

Lemma Forall2_compose {A} (R S T : A -> A -> Prop) (l1 l2 l3 : list A) :
  (forall a b c, R a b -> S b c -> T a c) ->
  Forall2 R l1 l2 -> Forall2 S l2 l3 -> Forall2 T l1 l3.
Proof.
  intros C F. revert l3. induction F as [|a b l1 l2 Rab F IH]; intros l3 G;
    inversion G; subst; constructor; eauto.
Qed.

Lemma Forall2_same {A} (R : A -> A -> Prop) (l : list A) :
  (forall a, R a a) -> Forall2 R l l.
Proof. intros Rr. induction l; constructor; auto. Qed.

Lemma Forall2_In_l {A} (R : A -> A -> Prop) (l l' : list A) (a : A) :
  Forall2 R l l' -> In a l -> exists b, In b l' /\ R a b.
Proof.
  induction 1 as [|x y l l' Rxy F IH]; intros I; [destruct I|].
  destruct I as [->|I].
  - exists y. split; [now left|exact Rxy].
  - destruct (IH I) as [b [Ib Rb]]. exists b. split; [now right|exact Rb].
Qed.

Lemma Forall2_In_r {A} (R : A -> A -> Prop) (l l' : list A) (b : A) :
  Forall2 R l l' -> In b l' -> exists a, In a l /\ R a b.
Proof.
  induction 1 as [|x y l l' Rxy F IH]; intros I; [destruct I|].
  destruct I as [->|I].
  - exists x. split; [now left|exact Rxy].
  - destruct (IH I) as [a [Ia Ra]]. exists a. split; [now right|exact Ra].
Qed.

(** What the loop over the pending chunks leaves: the ids embedded, the
    failures added, the rows and the calls. *)
Lemma embed_fold_spec (cfg : Config) (pend : list chunk_row) :
  forall rows calls count failures,
    let r := fold_left (embed_one cfg) pend (rows, calls, count, failures) in
    exists succ failed,
      snd r = failures
              ++ map (fun p => EmbeddingFailure (fst p) (snd p)) failed /\
      snd (fst r) = count + len succ /\
      Permutation (succ ++ map fst failed) (map k_id pend) /\
      Forall2 (fun r r' =>
                 (In (k_id r) succ -> exists e, r' = with_embedding r e) /\
                 (~ In (k_id r) succ -> r' = r))
        rows (fst (fst (fst r))) /\
      (calls + List.length pend <= snd (fst (fst r))
       <= calls + 5 * List.length pend)%nat.
Proof.
  induction pend as [|c pend IH]; intros rows calls count failures.
  - exists [], []. cbn [fold_left fst snd map app List.length].
    rewrite app_nil_r. split; [reflexivity|].
    split; [unfold len; cbn [List.length]; lia|]. split; [constructor|].
    split; [|lia].
    apply Forall2_same. intros a. split; [intros []|reflexivity].
  - cbn [fold_left].
    destruct (attempts_spec 4 (embed_model cfg) (k_chunk_text c) calls)
      as [n [N [C _]]].
    fold (generate_embedding embeddings_create cfg calls (k_chunk_text c)) in C.
    remember (embed_one cfg (rows, calls, count, failures) c) as acc1 eqn:A.
    unfold embed_chunk in A.
    destruct (generate_embedding embeddings_create cfg calls (k_chunk_text c))
      as [[e|msg] calls'] eqn:G; cbn [snd] in C; subst calls' acc1.
    + destruct (IH (set_embedding (k_id c) e rows) (calls + n)%nat (count + 1)
                  failures) as [succ [failed [F [K [P [R L]]]]]].
      exists (k_id c :: succ), failed.
      split; [exact F|]. split; [rewrite K; unfold len; cbn [List.length]; lia|].
      split; [cbn [app map]; now constructor|]. split; [|cbn [List.length]; lia].
      eapply Forall2_compose; [|apply set_embedding_Forall2|exact R].
      intros a b d -> [R1 R2]. cbn beta in *.
      destruct (Z.eqb_spec (k_id a) (k_id c)) as [E|NE].
      * split; [|intros X; exfalso; apply X; now left].
        intros _. destruct (in_dec Z.eq_dec (k_id a) succ) as [I|NI].
        -- destruct (R1 I) as [e' ->]. now exists e'.
        -- rewrite (R2 NI). now exists e.
      * split.
        -- intros [X|I]; [congruence|]. exact (R1 I).
        -- intros X. apply R2. intros I. apply X. now right.
    + destruct (IH rows (calls + n)%nat count
                  (failures ++ [EmbeddingFailure (k_id c) msg]))
        as [succ [failed [F [K [P [R L]]]]]].
      exists succ, ((k_id c, msg) :: failed).
      split; [rewrite F, <- app_assoc; reflexivity|]. split; [exact K|].
      split; [|split; [exact R|cbn [List.length]; lia]].
      cbn [map fst]. rewrite <- Permutation_middle. now constructor.
Qed.

Lemma failed_ids_app (l1 l2 : list failure_entry) :
  failed_ids (l1 ++ l2) = failed_ids l1 ++ failed_ids l2.
Proof. unfold failed_ids. now rewrite flat_map_app. Qed.

Lemma failed_ids_map (failed : list (Z * string)) :
  failed_ids (map (fun p => EmbeddingFailure (fst p) (snd p)) failed)
  = map fst failed.
Proof.
  induction failed as [|p l IH]; [reflexivity|].
  cbn [map failed_ids flat_map app]. f_equal. exact IH.
Qed.

Lemma NoDup_map_inj {A B} (f : A -> B) (l : list A) (a b : A) :
  NoDup (map f l) -> In a l -> In b l -> f a = f b -> a = b.
Proof.
  induction l as [|x l IH]; intros N Ia Ib E; [destruct Ia|].
  cbn [map] in N. inversion N as [|? ? Nx N']; subst.
  destruct Ia as [->|Ia], Ib as [->|Ib]; auto.
  - exfalso. apply Nx. rewrite E. now apply in_map.
  - exfalso. apply Nx. rewrite <- E. now apply in_map.
Qed.

(** Rows selected from a table with unique keys have unique keys. *)
Lemma NoDup_map_filter {Row Key} (key : Row -> Key) (keep : Row -> bool)
    (rows : list Row) (unique : NoDup (map key rows)) :
  NoDup (map key (filter keep rows)).
Proof.
  revert unique. induction rows as [|x l IH]; cbn [map filter]; intros N;
    [constructor|].
  inversion N as [|? ? Nx N']; subst.
  destruct (keep x); cbn [map]; [|now apply IH].
  constructor; [|now apply IH].
  intros I. apply Nx. apply in_map_iff in I as [y [E I]].
  apply filter_In in I as [I _]. rewrite <- E. now apply in_map.
Qed.

Lemma chunks_to_embed_In (cfg : Config) (rows : list chunk_row)
    (r : chunk_row) :
  In r (chunks_to_embed cfg rows) <-> In r rows /\ is_pending cfg r = true.
Proof.
  unfold chunks_to_embed. rewrite <- filter_In.
  split; apply Permutation_in;
    [|symmetry]; apply sorted_Permutation.
Qed.

Lemma is_pending_with_embedding (cfg : Config) (r : chunk_row)
    (e : list float) :
  is_pending cfg (with_embedding r e) = false.
Proof. reflexivity. Qed.

(** X26: the accounts of the embedding step, for a batch size above zero
    and a table with unique ids: every pending chunk is either embedded or
    recorded as a failure ([chunks_embedded] plus the failures added is the
    number of pending chunks); the chunks still pending afterwards are the
    ones recorded as failures; no row is added, removed or moved, a row
    changes at most in its embedding, and a row that was not pending does
    not change; the service is called at least once and at most five times
    for each pending chunk. *)
Theorem embed_chunks_accounting (st : state) :
  let cfg := s_config st in
  let pend := chunks_to_embed cfg (s_chunks st) in
  0 < batch_size cfg ->
  NoDup (map k_id (s_chunks st)) ->
  exists st' added,
    embed st = Ok st' /\
    s_failures st' = s_failures st ++ added /\
    dict_get (s_stats st') "chunks_embedded" = Some (len pend - len added) /\
    0 <= len pend - len added /\
    (forall id, In id (map k_id (chunks_to_embed cfg (s_chunks st')))
                <-> In id (failed_ids added)) /\
    Forall2 (fun r r' =>
               same_chunk r r' /\
               (is_pending cfg r = false -> r' = r) /\
               (k_embedding r' = None -> r' = r))
      (s_chunks st) (s_chunks st') /\
    (s_calls st + List.length pend <= s_calls st'
     <= s_calls st + 5 * List.length pend)%nat.
Proof.
  intros cfg pend B U.
  exists (embed_in_order embeddings_create st).
  unfold embed_in_order. fold cfg pend.
  destruct (embed_fold_spec cfg pend (s_chunks st) (s_calls st) 0
              (s_failures st)) as [succ [failed [F [K [P [R L]]]]]].
  destruct (fold_left (embed_one cfg) pend _) as [[[rows calls] n] fs] eqn:E.
  cbn [fst snd] in F, K, R, L.
  exists (map (fun p => EmbeddingFailure (fst p) (snd p)) failed).
  cbn [s_failures s_stats s_chunks s_calls].
  assert (Lp : len pend = len succ + len failed).
  { unfold len. rewrite <- (length_map k_id pend), <- (Permutation_length P).
    rewrite length_app, length_map. lia. }
  assert (Up : NoDup (map k_id pend)).
  { apply (Permutation_NoDup
             (l := map k_id (filter (is_pending cfg) (s_chunks st))));
      [|now apply NoDup_map_filter].
    apply Permutation_map. symmetry. apply sorted_Permutation. }
  assert (Us : NoDup (succ ++ map fst failed))
    by (apply (Permutation_NoDup (Permutation_sym P)); exact Up).
  assert (Sp : forall r, In r (s_chunks st) -> In (k_id r) succ ->
                 is_pending cfg r = true).
  { intros r Ir Is.
    assert (Ip : In (k_id r) (map k_id pend)).
    { eapply Permutation_in; [exact P|]. apply in_or_app. now left. }
    apply in_map_iff in Ip as [r0 [E0 I0]].
    apply chunks_to_embed_In in I0 as [I0 P0].
    now rewrite <- (NoDup_map_inj k_id _ _ _ U I0 Ir E0). }
  split.
  { rewrite (embed_chunks_in_order st B). unfold embed_in_order.
    fold cfg pend. now rewrite E. }
  split; [exact F|]. split.
  { rewrite dict_get_set_eq, K. f_equal. unfold len in *.
    rewrite length_map. lia. }
  split; [unfold len in *; rewrite length_map; lia|].
  split; [|split; [|exact L]].
  - intros id. rewrite failed_ids_map. split.
    + intros I. apply in_map_iff in I as [r' [<- I]].
      apply chunks_to_embed_In in I as [I Pr'].
      destruct (Forall2_In_r _ _ _ _ R I) as [r [Ir [R1 R2]]].
      destruct (in_dec Z.eq_dec (k_id r) succ) as [Is|Ns].
      * destruct (R1 Is) as [e ->]. discriminate Pr'.
      * rewrite (R2 Ns) in *.
        assert (Ip : In (k_id r) (map k_id pend)).
        { apply in_map. apply chunks_to_embed_In. now split. }
        apply (Permutation_in _ (Permutation_sym P)) in Ip.
        apply in_app_or in Ip as [Is|If]; [contradiction|exact If].
    + intros If.
      assert (Ip : In id (map k_id pend)).
      { eapply Permutation_in; [exact P|]. apply in_or_app. now right. }
      apply in_map_iff in Ip as [r [<- Ir]].
      apply chunks_to_embed_In in Ir as [Ir Pr].
      destruct (Forall2_In_l _ _ _ _ R Ir) as [r' [Ir' [_ R2]]].
      assert (Ns : ~ In (k_id r) succ).
      { intros Is. apply NoDup_app_remove_l in Us as Uf.
        clear -Us Is If. induction succ as [|x succ IH]; [destruct Is|].
        cbn [app] in Us. inversion Us as [|? ? Nx Us']; subst.
        destruct Is as [->|Is]; [|now apply IH].
        apply Nx. apply in_or_app. now right. }
      rewrite (R2 Ns) in Ir'. apply in_map. apply chunks_to_embed_In.
      now split.
  - clear -R Sp. revert R Sp. generalize (s_chunks st) as l.
    intros l R. induction R as [|r r' l l' [R1 R2] F IH]; intros Sp;
      constructor.
    + destruct (in_dec Z.eq_dec (k_id r) succ) as [Is|Ns].
      * destruct (R1 Is) as [e ->]. split; [repeat split|]. split.
        -- intros Np. rewrite (Sp r (or_introl eq_refl) Is) in Np.
           discriminate.
        -- discriminate.
      * rewrite (R2 Ns). repeat split.
    + apply IH. intros x Ix. apply Sp. now right.
Qed.

End Embedding.

Lemma embed_chunks_accounting_witness :
  exists st' added,
    embed_chunks slow_service (state_with 1 three_chunks) = Ok st' /\
    s_failures st' = [] ++ added /\
    dict_get (s_stats st') "chunks_embedded" = Some (2 - len added) /\
    0 <= 2 - len added /\
    (forall id,
       In id (map k_id
                (chunks_to_embed (s_config (state_with 1 three_chunks))
                   (s_chunks st')))
       <-> In id (failed_ids added)) /\
    Forall2 (fun r r' =>
               same_chunk r r' /\
               (is_pending (s_config (state_with 1 three_chunks)) r = false ->
                r' = r) /\
               (k_embedding r' = None -> r' = r))
      three_chunks (s_chunks st') /\
    (0 + 2 <= s_calls st' <= 0 + 5 * 2)%nat.
Proof.
  apply (embed_chunks_accounting slow_service (state_with 1 three_chunks)).
  - reflexivity.
  - cbn. repeat constructor; cbn; intuition discriminate.
Defined.

Lemma embed_chunks_batching_witness :
  embed_chunks slow_service (state_with 1 three_chunks)
  = Ok (embed_in_order slow_service (state_with 1 three_chunks)) /\
  embed_chunks slow_service (state_with 1 three_chunks)
  = Ok (mk_state (s_config (state_with 1 three_chunks))
          (mk_database [] [] [] [])
          [mk_chunk_row 2 "c2" "h" 1 "two" 1 "text-embedding-3-small"
             "hf_chunker_v1" None;
           mk_chunk_row 1 "c1" "h" 0 "one" 1 "text-embedding-3-small"
             "hf_chunker_v1" (Some [1%float]);
           mk_chunk_row 3 "c3" "g" 0 "three" 1 "text-embedding-3-small"
             "hf_chunker_v1" (Some [2%float])]
          [("chunks_embedded", 1)]
          [EmbeddingFailure 2 "timeout"] 4).
Proof.
  split; [|reflexivity].
  apply (embed_chunks_batching slow_service (state_with 1 three_chunks)).
  reflexivity.
Defined.

Lemma embed_chunks_batch_size_edges_witness :
  exists msg,
    embed_chunks slow_service (state_with 0 three_chunks)
    = Raise (ValueError msg).
Proof.
  apply (embed_chunks_batch_size_edges slow_service (state_with 0 three_chunks)).
  cbn. lia.
Defined.

End EmbeddingFacts.

(** ** The chunking step and the chunk table *)

Module ChunkStepFacts.
Import Py PyFacts IndexBuilder IndexBuilderFacts Pipeline.

Lemma key_eq_spec (a b : string * (string * string)) :
  key_eq a b = true <-> a = b.
Proof.
  destruct a as [a1 [a2 a3]], b as [b1 [b2 b3]]. unfold key_eq. cbn [fst snd].
  rewrite !andb_true_iff, !String.eqb_eq. split.
  - intros [[-> ->] ->]. reflexivity.
  - intros [= -> -> ->]. auto.
Qed.

Lemma key_present_spec (rows : list chunk_row) (k : string * (string * string)) :
  existsb (fun r => key_eq (row_key r) k) rows = true <-> In k (map row_key rows).
Proof.
  rewrite existsb_exists, in_map_iff. split.
  - intros [r [I E]]. exists r. split; [now apply key_eq_spec|exact I].
  - intros [r [E I]]. exists r. split; [exact I|now apply key_eq_spec].
Qed.

Section ChunkStep.
Variable encode : string -> option (list Z).
Variable decode : list Z -> string.
Variable sha256_hexdigest : string -> string.
Variable fresh_id : list chunk_row -> chunk -> Z.

#[local] Abbreviation cards_loop :=
  (chunk_cards encode decode sha256_hexdigest).
#[local] Abbreviation insert_all := (insert_chunks fresh_id).
#[local] Abbreviation chunk_step :=
  (chunk_all_canonical_cards encode decode sha256_hexdigest fresh_id).

(** The row the insert writes for a chunk. *)
Lemma insert_chunks_acc (cfg : Config) (all_chunks : list chunk) :
  forall rows count,
    let r := fold_left (insert_chunk fresh_id cfg) all_chunks (rows, count) in
    exists new,
      fst r = rows ++ new /\
      snd r = count + len new /\
      Forall (fun row =>
                k_embedding row = None /\
                k_chunker_version row = chunker_version cfg /\
                k_embedding_model_name row = embed_model cfg /\
                exists c, In c all_chunks /\
                  k_chunk_hash row = c_chunk_hash c /\
                  k_card_hash row = c_card_hash c /\
                  k_chunk_index row = c_chunk_index c /\
                  k_chunk_text row = c_chunk_text c /\
                  k_token_count row = c_token_count c) new /\
      (forall c, In c all_chunks ->
         In (chunk_key cfg c) (map row_key (fst r))) /\
      (NoDup (map row_key rows) -> NoDup (map row_key (fst r))).
Proof.
  induction all_chunks as [|c cs IH]; intros rows count.
  - exists []. cbn [fold_left fst snd]. rewrite app_nil_r.
    split; [reflexivity|]. split; [unfold len; cbn [List.length]; lia|].
    split; [constructor|]. split; [intros c []|auto].
  - cbn [fold_left].
    remember (insert_chunk fresh_id cfg (rows, count) c) as acc1 eqn:A.
    unfold insert_chunk in A. cbn [fst snd] in A.
    destruct (existsb _ rows) eqn:X; subst acc1.
    + destruct (IH rows count) as [new [F [K [N [P U]]]]].
      exists new. split; [exact F|]. split; [exact K|]. split.
      { eapply Forall_impl; [|exact N].
        intros row [E1 [E2 [E3 [c' [I R]]]]]. repeat split; try assumption.
        exists c'. split; [now right|exact R]. }
      split; [|exact U].
      intros c' [<-|I]; [|now apply P].
      apply key_present_spec in X. rewrite F, map_app.
      apply in_or_app. now left.
    + set (row := mk_chunk_row (fresh_id rows c) (c_chunk_hash c)
                    (c_card_hash c) (c_chunk_index c) (c_chunk_text c)
                    (c_token_count c) (embed_model cfg) (chunker_version cfg)
                    None).
      destruct (IH (rows ++ [row]) (count + 1)) as [new [F [K [N [P U]]]]].
      exists (row :: new).
      split; [rewrite F, <- app_assoc; reflexivity|].
      split; [rewrite K; unfold len; cbn [List.length]; lia|]. split.
      { constructor.
        - repeat split. exists c. split; [now left|repeat split].
        - eapply Forall_impl; [|exact N].
          intros r [E1 [E2 [E3 [c' [I R]]]]]. repeat split; try assumption.
          exists c'. split; [now right|exact R]. }
      split.
      { intros c' [<-|I]; [|now apply P].
        rewrite F, !map_app. apply in_or_app. left. apply in_or_app. right.
        now left. }
      intros Nd. apply U. rewrite map_app. cbn [map].
      apply NoDup_app; [exact Nd|repeat constructor; intros []|].
      intros k Ik [<-|[]].
      apply key_present_spec in Ik.
      change (row_key row) with (chunk_key cfg c) in Ik. congruence.
Qed.

(** Chunks whose keys are all in the table add no row. *)
Lemma insert_chunks_present (cfg : Config) (all_chunks : list chunk)
    (rows : list chunk_row) (count : Z) :
  (forall c, In c all_chunks -> In (chunk_key cfg c) (map row_key rows)) ->
  fold_left (insert_chunk fresh_id cfg) all_chunks (rows, count) = (rows, count).
Proof.
  induction all_chunks as [|c cs IH]; intros P; [reflexivity|].
  cbn [fold_left].
  assert (X : existsb (fun r => key_eq (row_key r) (chunk_key cfg c)) rows = true)
    by (apply key_present_spec, P; now left).
  assert (A : insert_chunk fresh_id cfg (rows, count) c = (rows, count))
    by (unfold insert_chunk; cbn [fst]; now rewrite X).
  rewrite A. apply IH. intros c' I. apply P. now right.
Qed.

(** The loop over the cards with its accumulators set apart. *)
Lemma chunk_cards_acc (fuel : nat) (self : RAGIndexBuilder)
    (cards : list canonical_card) :
  forall all_chunks chunk_stats failures,
    cards_loop fuel self cards all_chunks chunk_stats failures
    = match cards_loop fuel self cards [] [] [] with
      | Ok (a, s, f) => Ok (all_chunks ++ a, chunk_stats ++ s, failures ++ f)
      | Raise e => Raise e
      | OutOfFuel => OutOfFuel
      end.
Proof.
  induction cards as [|card rest IH]; intros a s f; cbn [chunk_cards].
  - now rewrite !app_nil_r.
  - destruct (chunk_text _ _ _ _ _ _ _ _) as [chunks|e|]; [| |reflexivity].
    + rewrite (IH (a ++ chunks)), (IH ([] ++ chunks)).
      destruct (cards_loop fuel self rest [] [] []) as [[[a' s'] f']|e|];
        try reflexivity.
      cbn [app]. now rewrite <- !app_assoc.
    + rewrite (IH a s (f ++ _)), (IH [] [] ([] ++ _)).
      destruct (cards_loop fuel self rest [] [] []) as [[[a' s'] f']|e'|];
        try reflexivity.
      cbn [app]. now rewrite <- !app_assoc.
Qed.

Lemma chunk_cards_config (fuel : nat) (self1 self2 : RAGIndexBuilder)
    (cards : list canonical_card) :
  config self1 = config self2 ->
  forall a s f,
    cards_loop fuel self1 cards a s f = cards_loop fuel self2 cards a s f.
Proof.
  intros C. induction cards as [|card rest IH]; intros a s f;
    cbn [chunk_cards]; [reflexivity|].
  rewrite (chunk_text_config encode decode sha256_hexdigest self1 self2)
    by now rewrite C.
  destruct (chunk_text _ _ _ _ _ _ _ _); auto.
Qed.

(** The steps of a chunking run that returns. *)
Lemma chunk_step_returns (fuel : nat) (st st' : state) :
  chunk_step fuel st = Ok st' ->
  let cfg := s_config st in
  exists all_chunks chunk_stats failed,
    cards_loop fuel (to_builder st)
      (canonical_cards (s_db st) (max_canon_models cfg)) [] [] []
      = Ok (all_chunks, chunk_stats, failed) /\
    s_config st' = cfg /\ s_db st' = s_db st /\ s_calls st' = s_calls st /\
    s_failures st' = s_failures st ++ failed /\
    s_chunks st' = fst (insert_all cfg (s_chunks st) all_chunks) /\
    dict_get (s_stats st') "total_chunks_generated" = Some (len all_chunks) /\
    dict_get (s_stats st') "chunks_inserted"
      = Some (snd (insert_all cfg (s_chunks st) all_chunks)).
Proof.
  intros E cfg. unfold chunk_all_canonical_cards in E. fold cfg in E.
  rewrite chunk_cards_acc in E.
  destruct (cards_loop fuel (to_builder st) _ [] [] [])
    as [[[a s] f]|e|]; cbn [bind] in E; try discriminate.
  cbn [app] in E.
  destruct (insert_all cfg (s_chunks st) a) as [rows n] eqn:I.
  injection E as <-. exists a, s, f. cbn [s_config s_db s_calls s_failures
                                           s_chunks s_stats fst snd].
  rewrite I. cbn [fst snd].
  repeat split;
    repeat (rewrite dict_get_set_eq
            || rewrite dict_get_set_ne by discriminate);
    reflexivity.
Qed.

(** X27: the chunking step only adds rows to [hf.card_chunks]: the rows
    that were there stay as they are, with their embeddings; every new row
    is a generated chunk under the configured chunker version and embedding
    model, without embedding; and when no two rows shared version, model
    and chunk hash before, none do afterwards: a chunk whose text is already
    stored for this version and model is dropped, also when it comes from
    another card.  The card tables are not written. *)
Theorem chunk_step_only_adds (fuel : nat) (st st' : state) :
  chunk_step fuel st = Ok st' ->
  let cfg := s_config st in
  exists new,
    s_chunks st' = s_chunks st ++ new /\
    Forall (fun row =>
              k_embedding row = None /\
              k_chunker_version row = chunker_version cfg /\
              k_embedding_model_name row = embed_model cfg) new /\
    (NoDup (map row_key (s_chunks st)) -> NoDup (map row_key (s_chunks st'))) /\
    s_db st' = s_db st.
Proof.
  intros E cfg.
  destruct (chunk_step_returns _ _ _ E)
    as [a [s [f [_ [_ [D [_ [_ [C _]]]]]]]]].
  fold cfg in C.
  destruct (insert_chunks_acc cfg a (s_chunks st) 0)
    as [new [F [_ [N [_ U]]]]].
  fold (insert_all cfg (s_chunks st) a) in F, U. rewrite <- C in F, U.
  exists new. split; [exact F|]. split; [|split; [exact U|exact D]].
  eapply Forall_impl; [|exact N]. intros row [E1 [E2 [E3 _]]]. auto.
Qed.

(** X28: a second chunking run over the same cards generates the same
    chunks and inserts none of them: the chunk table stays as the first run
    left it and [chunks_inserted] is 0; the cards that failed are recorded
    as failures a second time. *)
Theorem chunk_step_rerun (fuel : nat) (st st' : state) :
  chunk_step fuel st = Ok st' ->
  exists st'' added,
    chunk_step fuel st' = Ok st'' /\
    s_chunks st'' = s_chunks st' /\
    dict_get (s_stats st'') "chunks_inserted" = Some 0 /\
    dict_get (s_stats st'') "total_chunks_generated"
      = dict_get (s_stats st') "total_chunks_generated" /\
    s_failures st' = s_failures st ++ added /\
    s_failures st'' = s_failures st' ++ added.
Proof.
  intros E.
  destruct (chunk_step_returns _ _ _ E)
    as [a [s [f [L [Cf [D [_ [Fa [C [T _]]]]]]]]]].
  destruct (insert_chunks_acc (s_config st) a (s_chunks st) 0)
    as [new [_ [_ [_ [P _]]]]].
  fold (insert_all (s_config st) (s_chunks st) a) in P. rewrite <- C in P.
  assert (L' : cards_loop fuel (to_builder st')
                 (canonical_cards (s_db st') (max_canon_models (s_config st')))
                 [] [] [] = Ok (a, s, f)).
  { rewrite D, Cf, <- L. apply chunk_cards_config.
    unfold to_builder. cbn [config]. exact Cf. }
  unfold chunk_all_canonical_cards. rewrite chunk_cards_acc, L'. cbn [bind app].
  unfold insert_chunks. rewrite Cf.
  rewrite (insert_chunks_present (s_config st) a (s_chunks st') 0 P).
  eexists. exists f. split; [reflexivity|].
  cbn [s_chunks s_stats s_failures]. split; [reflexivity|]. split.
  { rewrite !dict_get_set_ne by discriminate. apply dict_get_set_eq. }
  split.
  { rewrite !dict_get_set_ne by discriminate. rewrite dict_get_set_eq.
    now rewrite T. }
  split; [exact Fa|reflexivity].
Qed.

End ChunkStep.

Lemma chunk_step_only_adds_witness :
  exists st',
    chunk_all_canonical_cards byte_encode byte_decode plain_digest next_row_id
      1 (step_canonical (step_exclusion fresh_state)) = Ok st' /\
    exists new,
      s_chunks st' = [] ++ new /\
      Forall (fun row =>
                k_embedding row = None /\
                k_chunker_version row = "hf_chunker_v1" /\
                k_embedding_model_name row = "text-embedding-3-small") new /\
      (NoDup (map row_key []) -> NoDup (map row_key (s_chunks st'))) /\
      s_db st' = s_db (step_canonical (step_exclusion fresh_state)).
Proof.
  eexists. split; [vm_compute; reflexivity|].
  apply (chunk_step_only_adds byte_encode byte_decode plain_digest next_row_id
           1 (step_canonical (step_exclusion fresh_state))).
  vm_compute. reflexivity.
Defined.

Lemma chunk_step_rerun_witness :
  exists st',
    chunk_all_canonical_cards byte_encode byte_decode plain_digest next_row_id
      1 (step_canonical (step_exclusion fresh_state)) = Ok st' /\
    exists st'' added,
      chunk_all_canonical_cards byte_encode byte_decode plain_digest
        next_row_id 1 st' = Ok st'' /\
      s_chunks st'' = s_chunks st' /\
      dict_get (s_stats st'') "chunks_inserted" = Some 0 /\
      dict_get (s_stats st'') "total_chunks_generated"
        = dict_get (s_stats st') "total_chunks_generated" /\
      s_failures st' = [] ++ added /\
      s_failures st'' = s_failures st' ++ added.
Proof.
  eexists. split; [vm_compute; reflexivity|].
  apply (chunk_step_rerun byte_encode byte_decode plain_digest next_row_id 1
           (step_canonical (step_exclusion fresh_state))).
  vm_compute. reflexivity.
Defined.

End ChunkStepFacts.

(** ** The steps together *)

Module PipelineFacts.
Import Py PyFacts IndexBuilder IndexBuilderFacts TextSpec ExclusionFacts
  CanonicalFacts Pipeline.

Lemma In_firstn {A} (n : nat) (l : list A) (x : A) :
  In x (firstn n l) -> In x l.
Proof.
  intros I. rewrite <- (firstn_skipn n l). apply in_or_app. now left.
Qed.

Lemma dict_set_In {V} (d : dict V) (k k0 : string) (v v0 : V) :
  In (k0, v0) (dict_set d k v) -> (k0, v0) = (k, v) \/ In (k0, v0) d.
Proof.
  induction d as [|[k' v'] d IH]; cbn [dict_set].
  - intros [E|[]]. left. now symmetry.
  - destruct (String.eqb k k').
    + intros [E|I]; [left; now symmetry|right; now right].
    + intros [E|I]; [right; now left|].
      destruct (IH I) as [E|I']; [now left|right; now right].
Qed.

Lemma upsert_all_In {V} (rows : list (string * V)) (table : dict V)
    (e : string * V) :
  In e (upsert_all table rows) -> In e table \/ In e rows.
Proof.
  unfold upsert_all. revert table.
  induction rows as [|[k v] rows IH]; intros table; cbn [fold_left]; [auto|].
  intros I. destruct (IH _ I) as [I'|I']; [|right; now right].
  destruct e as [k0 v0]. cbn [fst snd] in I'.
  destruct (dict_set_In _ _ _ _ _ I') as [E|I'']; [right; now left|now left].
Qed.

Lemma left_join_fields (models : list model_row) (mc : model_card)
    (c : card_row) :
  In c (left_join models mc) ->
  r_card_hash c = mc_card_hash mc /\ r_model_id c = mc_model_id mc.
Proof.
  unfold left_join. destruct (filter _ models) as [|m ms].
  - intros [<-|[]]. now split.
  - intros I. apply in_map_iff in I as [m' [<- _]]. now split.
Qed.

Lemma left_join_nonempty (models : list model_row) (mc : model_card) :
  left_join models mc <> [].
Proof.
  unfold left_join. destruct (filter _ models); cbn [map]; discriminate.
Qed.

Lemma records_In (db : database) (c : card_row) :
  In c (records db) ->
  exists mc, In mc (model_cards db) /\ excluded_from_rag mc = false /\
    r_card_hash c = mc_card_hash mc /\ r_model_id c = mc_model_id mc.
Proof.
  unfold records. intros I. apply in_flat_map in I as [mc [F I]].
  apply filter_In in F as [F X]. exists mc. split; [exact F|].
  split; [now destruct (excluded_from_rag mc)|].
  now apply left_join_fields in I.
Qed.

Lemma records_hash (db : database) (mc : model_card) :
  In mc (model_cards db) -> excluded_from_rag mc = false ->
  exists c, In c (records db) /\ r_card_hash c = mc_card_hash mc.
Proof.
  intros I X. pose proof (left_join_nonempty (models db) mc) as N.
  destruct (left_join (models db) mc) as [|c l] eqn:J; [congruence|].
  exists c. split.
  - unfold records. apply in_flat_map. exists mc. split.
    + apply filter_In. split; [exact I|now rewrite X].
    + rewrite J. now left.
  - assert (Ic : In c (left_join (models db) mc)) by (rewrite J; now left).
    now apply left_join_fields in Ic.
Qed.

(** The entries the canonical mapping writes: the hash and the model of a
    non-excluded card. *)
Lemma canon_entry_card (db : database) (h id : string) (n : Z) :
  In (h, (id, n)) (canon_data (hash_groups (select_cards db))) ->
  exists mc, In mc (model_cards db) /\ excluded_from_rag mc = false /\
    mc_card_hash mc = h /\ mc_model_id mc = id.
Proof.
  intros I. unfold canon_data in I. apply in_flat_map in I as [[h' g] [Ig I]].
  cbn [fst snd] in I. destruct g as [|c g]; [destruct I|].
  destruct I as [[= -> <- _]|[]].
  apply (In_dict_get _ _ _ (hash_groups_NoDup _)) in Ig.
  rewrite hash_groups_get in Ig.
  assert (Ic : In c (group_of (select_cards db) h)).
  { destruct (group_of (select_cards db) h); [discriminate|].
    injection Ig as ->. now left. }
  apply group_of_In in Ic as [Ic <-].
  apply (Permutation_in _ (sorted_Permutation order_key (records db))) in Ic.
  destruct (records_In _ _ Ic) as [mc [Im [X [Eh Ei]]]].
  exists mc. auto.
Qed.

Lemma canon_entry_exists (db : database) (mc : model_card) :
  In mc (model_cards db) -> excluded_from_rag mc = false ->
  exists id n,
    In (mc_card_hash mc, (id, n)) (canon_data (hash_groups (select_cards db))).
Proof.
  intros I X. destruct (records_hash db mc I X) as [c [Ic Eh]].
  assert (Ig : In c (group_of (select_cards db) (mc_card_hash mc))).
  { apply group_of_In. split; [|exact Eh].
    apply (Permutation_in _ (Permutation_sym
                               (sorted_Permutation order_key (records db)))).
    exact Ic. }
  pose proof (hash_groups_get (select_cards db) (mc_card_hash mc)) as G.
  destruct (group_of (select_cards db) (mc_card_hash mc)) as [|c0 g];
    [destruct Ig|].
  apply dict_get_In in G.
  exists (r_model_id c0), (len (c0 :: g)).
  unfold canon_data. apply in_flat_map.
  exists (mc_card_hash mc, c0 :: g). split; [exact G|]. now left.
Qed.

(** X29: in a run that starts with an empty [hf.card_canon], over cards
    with unique model ids, every card the chunking step selects is a card
    that the exclusion rules left in: it is not excluded, its text is not the
    sentinel and it has between 50 and 100000 tokens; and without a limit on
    the canonical cards, the hash of every card left in is among the hashes
    selected. *)
Theorem pipeline_chunks_surviving_cards (st : state) :
  let st2 := step_canonical (step_exclusion st) in
  let cards :=
    canonical_cards (s_db st2) (max_canon_models (s_config st2)) in
  card_canon (s_db st) = [] ->
  NoDup (map mc_model_id (model_cards (s_db st))) ->
  (forall cc, In cc cards ->
     exists mc,
       In mc (model_cards (s_db st2)) /\
       mc_model_id mc = cc_canonical_model_id cc /\
       mc_card_hash mc = cc_card_hash cc /\
       card_text mc = cc_card_text cc /\
       token_count mc = cc_token_count cc /\
       excluded_from_rag mc = false /\
       card_text mc <> "No model card found." /\
       50 <= token_count mc <= 100000) /\
  (max_canon_models (s_config st) <= 0 ->
   forall mc, In mc (model_cards (s_db st2)) -> excluded_from_rag mc = false ->
     In (mc_card_hash mc) (map cc_card_hash cards)).
Proof.
  intros st2 cards E0 U.
  set (b1 := apply_exclusion_rules (to_builder st)).
  assert (M1 : model_cards (conn b1)
               = map after_rules (model_cards (s_db st)))
    by apply apply_exclusion_rules_cards.
  assert (C1 : card_canon (conn b1) = []) by exact E0.
  set (db1 := conn b1) in *.
  assert (D2 : s_db st2
               = mk_database (model_cards db1) (models db1)
                   (upsert_all (card_canon db1)
                      (canon_data (hash_groups (select_cards db1))))
                   (upsert_all (model_to_card db1)
                      (model_to_card_data (hash_groups (select_cards db1)))))
    by reflexivity.
  assert (U1 : NoDup (map mc_model_id (model_cards db1))).
  { rewrite M1, map_map. erewrite map_ext; [exact U|]. apply after_rules_id. }
  assert (S1 : forall mc, In mc (model_cards db1) ->
                 excluded_from_rag mc = false ->
                 card_text mc <> "No model card found." /\
                 50 <= token_count mc <= 100000).
  { intros mc I X. rewrite M1 in I. apply in_map_iff in I as [c [<- _]].
    destruct (after_rules_survivor c X) as [-> R]. exact R. }
  assert (Cfg : max_canon_models (s_config st2) = max_canon_models (s_config st))
    by reflexivity.
  split.
  - intros cc I. unfold cards, canonical_cards in I.
    assert (I' : In cc (flat_map (join_canon (model_cards (s_db st2)))
                          (card_canon (s_db st2)))).
    { apply (Permutation_in _ (sorted_Permutation cc_card_hash _)).
      destruct (_ >? 0); [now apply In_firstn in I|exact I]. }
    apply in_flat_map in I' as [[h [id n]] [Ie Ij]].
    unfold join_canon in Ij. cbn [fst snd] in Ij.
    apply in_map_iff in Ij as [mc [<- Im]].
    apply filter_In in Im as [Im Eid]. apply String.eqb_eq in Eid.
    rewrite D2 in Ie, Im. cbn [card_canon model_cards] in Ie, Im.
    rewrite C1 in Ie. apply upsert_all_In in Ie as [[]|Ie].
    destruct (canon_entry_card db1 h id n Ie) as [mc0 [I0 [X0 [H0 Id0]]]].
    assert (mc0 = mc) as ->.
    { apply (EmbeddingFacts.NoDup_map_inj mc_model_id _ _ _ U1 I0 Im).
      congruence. }
    exists mc. cbn [cc_canonical_model_id cc_card_hash cc_card_text
                    cc_token_count].
    rewrite D2. cbn [model_cards].
    destruct (S1 mc Im X0) as [T B]. repeat split; auto; lia.
  - intros L mc Im X. rewrite D2 in Im. cbn [model_cards] in Im.
    destruct (canon_entry_exists db1 mc Im X) as [id [n Ie]].
    destruct (canon_entry_card db1 _ id n Ie) as [mc0 [I0 [X0 [H0 Id0]]]].
    assert (Ic : In (mc_card_hash mc, (id, n)) (card_canon (s_db st2))).
    { rewrite D2. cbn [card_canon]. apply dict_get_In.
      apply upsert_all_get; [|exact Ie].
      apply canon_data_NoDup, hash_groups_NoDup. }
    unfold cards, canonical_cards. rewrite Cfg.
    destruct (Z.gtb_spec (max_canon_models (s_config st)) 0); [lia|].
    apply in_map_iff.
    exists (mk_canonical_card (mc_card_hash mc) id (card_text mc0)
              (token_count mc0)).
    split; [reflexivity|].
    apply (Permutation_in _ (Permutation_sym
                               (sorted_Permutation cc_card_hash _))).
    apply in_flat_map. exists (mc_card_hash mc, (id, n)). split; [exact Ic|].
    unfold join_canon. cbn [fst snd]. apply in_map_iff.
    exists mc0. split; [reflexivity|]. apply filter_In.
    split; [rewrite D2; exact I0|]. apply String.eqb_eq. now symmetry.
Qed.

Lemma pipeline_chunks_surviving_cards_witness :
  let st2 := step_canonical (step_exclusion fresh_state) in
  let cards :=
    canonical_cards (s_db st2) (max_canon_models (s_config st2)) in
  (forall cc, In cc cards ->
     exists mc,
       In mc (model_cards (s_db st2)) /\
       mc_model_id mc = cc_canonical_model_id cc /\
       mc_card_hash mc = cc_card_hash cc /\
       card_text mc = cc_card_text cc /\
       token_count mc = cc_token_count cc /\
       excluded_from_rag mc = false /\
       card_text mc <> "No model card found." /\
       50 <= token_count mc <= 100000) /\
  (max_canon_models (s_config fresh_state) <= 0 ->
   forall mc, In mc (model_cards (s_db st2)) -> excluded_from_rag mc = false ->
     In (mc_card_hash mc) (map cc_card_hash cards)).
Proof.
  apply (pipeline_chunks_surviving_cards fresh_state).
  - reflexivity.
  - cbn. repeat constructor; cbn; intuition discriminate.
Defined.

End PipelineFacts.
